(** * Bulk, MPI backend: the superstep engine of [world_provider]

    A shallow embedding of [backends/mpi/world_provider.hpp] and of the
    ownership protocol of [bulk::var<T>] ([include/bulk/variable.hpp]).

    One MPI rank is a [process]: the private fields of the C++ class
    ([world_provider]), the rank's flat byte memory, its MPI endpoint (one
    mailbox per receive category, and the frames handed to [MPI_Send] that
    are still in transit) and the log of the MPI calls it made.  A [world]
    is the list of all ranks, indexed by their pid.

    Integers: [int] values that the code only counts with are plain [Z]
    (signed overflow is undefined in C++); [size_t] products are reduced
    modulo 2^64 as the hardware does.  Addresses are [Z], and the sum of an
    address and an offset is the sum in [Z]: the wrap-around of pointer
    addition at 2^64 is not part of the model, nor is the [int] in which MPI
    counts the bytes of a frame, nor what [memcpy] does on overlapping
    ranges.  [in_address_space], [disjoint_ranges], [put_in_bounds],
    [get_in_bounds] and [call_in_bounds] single out the calls and frames on
    which the model and the code agree. *)

From stdpp Require Import base decidable option numbers list gmap.

Local Open Scope Z_scope.

(** ** Bytes and memory *)

Abbreviation byte := Byte.byte.

Definition memory : Type := Z → byte.

(** [size_t] arithmetic is unsigned 64-bit. *)
Definition size_t (z : Z) : Z := z `mod` 2 ^ 64.

(** The [n] bytes stored at [addr], [addr+1], ... *)
Definition read_bytes (m : memory) (addr n : Z) : list byte :=
  m <$> seqZ addr n.

(** Store [bs] at [addr], [addr+1], ...; every other cell keeps its value. *)
Definition write_bytes (m : memory) (addr : Z) (bs : list byte) : memory :=
  λ a, if decide (addr ≤ a < addr + Z.of_nat (length bs))
       then default Byte.x00 (bs !! Z.to_nat (a - addr))
       else m a.

(** [memcpy(dst, src, n)] on ranges that do not overlap.  The source bytes
    are read first, then stored; on overlapping ranges, where C leaves
    [memcpy] undefined, this is the result of [memmove]. *)
Definition memcpy (dst src n : Z) (m : memory) : memory :=
  write_bytes m dst (read_bytes m src n).

(** ** Outcomes

    The C++ code either returns, or it stops the rank: [std::out_of_range]
    thrown by [bimap::at] is never caught, [MPI_Probe] waits for ever when
    the message it probes for was never sent, and MPI aborts on a rank that
    is not in the communicator.  [Out_of_fuel] is an artefact of the loop
    encoding, shown unreachable below. *)

Inductive fault : Set :=
| Out_of_range
| Probe_blocks
| Invalid_rank
| Out_of_fuel.

Inductive outcome (A : Type) : Type :=
| Done (a : A)
| Fault (e : fault).
Arguments Done {A} a.
Arguments Fault {A} e.

#[global] Instance outcome_ret : MRet outcome := λ A a, Done a.
#[global] Instance outcome_bind : MBind outcome := λ A B f c,
  match c with
  | Done a => f a
  | Fault e => Fault e
  end.
#[global] Instance outcome_fmap : FMap outcome := λ A B f c,
  match c with
  | Done a => Done (f a)
  | Fault e => Fault e
  end.

Definition outcome_of_option {A} (e : fault) (o : option A) : outcome A :=
  match o with
  | Some a => Done a
  | None => Fault e
  end.

(** ** The registry: [boost::bimap<void*, var_id_type>]

    A bimap is one set of (location, id) pairs with a unique-key index on
    each side.  [insert] is refused, silently, when either key is taken. *)

Definition bimap : Type := list (Z * Z).

Fixpoint left_find (b : bimap) (location : Z) : option Z :=
  match b with
  | [] => None
  | (l, i) :: b' => if decide (l = location) then Some i else left_find b' location
  end.

Fixpoint right_find (b : bimap) (id : Z) : option Z :=
  match b with
  | [] => None
  | (l, i) :: b' => if decide (i = id) then Some l else right_find b' id
  end.

(** [locations_.left.at(location)] and [locations_.right.at(id)]. *)
Definition left_at (b : bimap) (location : Z) : outcome Z :=
  outcome_of_option Out_of_range (left_find b location).

Definition right_at (b : bimap) (id : Z) : outcome Z :=
  outcome_of_option Out_of_range (right_find b id).

(** [locations_.insert(bimap_pair(location, id))]. *)
Definition bimap_insert (location id : Z) (b : bimap) : bimap :=
  match left_find b location, right_find b id with
  | None, None => b ++ [(location, id)]
  | _, _ => b
  end.

(** [locations_.left.erase(location)]. *)
Definition left_erase (location : Z) (b : bimap) : bimap :=
  filter (λ e, e.1 ≠ location) b.

(** ** Wire frames *)

Inductive receive_category : Set :=
| var_put
| var_get
| var_get_response
| message.

#[global] Instance receive_category_eq_dec : EqDecision receive_category.
Proof. solve_decision. Defined.

Record put_header : Set := {
  ph_var_id : Z;
  ph_data_offset : Z
}.

Record get_header : Set := {
  gh_var_id : Z;
  gh_data_offset : Z;
  gh_count : Z;
  gh_size : Z;
  gh_target : Z
}.

Record get_response_header : Set := {
  rh_target : Z;
  rh_data_size : Z
}.

(** What travels: a header, followed for puts and responses by raw bytes.
    The byte count that [MPI_Send] and [MPI_Get_count] exchange is the size
    of the header plus the length of the payload, so the receiver's
    [count - sizeof(put_header)] is the payload's length.  That count is an
    [int]: frames of more than [INT_MAX] bytes are not modelled. *)
Inductive frame : Type :=
| Put_frame (h : put_header) (payload : list byte)
| Get_frame (h : get_header)
| Get_response_frame (h : get_response_header) (payload : list byte).

(** ** The state of one rank *)

Record world_provider : Type := {
  pid_ : Z;
  nprocs_ : Z;
  vars_ : Z;
  locations_ : bimap;
  put_counts_ : list Z;
  get_counts_ : list Z;
  remote_puts_ : Z;
  remote_gets_ : Z;
  local_gets_ : Z
}.

(** The endpoint MPI keeps for the rank: received and not yet consumed
    messages, by tag, each with its source, in arrival order; and the
    messages handed to [MPI_Send] that the network still has to carry.
    [MPI_Probe] followed by [MPI_Recv], both with [MPI_ANY_SOURCE] and the
    same tag, take the oldest message of that tag. *)
Record endpoint : Type := {
  in_put : list (Z * (put_header * list byte));
  in_get : list (Z * get_header);
  in_response : list (Z * (get_response_header * list byte));
  outbox : list (Z * frame)
}.

(** The MPI calls of a rank, in program order.  [Counters_reset] marks
    lines 170-174 of [sync], which make no MPI call. *)
Inductive event : Type :=
| Barrier
| Reduce_scatter (sendbuf : list Z) (recv : Z)
| Recv (tag : receive_category) (src : Z) (f : frame)
| Send (dst : Z) (tag : receive_category) (f : frame)
| Counters_reset.

Record process : Type := {
  wp : world_provider;
  heap : memory;
  net : endpoint;
  log : list event
}.

(** Field updates. *)

Definition set_locations (b : bimap) (v : Z) (s : world_provider) : world_provider :=
  {| pid_ := pid_ s; nprocs_ := nprocs_ s; vars_ := v; locations_ := b;
     put_counts_ := put_counts_ s; get_counts_ := get_counts_ s;
     remote_puts_ := remote_puts_ s; remote_gets_ := remote_gets_ s;
     local_gets_ := local_gets_ s |}.

Definition set_counters (pc gc : list Z) (rp rg lg : Z) (s : world_provider) : world_provider :=
  {| pid_ := pid_ s; nprocs_ := nprocs_ s; vars_ := vars_ s;
     locations_ := locations_ s;
     put_counts_ := pc; get_counts_ := gc;
     remote_puts_ := rp; remote_gets_ := rg; local_gets_ := lg |}.

Definition set_put_counts (pc : list Z) (s : world_provider) : world_provider :=
  set_counters pc (get_counts_ s) (remote_puts_ s) (remote_gets_ s) (local_gets_ s) s.

Definition set_get_counts (gc : list Z) (s : world_provider) : world_provider :=
  set_counters (put_counts_ s) gc (remote_puts_ s) (remote_gets_ s) (local_gets_ s) s.

Definition set_remote_puts (rp : Z) (s : world_provider) : world_provider :=
  set_counters (put_counts_ s) (get_counts_ s) rp (remote_gets_ s) (local_gets_ s) s.

Definition set_remote_gets (rg : Z) (s : world_provider) : world_provider :=
  set_counters (put_counts_ s) (get_counts_ s) (remote_puts_ s) rg (local_gets_ s) s.

Definition set_local_gets (lg : Z) (s : world_provider) : world_provider :=
  set_counters (put_counts_ s) (get_counts_ s) (remote_puts_ s) (remote_gets_ s) lg s.

Definition with_wp (f : world_provider → world_provider) (p : process) : process :=
  {| wp := f (wp p); heap := heap p; net := net p; log := log p |}.

Definition with_heap (f : memory → memory) (p : process) : process :=
  {| wp := wp p; heap := f (heap p); net := net p; log := log p |}.

Definition with_net (f : endpoint → endpoint) (p : process) : process :=
  {| wp := wp p; heap := heap p; net := f (net p); log := log p |}.

Definition record (e : event) (p : process) : process :=
  {| wp := wp p; heap := heap p; net := net p; log := log p ++ [e] |}.

Definition set_in_put (l : list (Z * (put_header * list byte))) (n : endpoint) : endpoint :=
  {| in_put := l; in_get := in_get n; in_response := in_response n; outbox := outbox n |}.

Definition set_in_get (l : list (Z * get_header)) (n : endpoint) : endpoint :=
  {| in_put := in_put n; in_get := l; in_response := in_response n; outbox := outbox n |}.

Definition set_in_response (l : list (Z * (get_response_header * list byte)))
    (n : endpoint) : endpoint :=
  {| in_put := in_put n; in_get := in_get n; in_response := l; outbox := outbox n |}.

Definition set_outbox (l : list (Z * frame)) (n : endpoint) : endpoint :=
  {| in_put := in_put n; in_get := in_get n; in_response := in_response n; outbox := l |}.

(** ** MPI primitives, as one rank sees them *)

(** [MPI_Send(buf, n, MPI_BYTE, dst, tag, MPI_COMM_WORLD)]: the frame leaves
    the rank.  The communicator has [nprocs_] ranks (constructor, line 43).
    The send is taken to be buffered: it returns without waiting for the
    receiver.  The model carries a frame of any length, where the code
    passes the length as an [int] (see [put_in_bounds], [get_in_bounds]);
    and it stops on every [dst] outside the communicator, [MPI_PROC_NULL]
    included, which no statement below relies on. *)
Definition MPI_Send (dst : Z) (tag : receive_category) (f : frame)
    (p : process) : outcome process :=
  if decide (0 ≤ dst < nprocs_ (wp p))
  then Done (record (Send dst tag f)
               (with_net (λ n, set_outbox (outbox n ++ [(dst, f)]) n) p))
  else Fault Invalid_rank.

(** [MPI_Barrier(MPI_COMM_WORLD)]. *)
Definition MPI_Barrier (p : process) : process := record Barrier p.

(** ** Operations of [world_provider] outside [sync] *)

(** Lines 210-214, for ranges in the address space that do not overlap. *)
Definition put_to_self_ (value variable size offset count : Z) (p : process) : process :=
  with_heap (memcpy (variable + size_t (size * offset)) value (size_t (count * size))) p.

(** Lines 217-221, for ranges in the address space that do not overlap. *)
Definition get_from_self_ (variable target size offset count : Z) (p : process) : process :=
  with_heap (memcpy target (variable + size_t (size * offset)) (size_t (count * size))) p.

(** [v[i]++] on a [std::vector<int>]. *)
Definition increment (i : Z) (v : list Z) : list Z := alter Z.succ (Z.to_nat i) v.

(** Lines 179-208. *)
Definition internal_put_ (processor value variable size offset count : Z)
    (p : process) : outcome process :=
  if decide (processor = pid_ (wp p)) then
    Done (put_to_self_ value variable size offset count p)
  else
    var_id ← left_at (locations_ (wp p)) variable;
    let header := {| ph_var_id := var_id; ph_data_offset := size_t (offset * size) |} in
    let payload := read_bytes (heap p) value (size_t (size * count)) in
    p' ← MPI_Send processor var_put (Put_frame header payload) p;
    Done (with_wp (λ s, set_put_counts (increment processor (put_counts_ s)) s) p').

(** Lines 232-252. *)
Definition internal_get_ (processor variable target size offset count : Z)
    (p : process) : outcome process :=
  if decide (processor = pid_ (wp p)) then
    Done (get_from_self_ variable target size offset count p)
  else
    var_id ← left_at (locations_ (wp p)) variable;
    let header := {| gh_var_id := var_id; gh_data_offset := size_t (offset * size);
                     gh_count := count; gh_size := size; gh_target := target |} in
    p' ← MPI_Send processor var_get (Get_frame header) p;
    Done (with_wp (λ s, set_local_gets (local_gets_ s + 1)
                          (set_get_counts (increment processor (get_counts_ s)) s)) p').

(** Lines 254-255: the body is empty. *)
Definition internal_send_ (processor : Z) (tag content : list byte)
    (tag_size content_size : Z) (p : process) : process := p.

(** Lines 223-226: the id returned is the old value of [vars_]; no path of
    the function throws or aborts. *)
Definition register_location_ (location size : Z) (p : process) : outcome (Z * process) :=
  Done (vars_ (wp p),
        with_wp (λ s, set_locations (bimap_insert location (vars_ s) (locations_ s))
                                    (vars_ s + 1) s) p).

(** Lines 228-230. *)
Definition unregister_location_ (location : Z) (p : process) : process :=
  with_wp (λ s, set_locations (left_erase location (locations_ s)) (vars_ s) s) p.

(** ** [sync], rank by rank *)

(** [while (counter > 0) { body }].  Every body below ends by decrementing
    its counter, so [Z.to_nat counter] rounds of fuel are enough. *)
Fixpoint while (counter : process → Z) (body : process → outcome process)
    (fuel : nat) (p : process) : outcome process :=
  if decide (0 < counter p) then
    match fuel with
    | O => Fault Out_of_fuel
    | S fuel' => p' ← body p; while counter body fuel' p'
    end
  else Done p.

(** [n] rounds of a loop body, one after the other. *)
Fixpoint rounds (body : process → outcome process) (n : nat) (p : process) :
    outcome process :=
  match n with
  | O => Done p
  | S n' => p' ← body p; rounds body n' p'
  end.

(** Lines 70-92: probe for a put, receive it, store its payload.  The
    address of the store is the sum in [Z]: the frame is taken to be in
    bounds ([put_in_bounds]). *)
Definition receive_put (p : process) : outcome process :=
  match in_put (net p) with
  | [] => Fault Probe_blocks
  | (src, (header, payload)) :: rest =>
      let p1 := record (Recv var_put src (Put_frame header payload))
                  (with_net (set_in_put rest) p) in
      base ← right_at (locations_ (wp p1)) (ph_var_id header);
      let p2 := with_heap (λ m, write_bytes m (base + ph_data_offset header) payload) p1 in
      Done (with_wp (λ s, set_remote_puts (remote_puts_ s - 1) s) p2)
  end.

(** Lines 97-138: probe for a get, receive it, answer its sender.  The
    address read is the sum in [Z] and the answer may have any length: the
    frame is taken to be in bounds ([get_in_bounds]). *)
Definition serve_get (p : process) : outcome process :=
  match in_get (net p) with
  | [] => Fault Probe_blocks
  | (src, header) :: rest =>
      let p1 := record (Recv var_get src (Get_frame header))
                  (with_net (set_in_get rest) p) in
      let out_header := {| rh_target := gh_target header;
                           rh_data_size := size_t (gh_size header * gh_count header) |} in
      base ← right_at (locations_ (wp p1)) (gh_var_id header);
      let payload := read_bytes (heap p1) (base + gh_data_offset header)
                       (size_t (gh_size header * gh_count header)) in
      p2 ← MPI_Send src var_get_response (Get_response_frame out_header payload) p1;
      Done (with_wp (λ s, set_remote_gets (remote_gets_ s - 1) s) p2)
  end.

(** Lines 145-167: probe for a response, receive it, store [data_size]
    bytes of it at the address its header names. *)
Definition receive_response (p : process) : outcome process :=
  match in_response (net p) with
  | [] => Fault Probe_blocks
  | (src, (header, payload)) :: rest =>
      let p1 := record (Recv var_get_response src (Get_response_frame header payload))
                  (with_net (set_in_response rest) p) in
      let p2 := with_heap (λ m, write_bytes m (rh_target header)
                                  (take (Z.to_nat (rh_data_size header)) payload)) p1 in
      Done (with_wp (λ s, set_local_gets (local_gets_ s - 1) s) p2)
  end.

(** Lines 170-174. *)
Definition reset_counters (s : world_provider) : world_provider :=
  set_counters (replicate (length (put_counts_ s)) 0)
               (replicate (length (get_counts_ s)) 0) 0 0 0 s.

(** Lines 60-66.  [rp] and [rg] are what the two reduce-scatters deliver to
    this rank. *)
Definition sync_enter (rp rg : Z) (p : process) : process :=
  let p1 := MPI_Barrier p in
  let p2 := with_wp (set_remote_puts rp)
              (record (Reduce_scatter (put_counts_ (wp p1)) rp) p1) in
  with_wp (set_remote_gets rg)
    (record (Reduce_scatter (get_counts_ (wp p2)) rg) p2).

(** Lines 69-141: both request loops, then the middle barrier. *)
Definition sync_serve (p : process) : outcome process :=
  p1 ← while (λ q, remote_puts_ (wp q)) receive_put (Z.to_nat (remote_puts_ (wp p))) p;
  p2 ← while (λ q, remote_gets_ (wp q)) serve_get (Z.to_nat (remote_gets_ (wp p1))) p1;
  Done (MPI_Barrier p2).

(** Lines 144-176: the response loop, the reset, the last barrier. *)
Definition sync_finish (p : process) : outcome process :=
  p1 ← while (λ q, local_gets_ (wp q)) receive_response (Z.to_nat (local_gets_ (wp p))) p;
  Done (MPI_Barrier (record Counters_reset (with_wp reset_counters p1))).

(** ** All ranks together *)

Abbreviation world := (list process).

(** [MPI_Reduce_scatter] with [MPI_SUM] and one element per rank: rank [i]
    receives the sum of the [i]-th entries of all send buffers.  (The
    buffers have an entry for every rank, by the constructor.) *)
Definition reduce_scatter_sum (bufs : list (list Z)) (i : nat) : Z :=
  foldr Z.add 0 ((λ b, default 0 (b !! i)) <$> bufs).

(** Everything in transit: (source, destination, frame), by source rank and
    then in send order. *)
Definition in_transit (w : world) : list (Z * Z * frame) :=
  mjoin (imap (λ s p, (λ df, (Z.of_nat s, df.1, df.2)) <$> outbox (net p)) w).

(** A message arrives in the mailbox of its category at rank [i]. *)
Definition arrive (i : Z) (n : endpoint) (msg : Z * Z * frame) : endpoint :=
  if decide (msg.1.2 = i) then
    match msg.2 with
    | Put_frame h payload => set_in_put (in_put n ++ [(msg.1.1, (h, payload))]) n
    | Get_frame h => set_in_get (in_get n ++ [(msg.1.1, h)]) n
    | Get_response_frame h payload =>
        set_in_response (in_response n ++ [(msg.1.1, (h, payload))]) n
    end
  else n.

(** The network carries every frame in transit to its destination. *)
Definition transmit (w : world) : world :=
  imap (λ i p, with_net (λ n, foldl (arrive (Z.of_nat i)) (set_outbox [] n) (in_transit w)) p) w.

Fixpoint for_each {A B} (f : A → outcome B) (l : list A) : outcome (list B) :=
  match l with
  | [] => Done []
  | x :: l' => y ← f x; l'' ← for_each f l'; Done (y :: l'')
  end.

(** One operation of rank [s], followed by the delivery of what it sent.
    The order in which the ranks' operations are taken is therefore the
    order in which their frames arrive. *)
Definition at_rank (s : nat) (op : process → outcome process) (w : world) : outcome world :=
  p ← outcome_of_option Invalid_rank (w !! s);
  p' ← op p;
  Done (transmit (<[s := p']> w)).

(** The collective [sync]: the barriers cut every rank's [sync] into the
    same three pieces, and no rank starts a piece before all ranks finished
    the one before.  Responses sent while serving are delivered before the
    response loops start (middle barrier). *)
Definition remote_puts_of (w : world) (i : nat) : Z :=
  reduce_scatter_sum ((λ p, put_counts_ (wp p)) <$> w) i.

Definition remote_gets_of (w : world) (i : nat) : Z :=
  reduce_scatter_sum ((λ p, get_counts_ (wp p)) <$> w) i.

Definition sync_all (w : world) : outcome world :=
  let w1 := imap (λ i p, sync_enter (remote_puts_of w i) (remote_gets_of w i) p) w in
  w2 ← for_each sync_serve w1;
  for_each sync_finish (transmit w2).

(** ** What the loops of [sync] compute *)

(** The store done for one received put (lines 85-89), for a frame in
    bounds. *)
Definition put_effect (b : bimap) (m : memory) (msg : Z * (put_header * list byte)) : memory :=
  match right_find b (ph_var_id msg.2.1) with
  | Some base => write_bytes m (base + ph_data_offset msg.2.1) msg.2.2
  | None => m
  end.

(** The answer to one received get (lines 114-133), when its id resolves,
    for a frame in bounds. *)
Definition answer (b : bimap) (m : memory) (msg : Z * get_header) : option (Z * frame) :=
  base ← right_find b (gh_var_id msg.2);
  Some (msg.1,
        Get_response_frame
          {| rh_target := gh_target msg.2;
             rh_data_size := size_t (gh_size msg.2 * gh_count msg.2) |}
          (read_bytes m (base + gh_data_offset msg.2)
             (size_t (gh_size msg.2 * gh_count msg.2)))).

(** The store done for one received response (lines 160-163). *)
Definition response_effect (m : memory)
    (msg : Z * (get_response_header * list byte)) : memory :=
  write_bytes m (rh_target msg.2.1) (take (Z.to_nat (rh_data_size msg.2.1)) msg.2.2).

Definition recv_put_event (msg : Z * (put_header * list byte)) : event :=
  Recv var_put msg.1 (Put_frame msg.2.1 msg.2.2).

Definition recv_get_event (msg : Z * get_header) : event :=
  Recv var_get msg.1 (Get_frame msg.2).

Definition recv_response_event (msg : Z * (get_response_header * list byte)) : event :=
  Recv var_get_response msg.1 (Get_response_frame msg.2.1 msg.2.2).

(** A get is received, then answered. *)
Definition serve_events (b : bimap) (m : memory) (msg : Z * get_header) : list event :=
  recv_get_event msg ::
  match answer b m msg with
  | Some (dst, f) => [Send dst var_get_response f]
  | None => []
  end.

(** The events of one whole [sync] of a rank: [pc], [gc] are its counters
    on entry, [rp], [rg] the two sums it receives, [b] its registry, [m] its
    memory after the put loop, and [puts], [gets], [responses] the frames
    its three loops consume. *)
Definition sync_events (pc gc : list Z) (rp rg : Z) (b : bimap) (m : memory)
    (puts : list (Z * (put_header * list byte))) (gets : list (Z * get_header))
    (responses : list (Z * (get_response_header * list byte))) : list event :=
  [Barrier; Reduce_scatter pc rp; Reduce_scatter gc rg]
  ++ (recv_put_event <$> puts)
  ++ (gets ≫= serve_events b m)
  ++ [Barrier]
  ++ (recv_response_event <$> responses)
  ++ [Counters_reset; Barrier].

(** The destinations named by the gets a rank has issued, from its log. *)
Definition requested_targets (l : list event) : list Z :=
  l ≫= λ e, match e with
            | Send _ var_get (Get_frame h) => [gh_target h]
            | _ => []
            end.

(** The bytes a get asks to have stored at its destination. *)
Definition get_range (h : get_header) (a : Z) : Prop :=
  gh_target h ≤ a < gh_target h + size_t (gh_size h * gh_count h).

(** The bytes a received put stores, at a rank with registry [b], for a
    frame in bounds. *)
Definition put_covers (b : bimap) (msg : Z * (put_header * list byte)) (a : Z) : Prop :=
  ∃ base, right_find b (ph_var_id msg.2.1) = Some base
          ∧ base + ph_data_offset msg.2.1 ≤ a
            < base + ph_data_offset msg.2.1 + Z.of_nat (length msg.2.2).

(** ** Worlds between two operations *)

(** All get frames waiting in some mailbox. *)
Definition gets_in_flight (w : world) : list (Z * get_header) :=
  mjoin ((λ p, in_get (net p)) <$> w).

(** The responses addressed to rank [i] among the messages [msgs]. *)
Definition responses_for (i : Z) (msgs : list (Z * Z * frame)) :
    list (Z * (get_response_header * list byte)) :=
  omap (λ msg : Z * Z * frame,
          match msg.2 with
          | Get_response_frame h payload =>
              if decide (msg.1.2 = i) then Some (msg.1.1, (h, payload)) else None
          | _ => None
          end) msgs.

Definition puts_for (i : Z) (msgs : list (Z * Z * frame)) :
    list (Z * (put_header * list byte)) :=
  omap (λ msg : Z * Z * frame,
          match msg.2 with
          | Put_frame h payload =>
              if decide (msg.1.2 = i) then Some (msg.1.1, (h, payload)) else None
          | _ => None
          end) msgs.

Definition gets_for (i : Z) (msgs : list (Z * Z * frame)) : list (Z * get_header) :=
  omap (λ msg : Z * Z * frame,
          match msg.2 with
          | Get_frame h => if decide (msg.1.2 = i) then Some (msg.1.1, h) else None
          | _ => None
          end) msgs.

(** The state of the ranks while a superstep runs: what the constructor
    establishes (lines 43-50), nothing in transit, and counters that agree
    with the mailboxes: a rank's put and get mailboxes hold what the senders
    counted for it, every frame names an id its receiver has registered, and
    a rank expects as many responses as it has gets waiting somewhere. *)
Record consistent_rank (w : world) (i : nat) (p : process) : Prop := {
  c_pid : pid_ (wp p) = Z.of_nat i;
  c_nprocs : nprocs_ (wp p) = Z.of_nat (length w);
  c_put_counts : length (put_counts_ (wp p)) = length w;
  c_get_counts : length (get_counts_ (wp p)) = length w;
  c_outbox : outbox (net p) = [];
  c_in_response : in_response (net p) = [];
  c_in_put : Z.of_nat (length (in_put (net p))) = remote_puts_of w i;
  c_in_get : Z.of_nat (length (in_get (net p))) = remote_gets_of w i;
  c_put_ids : Forall (λ msg, is_Some (right_find (locations_ (wp p)) (ph_var_id msg.2.1)))
                     (in_put (net p));
  c_get_ids : Forall (λ msg, is_Some (right_find (locations_ (wp p)) (gh_var_id msg.2))
                             ∧ 0 ≤ msg.1 < Z.of_nat (length w))
                     (in_get (net p));
  c_local_gets : local_gets_ (wp p)
                 = Z.of_nat (length (filter (λ msg, msg.1 = Z.of_nat i) (gets_in_flight w)))
}.

Definition consistent (w : world) : Prop :=
  ∀ i p, w !! i = Some p → consistent_rank w i p.

(** The superstep counters of a rank. *)
Definition counters_zero (s : world_provider) : Prop :=
  Forall (λ c, c = 0) (put_counts_ s) ∧ Forall (λ c, c = 0) (get_counts_ s)
  ∧ local_gets_ s = 0 ∧ remote_puts_ s = 0 ∧ remote_gets_ s = 0.

(** Every id in the registry was handed out by [register_location_]. *)
Definition ids_below_vars (s : world_provider) : Prop :=
  Forall (λ e, e.2 < vars_ s) (locations_ s).

(** ** Start-up *)

(** The constructor, lines 42-53, on the rank [pid] of [nprocs]. *)
Definition construct (pid nprocs : Z) : world_provider :=
  {| pid_ := pid; nprocs_ := nprocs; vars_ := 0; locations_ := [];
     put_counts_ := replicate (Z.to_nat nprocs) 0;
     get_counts_ := replicate (Z.to_nat nprocs) 0;
     remote_puts_ := 0; remote_gets_ := 0; local_gets_ := 0 |}.

Definition idle : endpoint :=
  {| in_put := []; in_get := []; in_response := []; outbox := [] |}.

Definition start (pid nprocs : Z) (m : memory) : process :=
  {| wp := construct pid nprocs; heap := m; net := idle; log := [] |}.

(** [n] ranks, each with the memory [m]. *)
Definition start_world (n : nat) (m : memory) : world :=
  (λ i : nat, start (Z.of_nat i) (Z.of_nat n) m) <$> seq 0 n.

(** ** A whole [sync] on a consistent world *)

(** The memory of a rank after its put loop. *)
Definition heap_after_puts (p : process) : memory :=
  foldl (put_effect (locations_ (wp p))) (heap p) (in_put (net p)).

(** The rank [i] at the middle barrier: its put and get mailboxes are
    consumed and its answers are in transit. *)
Definition served (w : world) (i : nat) (p : process) : process :=
  {| wp := set_remote_gets 0 (set_remote_puts 0 (wp p));
     heap := heap_after_puts p;
     net := {| in_put := []; in_get := []; in_response := [];
               outbox := omap (answer (locations_ (wp p)) (heap_after_puts p))
                              (in_get (net p)) |};
     log := log p
            ++ [Barrier;
                Reduce_scatter (put_counts_ (wp p)) (remote_puts_of w i);
                Reduce_scatter (get_counts_ (wp p)) (remote_gets_of w i)]
            ++ (recv_put_event <$> in_put (net p))
            ++ (in_get (net p) ≫= serve_events (locations_ (wp p)) (heap_after_puts p))
            ++ [Barrier] |}.

(** The responses that reach rank [i] after the middle barrier. *)
Definition responses_to (w : world) (i : nat) :
    list (Z * (get_response_header * list byte)) :=
  responses_for (Z.of_nat i) (in_transit (imap (served w) w)).

(** The rank [i] when [sync] returns. *)
Definition synced (w : world) (i : nat) (p : process) : process :=
  {| wp := reset_counters (wp p);
     heap := foldl response_effect (heap_after_puts p) (responses_to w i);
     net := idle;
     log := log p
            ++ sync_events (put_counts_ (wp p)) (get_counts_ (wp p))
                 (remote_puts_of w i) (remote_gets_of w i)
                 (locations_ (wp p)) (heap_after_puts p)
                 (in_put (net p)) (in_get (net p)) (responses_to w i) |}.

(** A response [r] is the answer to the get [g]: it repeats the handle and
    carries as many bytes as the get asked for. *)
Definition answers_get (g : Z * get_header)
    (r : Z * (get_response_header * list byte)) : Prop :=
  rh_target r.2.1 = gh_target g.2
  ∧ rh_data_size r.2.1 = size_t (gh_size g.2 * gh_count g.2)
  ∧ Z.of_nat (length r.2.2) = size_t (gh_size g.2 * gh_count g.2).

(** ** A remote put or get on a world with nothing in transit *)

(** Rank [s] has sent the put [msg] to rank [d]: the sender counted and
    logged it, the frame waits in [d]'s put mailbox. *)
Definition after_put (s d : nat) (msg : put_header * list byte) (w : world) : world :=
  imap (λ i p,
          {| wp := if decide (i = s)
                   then set_put_counts (increment (Z.of_nat d) (put_counts_ (wp p))) (wp p)
                   else wp p;
             heap := heap p;
             net := {| in_put := in_put (net p)
                                 ++ (if decide (i = d) then [(Z.of_nat s, msg)] else []);
                       in_get := in_get (net p);
                       in_response := in_response (net p);
                       outbox := [] |};
             log := log p
                    ++ (if decide (i = s)
                        then [Send (Z.of_nat d) var_put (Put_frame msg.1 msg.2)]
                        else []) |}) w.

(** Rank [s] has sent the get [h] to rank [d]. *)
Definition after_get (s d : nat) (h : get_header) (w : world) : world :=
  imap (λ i p,
          {| wp := if decide (i = s)
                   then set_local_gets (local_gets_ (wp p) + 1)
                          (set_get_counts (increment (Z.of_nat d) (get_counts_ (wp p))) (wp p))
                   else wp p;
             heap := heap p;
             net := {| in_put := in_put (net p);
                       in_get := in_get (net p)
                                 ++ (if decide (i = d) then [(Z.of_nat s, h)] else []);
                       in_response := in_response (net p);
                       outbox := [] |};
             log := log p
                    ++ (if decide (i = s)
                        then [Send (Z.of_nat d) var_get (Get_frame h)]
                        else []) |}) w.

(** ** [bulk::var<T>]: who owns a registration

    A [var<T>] holds [std::unique_ptr<var_impl> impl_]; the [var_impl]
    registers its value in its constructor (line 159) and unregisters it in
    its destructor (line 161).  The state below has the live [var<T>]
    objects with their [impl_] (null is [None]), the live [var_impl]
    objects with their [id_], and the calls made on the world, each with
    the [var<T>] in whose member function it was made. *)
Module Var.

Inductive world_call : Set :=
| Register_location (id : Z)
| Unregister_location (id : Z)
| World_barrier.

#[global] Instance world_call_eq_dec : EqDecision world_call.
Proof. solve_decision. Defined.

Record state : Type := {
  vars : gmap nat (option nat);
  impls : gmap nat Z;
  next_impl : nat;
  next_id : Z;
  calls : list (nat * world_call)
}.

Definition initial : state :=
  {| vars := ∅; impls := ∅; next_impl := 0%nat; next_id := 0; calls := [] |}.

(** Modelled from the spec: [bulk::world::register_location_] (world.hpp is
    not among the sources) hands out the next id, never used before, as
    [world_provider::register_location_] does with [vars_++]. *)
Definition world_register (v : nat) (s : state) : Z * state :=
  (next_id s,
   {| vars := vars s; impls := impls s; next_impl := next_impl s;
      next_id := next_id s + 1;
      calls := calls s ++ [(v, Register_location (next_id s))] |}).

Definition world_call_from (v : nat) (c : world_call) (s : state) : state :=
  {| vars := vars s; impls := impls s; next_impl := next_impl s;
     next_id := next_id s; calls := calls s ++ [(v, c)] |}.

Definition set_vars (m : gmap nat (option nat)) (s : state) : state :=
  {| vars := m; impls := impls s; next_impl := next_impl s;
     next_id := next_id s; calls := calls s |}.

(** [std::make_unique<var_impl>(world)], lines 63 and 157-160. *)
Definition make_impl (v : nat) (s : state) : nat * state :=
  let '(id, s1) := world_register v s in
  (next_impl s1,
   {| vars := vars s1; impls := <[next_impl s1 := id]> (impls s1);
      next_impl := S (next_impl s1); next_id := next_id s1; calls := calls s1 |}).

(** [delete] of a [var_impl], line 161, run inside a member of [v]. *)
Definition delete_impl (v : nat) (q : nat) (s : state) : option state :=
  id ← impls s !! q;
  let s1 := world_call_from v (Unregister_location id) s in
  Some {| vars := vars s1; impls := delete q (impls s1); next_impl := next_impl s1;
          next_id := next_id s1; calls := calls s1 |}.

(** [impl_ = std::move(other.impl_)], which is [reset(other.release())]:
    the source is nulled first, then the destination takes the pointer and
    deletes what it held. *)
Definition move_impl (v other : nat) (s : state) : option state :=
  taken ← vars s !! other;
  let s1 := set_vars (<[other := None]> (vars s)) s in
  old ← vars s1 !! v;
  let s2 := set_vars (<[v := taken]> (vars s1)) s1 in
  match old with
  | Some q => delete_impl v q s2
  | None => Some s2
  end.

Inductive op : Set :=
| Construct (v : nat)
| Move_construct (v other : nat)
| Move_assign (v other : nat)
| Destroy (v : nat).

Definition step (o : op) (s : state) : option state :=
  match o with
  | Construct v =>
      (* line 59-64 *)
      match vars s !! v with
      | Some _ => None
      | None =>
          let '(q, s1) := make_impl v s in
          Some (set_vars (<[v := Some q]> (vars s1)) s1)
      end
  | Move_construct v other =>
      (* line 96; [impl_] starts null *)
      match vars s !! v with
      | Some _ => None
      | None =>
          if decide (v = other) then None
          else move_impl v other (set_vars (<[v := None]> (vars s)) s)
      end
  | Move_assign v other =>
      (* line 101 *)
      move_impl v other s
  | Destroy v =>
      (* lines 75-87, then the destructor of [impl_] *)
      impl ← vars s !! v;
      match impl with
      | Some q =>
          s1 ← delete_impl v q (world_call_from v World_barrier s);
          Some (set_vars (delete v (vars s1)) s1)
      | None => Some (set_vars (delete v (vars s)) s)
      end
  end.

Fixpoint run (os : list op) (s : state) : option state :=
  match os with
  | [] => Some s
  | o :: os' => s' ← step o s; run os' s'
  end.

(** The [var<T>] whose [impl_] points to the [var_impl] with id [id]. *)
Definition owns (s : state) (v : nat) (id : Z) : Prop :=
  ∃ q, vars s !! v = Some (Some q) ∧ impls s !! q = Some id.

(** How often [id] was registered, and how often unregistered. *)
Definition registered (id : Z) (s : state) : nat :=
  length (filter (λ c, c.2 = Register_location id) (calls s)).

Definition unregistered (id : Z) (s : state) : nat :=
  length (filter (λ c, c.2 = Unregister_location id) (calls s)).

(** The states a program can reach. *)
Definition reachable (s : state) : Prop := ∃ os, run os initial = Some s.

(** Two variables, [var<int> a(world), b(world)], numbered 0 and 1. *)
Definition example_two_vars : state :=
  default initial (run [Construct 0; Construct 1] initial).

(** What holds in every reachable state: the [impl_] pointers that are not
    null point to live objects, no two [var<T>] share one, every live
    [var_impl] is pointed to, ids are the ones handed out and differ from
    object to object; an id held by a live object was never unregistered,
    an id handed out and no longer held was unregistered once. *)
Record inv (s : state) : Prop := {
  inv_live : ∀ v q, vars s !! v = Some (Some q) → is_Some (impls s !! q);
  inv_unique : ∀ v1 v2 q,
    vars s !! v1 = Some (Some q) → vars s !! v2 = Some (Some q) → v1 = v2;
  inv_owner : ∀ q, is_Some (impls s !! q) → ∃ v, vars s !! v = Some (Some q);
  inv_next_impl : ∀ q, is_Some (impls s !! q) → (q < next_impl s)%nat;
  inv_next_id : 0 ≤ next_id s;
  inv_id_range : ∀ q id, impls s !! q = Some id → 0 ≤ id < next_id s;
  inv_id_inj : ∀ q1 q2 id, impls s !! q1 = Some id → impls s !! q2 = Some id → q1 = q2;
  inv_registered : ∀ id, registered id s = if decide (0 ≤ id < next_id s) then 1%nat else 0%nat;
  inv_held : ∀ q id, impls s !! q = Some id → unregistered id s = 0%nat;
  inv_released : ∀ id,
    0 ≤ id < next_id s → (∀ q, impls s !! q ≠ Some id) → unregistered id s = 1%nat;
  inv_unknown : ∀ id, ¬ (0 ≤ id < next_id s) → unregistered id s = 0%nat
}.

End Var.

(** ** Examples *)

(** A memory for examples: the cell at address [a] holds the byte [a mod 256]. *)
Definition ramp : memory :=
  λ a, default Byte.x00 (Byte.of_N (Z.to_N (a `mod` 256))).

(** Rank [pid] of two, after registering the four bytes at address 100:
    they have id 0. *)
Definition example_rank (pid : Z) : process :=
  with_wp (set_locations [(100, 0)] 1) (start pid 2 ramp).

(** Rank 0 after asking rank 1 for the four bytes behind id 0, to be stored
    at address 600. *)
Definition example_requester : process :=
  match internal_get_ 1 100 600 4 0 1 (example_rank 0) with
  | Done p => p
  | Fault _ => example_rank 0
  end.

(** The same rank when a response arrives that names address 700, which no
    get of this rank has named. *)
Definition example_stray_response : process :=
  with_net (set_in_response
              [(1, ({| rh_target := 700; rh_data_size := 1 |}, [Byte.xff]))])
           example_requester.

(** Two ranks, each with the four bytes at address 100 registered as id 0. *)
Definition example_world : world := [example_rank 0; example_rank 1].

(** The same world in the middle of a superstep: rank 0 has asked rank 1
    for the four bytes behind id 0, to be stored at its address 600, and has
    put the two bytes at its address 500 into the bytes 1 and 2 behind id 0
    at rank 1. *)
Definition example_superstep : world :=
  after_put 0 1 ({| ph_var_id := 0; ph_data_offset := 1 |}, [ramp 500; ramp 501])
    (after_get 0 1 {| gh_var_id := 0; gh_data_offset := 0; gh_count := 1;
                      gh_size := 4; gh_target := 600 |}
       example_world).

(** ** Sequences of registry operations *)

(** Both key sides of a bimap are sets. *)
Definition bimap_wf (b : bimap) : Prop := NoDup (b.*1) ∧ NoDup (b.*2).

Inductive registry_op : Set :=
| Register (location size : Z)
| Unregister (location : Z).

Definition registry_step (o : registry_op) (p : process) : outcome process :=
  match o with
  | Register location size => snd <$> register_location_ location size p
  | Unregister location => Done (unregister_location_ location p)
  end.

Fixpoint registry_run (os : list registry_op) (p : process) : outcome process :=
  match os with
  | [] => Done p
  | o :: os' => p' ← registry_step o p; registry_run os' p'
  end.

(** The number of calls of [register_location_] among [os]. *)
Fixpoint registrations (os : list registry_op) : Z :=
  match os with
  | [] => 0
  | Register _ _ :: os' => 1 + registrations os'
  | Unregister _ :: os' => registrations os'
  end.

(** ** Where the model follows the code

    The model adds addresses as integers, copies a range by reading it
    first and storing it then, and hands a frame of any length to MPI.  The
    code adds pointers modulo [2 ^ 64], calls [memcpy], which C defines on
    ranges that do not overlap only, and gives MPI the length of a frame as
    an [int].  The two agree on the calls and frames singled out here:
    ranges that lie in the address space, copies between disjoint ranges,
    frames that an [int] can count.  Statements about addresses or about
    the delivery of frames are made under these conditions. *)

Definition INT_MAX : Z := 2 ^ 31 - 1.

(** [sizeof(put_header)] and [sizeof(get_response_header)], lines 24-27 and
    37-40, with the 8-byte [size_t] and pointers of the model. *)
Definition sizeof_put_header : Z := 16.
Definition sizeof_get_response_header : Z := 16.

(** The [n] bytes from [addr] on lie in the address space. *)
Definition in_address_space (addr n : Z) : Prop :=
  0 ≤ addr ∧ 0 ≤ n ∧ addr + n ≤ 2 ^ 64.

(** The [n] bytes from [a] on and the [n] bytes from [b] on do not overlap. *)
Definition disjoint_ranges (a b n : Z) : Prop := a + n ≤ b ∨ b + n ≤ a.

(** A put frame that MPI can carry (lines 76-81 and 201), and whose
    store (lines 87-89) stays in the address space at a rank with the
    registry [b]. *)
Definition put_in_bounds (b : bimap) (msg : Z * (put_header * list byte)) : Prop :=
  sizeof_put_header + Z.of_nat (length msg.2.2) ≤ INT_MAX
  ∧ 0 ≤ ph_data_offset msg.2.1
  ∧ ∀ base, right_find b (ph_var_id msg.2.1) = Some base →
            0 ≤ base
            ∧ in_address_space (base + ph_data_offset msg.2.1) (Z.of_nat (length msg.2.2)).

(** A get frame whose answer MPI can carry (lines 114-131), read from the
    address space at a rank with the registry [b] (line 127) and stored in
    the address space of the requester (line 162). *)
Definition get_in_bounds (b : bimap) (g : Z * get_header) : Prop :=
  sizeof_get_response_header + size_t (gh_size g.2 * gh_count g.2) ≤ INT_MAX
  ∧ 0 ≤ gh_data_offset g.2
  ∧ in_address_space (gh_target g.2) (size_t (gh_size g.2 * gh_count g.2))
  ∧ ∀ base, right_find b (gh_var_id g.2) = Some base →
            0 ≤ base
            ∧ in_address_space (base + gh_data_offset g.2)
                (size_t (gh_size g.2 * gh_count g.2)).

(** Every frame that waits in a mailbox is in bounds. *)
Definition world_in_bounds (w : world) : Prop :=
  ∀ k p, w !! k = Some p →
         Forall (put_in_bounds (locations_ (wp p))) (in_put (net p))
         ∧ Forall (get_in_bounds (locations_ (wp p))) (in_get (net p)).

(** ** What [sync] leaves alone *)

(** The fields of the engine that are not superstep counters, and the
    sizes of the two counter vectors. *)
Definition standing (p : process) : Z * Z * Z * bimap * nat * nat :=
  (pid_ (wp p), nprocs_ (wp p), vars_ (wp p), locations_ (wp p),
   length (put_counts_ (wp p)), length (get_counts_ (wp p))).

(** ** The worlds a program can reach *)

(** The calls a program makes on the engine of its rank between two
    [sync]s. *)
Inductive engine_op : Type :=
| Op_register (location size : Z)
| Op_put (processor value variable size offset count : Z)
| Op_get (processor variable target size offset count : Z)
| Op_send (processor : Z) (tag content : list byte) (tag_size content_size : Z).

Definition run_op (o : engine_op) (p : process) : outcome process :=
  match o with
  | Op_register location size => snd <$> register_location_ location size p
  | Op_put processor value variable size offset count =>
      internal_put_ processor value variable size offset count p
  | Op_get processor variable target size offset count =>
      internal_get_ processor variable target size offset count p
  | Op_send processor tag content tag_size content_size =>
      Done (internal_send_ processor tag content tag_size content_size p)
  end.

(** What the engine cannot check and leaves to the program: the id under
    which the sender has registered the location of a remote put or get is
    an id of the receiver's registry. *)
Definition names_a_remote_location (w : world) (s : nat) (o : engine_op) : Prop :=
  match o with
  | Op_put processor _ variable _ _ _ | Op_get processor variable _ _ _ _ =>
      ∀ ps pd id,
        w !! s = Some ps → processor ≠ pid_ (wp ps) →
        w !! Z.to_nat processor = Some pd →
        left_find (locations_ (wp ps)) variable = Some id →
        is_Some (right_find (locations_ (wp pd)) id)
  | _ => True
  end.

(** What the engine cannot check either and leaves to the program: the
    ranges a call names lie in the address space, a copy within the rank
    is between ranges that do not overlap, and the frame of a remote put,
    like the answer to a remote get, is one that MPI can carry. *)
Definition call_in_bounds (w : world) (s : nat) (o : engine_op) : Prop :=
  match o with
  | Op_put processor value variable size offset count =>
      ∀ ps, w !! s = Some ps →
        if decide (processor = pid_ (wp ps)) then
          0 ≤ variable
          ∧ in_address_space (variable + size_t (size * offset)) (size_t (count * size))
          ∧ in_address_space value (size_t (count * size))
          ∧ disjoint_ranges (variable + size_t (size * offset)) value
              (size_t (count * size))
        else
          sizeof_put_header + size_t (size * count) ≤ INT_MAX
          ∧ in_address_space value (size_t (size * count))
          ∧ ∀ pd id base,
              w !! Z.to_nat processor = Some pd →
              left_find (locations_ (wp ps)) variable = Some id →
              right_find (locations_ (wp pd)) id = Some base →
              0 ≤ base
              ∧ in_address_space (base + size_t (offset * size)) (size_t (size * count))
  | Op_get processor variable target size offset count =>
      ∀ ps, w !! s = Some ps →
        if decide (processor = pid_ (wp ps)) then
          0 ≤ variable
          ∧ in_address_space (variable + size_t (size * offset)) (size_t (count * size))
          ∧ in_address_space target (size_t (count * size))
          ∧ disjoint_ranges target (variable + size_t (size * offset))
              (size_t (count * size))
        else
          sizeof_get_response_header + size_t (size * count) ≤ INT_MAX
          ∧ in_address_space target (size_t (size * count))
          ∧ ∀ pd id base,
              w !! Z.to_nat processor = Some pd →
              left_find (locations_ (wp ps)) variable = Some id →
              right_find (locations_ (wp pd)) id = Some base →
              0 ≤ base
              ∧ in_address_space (base + size_t (offset * size)) (size_t (size * count))
  | _ => True
  end.

(** From the constructors on, by calls that return and by [sync]s that
    return. *)
Inductive reachable_world : world → Prop :=
| reach_start (n : nat) (m : memory) : reachable_world (start_world n m)
| reach_op (w w' : world) (s : nat) (o : engine_op) :
    reachable_world w →
    names_a_remote_location w s o →
    call_in_bounds w s o →
    at_rank s (run_op o) w = Done w' →
    reachable_world w'
| reach_sync (w w' : world) :
    reachable_world w → sync_all w = Done w' → reachable_world w'.

(** ** Reading the responses *)

(** The bytes one response stores. *)
Definition response_covers (r : Z * (get_response_header * list byte)) (a : Z) : Prop :=
  rh_target r.2.1 ≤ a
  < rh_target r.2.1 + Z.of_nat (length (take (Z.to_nat (rh_data_size r.2.1)) r.2.2)).

(** ** Registering a list of locations *)

(** [register_location_] called on each of [regs], pairs of a location and
    a size, in order. *)
Definition register_all (regs : list (Z * Z)) : list registry_op :=
  (λ r, Register r.1 r.2) <$> regs.

(** * Properties *)

(** ** Memory *)

Lemma length_read_bytes m addr n :
  length (read_bytes m addr n) = Z.to_nat n.
Proof. unfold read_bytes. by rewrite length_fmap, length_seqZ. Qed.

Lemma lookup_read_bytes m addr n i :
  0 ≤ i < n → read_bytes m addr n !! Z.to_nat i = Some (m (addr + i)).
Proof.
  intros Hi. unfold read_bytes. rewrite list_lookup_fmap.
  rewrite (lookup_seqZ_lt addr n (Z.to_nat i)) by lia.
  simpl. do 2 f_equal. lia.
Qed.

Lemma write_bytes_inside m addr bs a :
  addr ≤ a < addr + Z.of_nat (length bs) →
  bs !! Z.to_nat (a - addr) = Some (write_bytes m addr bs a).
Proof.
  intros Ha. unfold write_bytes. rewrite decide_True by done.
  destruct (lookup_lt_is_Some_2 bs (Z.to_nat (a - addr))) as [x ->]; [lia|done].
Qed.

Lemma write_bytes_outside m addr bs a :
  ¬ (addr ≤ a < addr + Z.of_nat (length bs)) → write_bytes m addr bs a = m a.
Proof. intros Ha. unfold write_bytes. by rewrite decide_False. Qed.

(** Writing the bytes read from another memory. *)
Lemma write_read_bytes m m' dst src n a :
  0 ≤ n →
  write_bytes m dst (read_bytes m' src n) a
  = if decide (dst ≤ a < dst + n) then m' (src + (a - dst)) else m a.
Proof.
  intros Hn. case_decide as Ha.
  - assert (read_bytes m' src n !! Z.to_nat (a - dst)
            = Some (write_bytes m dst (read_bytes m' src n) a)) as Hw.
    { apply write_bytes_inside. rewrite length_read_bytes. lia. }
    rewrite lookup_read_bytes in Hw by lia. congruence.
  - apply write_bytes_outside. rewrite length_read_bytes. lia.
Qed.

(** [memcpy] moves exactly [n] bytes and leaves the rest of memory alone. *)
Lemma memcpy_spec dst src n m a :
  0 ≤ n →
  memcpy dst src n m a = if decide (dst ≤ a < dst + n) then m (src + (a - dst)) else m a.
Proof. intros Hn. by apply write_read_bytes. Qed.

Lemma size_t_small z : 0 ≤ z < 2 ^ 64 → size_t z = z.
Proof. intros Hz. unfold size_t. by apply Z.mod_small. Qed.

Lemma size_t_nonneg z : 0 ≤ size_t z.
Proof. unfold size_t. apply Z.mod_pos_bound. lia. Qed.

(** ** The registry *)

Lemma left_find_app b1 b2 l :
  left_find (b1 ++ b2) l
  = match left_find b1 l with Some i => Some i | None => left_find b2 l end.
Proof.
  induction b1 as [|[l' i'] b1 IH]; simpl; [done|].
  case_decide; [done|apply IH].
Qed.

Lemma right_find_app b1 b2 i :
  right_find (b1 ++ b2) i
  = match right_find b1 i with Some l => Some l | None => right_find b2 i end.
Proof.
  induction b1 as [|[l' i'] b1 IH]; simpl; [done|].
  case_decide; [done|apply IH].
Qed.

Lemma right_find_below b v i :
  Forall (λ e : Z * Z, e.2 < v) b → v ≤ i → right_find b i = None.
Proof.
  induction 1 as [|[l' i'] b Hx _ IH]; intros Hi; simpl in *; [done|].
  rewrite decide_False by lia. by apply IH.
Qed.

Lemma bimap_insert_fresh b l i :
  left_find b l = None → right_find b i = None →
  left_find (bimap_insert l i b) l = Some i
  ∧ right_find (bimap_insert l i b) i = Some l
  ∧ (∀ l', l' ≠ l → left_find (bimap_insert l i b) l' = left_find b l')
  ∧ (∀ i', i' ≠ i → right_find (bimap_insert l i b) i' = right_find b i').
Proof.
  intros Hl Hi. unfold bimap_insert. rewrite Hl, Hi.
  repeat split.
  - rewrite left_find_app, Hl. simpl. by rewrite decide_True.
  - rewrite right_find_app, Hi. simpl. by rewrite decide_True.
  - intros l' Hne. rewrite left_find_app. destruct (left_find b l'); [done|].
    simpl. by rewrite decide_False.
  - intros i' Hne. rewrite right_find_app. destruct (right_find b i'); [done|].
    simpl. by rewrite decide_False.
Qed.

Lemma bimap_insert_taken b l i :
  is_Some (left_find b l) → bimap_insert l i b = b.
Proof. intros [j Hj]. unfold bimap_insert. by rewrite Hj. Qed.

Lemma bimap_insert_below b l i v :
  Forall (λ e : Z * Z, e.2 < v) b → i < v →
  Forall (λ e : Z * Z, e.2 < v) (bimap_insert l i b).
Proof.
  intros Hb Hi. unfold bimap_insert.
  destruct (left_find b l), (right_find b i); try done.
  apply Forall_app. split; [done|]. by apply Forall_singleton.
Qed.

(** ** Operations addressed to the rank itself *)

(** C9. A put or a get whose destination is the calling rank is one
    [memcpy] of [size * count] bytes between the caller's buffer and
    [variable + size * offset], done before the call returns: the new memory
    is there at once, no frame leaves the rank, and no field of the engine
    (so no counter) changes. *)
Theorem self_put_get_copy_at_once (p : process) (buffer variable size offset count : Z) :
  0 ≤ size * offset < 2 ^ 64 →
  0 ≤ count * size < 2 ^ 64 →
  (∃ p', internal_put_ (pid_ (wp p)) buffer variable size offset count p = Done p'
         ∧ wp p' = wp p ∧ net p' = net p ∧ log p' = log p
         ∧ ∀ a, heap p' a
                = if decide (variable + size * offset ≤ a
                             < variable + size * offset + size * count)
                  then heap p (buffer + (a - (variable + size * offset)))
                  else heap p a)
  ∧ (∃ p', internal_get_ (pid_ (wp p)) variable buffer size offset count p = Done p'
           ∧ wp p' = wp p ∧ net p' = net p ∧ log p' = log p
           ∧ ∀ a, heap p' a
                  = if decide (buffer ≤ a < buffer + size * count)
                    then heap p (variable + size * offset + (a - buffer))
                    else heap p a).
Proof.
  intros Hoff Hlen. split.
  - unfold internal_put_. rewrite decide_True by done.
    eexists. split; [done|]. repeat split. intros a. simpl.
    rewrite !size_t_small by done. rewrite memcpy_spec by lia.
    replace (count * size) with (size * count) by lia. done.
  - unfold internal_get_. rewrite decide_True by done.
    eexists. split; [done|]. repeat split. intros a. simpl.
    rewrite !size_t_small by done. rewrite memcpy_spec by lia.
    replace (count * size) with (size * count) by lia. done.
Qed.

Lemma self_put_get_copy_at_once_witness :
  (0 ≤ 4 * 2 < 2 ^ 64) ∧ (0 ≤ 3 * 4 < 2 ^ 64)
  ∧ ∃ p', internal_put_ 1 500 100 4 2 3 (start 1 4 ramp) = Done p'
          ∧ wp p' = construct 1 4 ∧ net p' = idle ∧ log p' = []
          ∧ heap p' 108 = ramp 500 ∧ heap p' 119 = ramp 511
          ∧ heap p' 120 = ramp 120.
Proof.
  split; [lia|]. split; [lia|].
  destruct (self_put_get_copy_at_once (start 1 4 ramp) 500 100 4 2 3)
    as [(p' & Hp & Hw & Hn & Hl & Hh) _]; [lia|lia|].
  exists p'. split; [exact Hp|]. split; [exact Hw|]. split; [exact Hn|].
  split; [exact Hl|]. rewrite !Hh. by repeat split.
Defined.

(** ** Registration *)

Lemma left_find_elem_of (b : bimap) (l i : Z) : left_find b l = Some i → (l, i) ∈ b.
Proof.
  induction b as [|[l' i'] b IH]; simpl; [done|].
  case_decide as Hl.
  - intros [= ->]. subst l'. by left.
  - intros Hin. right. by apply IH.
Qed.

(** C7. [register_location_] hands out the next id, the old value of
    [vars_], and advances [vars_].  With a location that is not registered
    the pair (location, id) is inserted and resolves in both directions,
    all other entries staying as they were.  With a location that is
    registered already the registration fails, silently: the call comes
    back, but not with a fresh usable id.  The registry stays as it was, the
    location keeps the id it had, which is not the one that came back, and
    the id that came back names nothing: no location resolves to it, and
    resolving it throws. *)
Theorem register_location_next_id (p : process) (location size : Z) :
  ids_below_vars (wp p) →
  ∃ p', register_location_ location size p = Done (vars_ (wp p), p')
        ∧ vars_ (wp p') = vars_ (wp p) + 1
        ∧ ids_below_vars (wp p')
        ∧ heap p' = heap p ∧ net p' = net p ∧ log p' = log p
        ∧ (left_find (locations_ (wp p)) location = None →
             left_at (locations_ (wp p')) location = Done (vars_ (wp p))
             ∧ right_at (locations_ (wp p')) (vars_ (wp p)) = Done location
             ∧ (∀ l, l ≠ location →
                     left_find (locations_ (wp p')) l = left_find (locations_ (wp p)) l)
             ∧ (∀ i, i ≠ vars_ (wp p) →
                     right_find (locations_ (wp p')) i = right_find (locations_ (wp p)) i))
        ∧ (∀ id, left_find (locations_ (wp p)) location = Some id →
             locations_ (wp p') = locations_ (wp p)
             ∧ left_at (locations_ (wp p')) location = Done id
             ∧ id ≠ vars_ (wp p)
             ∧ (∀ l, left_at (locations_ (wp p')) l ≠ Done (vars_ (wp p)))
             ∧ right_at (locations_ (wp p')) (vars_ (wp p)) = Fault Out_of_range).
Proof.
  intros Hids. unfold ids_below_vars in *.
  eexists. split; [reflexivity|]. simpl.
  split; [done|]. split.
  { apply bimap_insert_below; [|lia].
    eapply Forall_impl; [exact Hids|]. simpl. intros; lia. }
  do 3 (split; [done|]).
  assert (right_find (locations_ (wp p)) (vars_ (wp p)) = None) as Hfresh.
  { by eapply right_find_below. }
  assert (∀ l i, left_find (locations_ (wp p)) l = Some i → i < vars_ (wp p)) as Hbelow.
  { intros l i Hl%left_find_elem_of. rewrite Forall_forall in Hids.
    by apply (Hids (l, i)). }
  split.
  - intros Hl.
    destruct (bimap_insert_fresh _ _ _ Hl Hfresh) as (H1 & H2 & H3 & H4).
    unfold left_at, right_at. rewrite H1, H2. done.
  - intros id Hl. rewrite bimap_insert_taken by done.
    split; [done|]. split; [unfold left_at; by rewrite Hl|].
    split; [pose proof (Hbelow _ _ Hl); lia|].
    split; [|unfold right_at; by rewrite Hfresh].
    intros l. unfold left_at.
    destruct (left_find (locations_ (wp p)) l) as [i|] eqn:Hi; simpl; [|done].
    intros [= ->]. pose proof (Hbelow _ _ Hi). lia.
Qed.

Lemma register_location_next_id_witness :
  ids_below_vars (wp (example_rank 0))
  ∧ (∃ p', register_location_ 200 4 (example_rank 0) = Done (1, p')
           ∧ left_at (locations_ (wp p')) 200 = Done 1
           ∧ right_at (locations_ (wp p')) 1 = Done 200
           ∧ left_at (locations_ (wp p')) 100 = Done 0)
  ∧ ∃ p', register_location_ 100 4 (example_rank 0) = Done (1, p')
          ∧ locations_ (wp p') = [(100, 0)]
          ∧ left_at (locations_ (wp p')) 100 = Done 0
          ∧ right_at (locations_ (wp p')) 1 = Fault Out_of_range.
Proof.
  assert (ids_below_vars (wp (example_rank 0))) as Hids.
  { apply Forall_singleton. simpl. lia. }
  split; [exact Hids|]. split.
  - destruct (register_location_next_id (example_rank 0) 200 4 Hids)
      as (p' & Hp & _ & _ & _ & _ & _ & Hnew & _).
    exists p'. split; [exact Hp|].
    destruct Hnew as (H1 & H2 & H3 & _); [reflexivity|].
    split; [exact H1|]. split; [exact H2|].
    unfold left_at. rewrite H3 by lia. reflexivity.
  - destruct (register_location_next_id (example_rank 0) 100 4 Hids)
      as (p' & Hp & _ & _ & _ & _ & _ & _ & Hold).
    exists p'. split; [exact Hp|].
    destruct (Hold 0 eq_refl) as (H1 & H2 & _ & _ & H3). by repeat split.
Defined.

(** ** Queue messages *)

(** With nothing in transit the network delivers nothing. *)
Lemma transmit_quiet (w : world) :
  (∀ k q, w !! k = Some q → outbox (net q) = []) → transmit w = w.
Proof.
  intros Hquiet. apply list_eq. intros i. unfold transmit.
  rewrite list_lookup_imap.
  assert (in_transit w = []) as ->.
  { unfold in_transit. apply join_nil_2, Forall_lookup. intros k l.
    rewrite list_lookup_imap.
    destruct (w !! k) as [q|] eqn:Hq; simpl; [|done].
    intros [= <-]. by rewrite (Hquiet k q Hq). }
  destruct (w !! i) as [p|] eqn:Hp; simpl; [|done].
  pose proof (Hquiet i p Hp) as Hout.
  destruct p as [? ? [] ?]. simpl in *. by subst.
Qed.

(** C8, as the code has it. [internal_send_] has an empty body: for every
    destination, tag and content the rank is left exactly as it was, so no
    frame is logged or put in transit and no counter moves; and the world
    after the call is the world before it, so no rank finds anything more
    in a mailbox, in this superstep or in the next. *)
Theorem internal_send_is_empty (w : world) (s : nat) (processor : Z)
    (tag content : list byte) (tag_size content_size : Z) :
  (∀ k q, w !! k = Some q → outbox (net q) = []) →
  is_Some (w !! s) →
  (∀ p, internal_send_ processor tag content tag_size content_size p = p)
  ∧ at_rank s (λ p, Done (internal_send_ processor tag content tag_size content_size p)) w
    = Done w.
Proof.
  intros Hquiet [ps Hs]. split; [done|].
  unfold at_rank, internal_send_. rewrite Hs. simpl.
  rewrite list_insert_id by done. by rewrite transmit_quiet.
Qed.

Lemma internal_send_is_empty_witness :
  (∀ k q, example_world !! k = Some q → outbox (net q) = [])
  ∧ is_Some (example_world !! 0%nat)
  ∧ internal_send_ 1 [Byte.x01] [Byte.x02] 1 1 (example_rank 0) = example_rank 0
  ∧ at_rank 0 (λ p, Done (internal_send_ 1 [Byte.x01] [Byte.x02] 1 1 p)) example_world
    = Done example_world.
Proof.
  assert (∀ k q, example_world !! k = Some q → outbox (net q) = []) as Hquiet.
  { intros [|[|k]] q Hq; by simplify_eq/=. }
  assert (is_Some (example_world !! 0%nat)) as Hs by (by eexists).
  split; [exact Hquiet|]. split; [exact Hs|].
  destruct (internal_send_is_empty example_world 0 1 [Byte.x01] [Byte.x02] 1 1 Hquiet Hs)
    as [Hrank Hworld].
  split; [apply Hrank|exact Hworld].
Defined.

(** C8, counterexample. After rank 0 sends tag 01 and content 02 to rank 1,
    its log has no [Send] at all, with the [message] tag or any other. *)
Lemma internal_send_sends_nothing :
  ¬ ∃ dst tag f,
      Send dst tag f
      ∈ log (internal_send_ 1 [Byte.x01] [Byte.x02] 1 1 (example_rank 0)).
Proof. intros (dst & tag & f & Hin). simpl in Hin. by apply not_elem_of_nil in Hin. Qed.

(** ** Remote puts: the frame and its delivery *)

Lemma lookup_increment (v : list Z) (i : Z) (j : nat) :
  increment i v !! j = if decide (j = Z.to_nat i) then Z.succ <$> v !! j else v !! j.
Proof.
  unfold increment. rewrite list_lookup_alter.
  repeat case_decide; by simplify_eq.
Qed.

Lemma length_increment (v : list Z) (i : Z) : length (increment i v) = length v.
Proof. apply length_alter. Qed.

(** What [internal_put_] does for another rank. *)
Lemma internal_put_remote (p : process) (processor value variable size offset count id : Z) :
  processor ≠ pid_ (wp p) →
  0 ≤ processor < nprocs_ (wp p) →
  left_find (locations_ (wp p)) variable = Some id →
  let f := Put_frame {| ph_var_id := id; ph_data_offset := size_t (offset * size) |}
             (read_bytes (heap p) value (size_t (size * count))) in
  internal_put_ processor value variable size offset count p
  = Done {| wp := set_put_counts (increment processor (put_counts_ (wp p))) (wp p);
            heap := heap p;
            net := set_outbox (outbox (net p) ++ [(processor, f)]) (net p);
            log := log p ++ [Send processor var_put f] |}.
Proof.
  intros Hne Hrank Hid f. unfold internal_put_, left_at, MPI_Send.
  rewrite decide_False by done. rewrite Hid. simpl.
  rewrite decide_True by done. done.
Qed.

(** What one round of the put loop does. *)
Lemma receive_put_head (q : process) src header payload rest base :
  in_put (net q) = (src, (header, payload)) :: rest →
  right_find (locations_ (wp q)) (ph_var_id header) = Some base →
  receive_put q
  = Done {| wp := set_remote_puts (remote_puts_ (wp q) - 1) (wp q);
            heap := write_bytes (heap q) (base + ph_data_offset header) payload;
            net := set_in_put rest (net q);
            log := log q ++ [Recv var_put src (Put_frame header payload)] |}.
Proof.
  intros Hin Hid. unfold receive_put, right_at. rewrite Hin. simpl.
  rewrite Hid. done.
Qed.

(** C3. A put for another rank, on a registered location, of bytes that
    lie in the address space and that, with the header, an [int] can count:
    the sender logs and hands to MPI one frame with the [var_put] tag,
    carrying the id the location resolves to, the byte offset
    [size * offset] and the [size * count] bytes found at [value]; it adds
    one to [put_counts_[processor]] and to nothing else, and its memory is
    untouched.  A receiver that finds this frame at the head of its put
    mailbox, and whose registry resolves the id to a [base] with
    [base + size * offset + size * count] in the address space, stores the
    payload at [base + size * offset] and changes no other byte. *)
Theorem remote_put_frame_and_store (p : process)
    (processor value variable size offset count id c : Z) :
  processor ≠ pid_ (wp p) →
  0 ≤ processor < nprocs_ (wp p) →
  left_find (locations_ (wp p)) variable = Some id →
  put_counts_ (wp p) !! Z.to_nat processor = Some c →
  0 ≤ size * offset < 2 ^ 64 →
  0 ≤ size * count →
  sizeof_put_header + size * count ≤ INT_MAX →
  in_address_space value (size * count) →
  ∃ p' payload,
    let f := Put_frame {| ph_var_id := id; ph_data_offset := size * offset |} payload in
    internal_put_ processor value variable size offset count p = Done p'
    ∧ Z.of_nat (length payload) = size * count
    ∧ (∀ k, 0 ≤ k < size * count → payload !! Z.to_nat k = Some (heap p (value + k)))
    ∧ log p' = log p ++ [Send processor var_put f]
    ∧ outbox (net p') = outbox (net p) ++ [(processor, f)]
    ∧ put_counts_ (wp p') !! Z.to_nat processor = Some (c + 1)
    ∧ (∀ j, j ≠ Z.to_nat processor → put_counts_ (wp p') !! j = put_counts_ (wp p) !! j)
    ∧ get_counts_ (wp p') = get_counts_ (wp p)
    ∧ local_gets_ (wp p') = local_gets_ (wp p)
    ∧ heap p' = heap p
    ∧ ∀ (q : process) src rest base,
        in_put (net q) = (src, ({| ph_var_id := id; ph_data_offset := size * offset |},
                                payload)) :: rest →
        right_find (locations_ (wp q)) id = Some base →
        0 ≤ base →
        in_address_space (base + size * offset) (size * count) →
        ∃ q', receive_put q = Done q'
              ∧ in_put (net q') = rest
              ∧ remote_puts_ (wp q') = remote_puts_ (wp q) - 1
              ∧ log q' = log q ++ [Recv var_put src f]
              ∧ ∀ a, heap q' a
                     = if decide (base + size * offset ≤ a
                                  < base + size * offset + size * count)
                       then heap p (value + (a - (base + size * offset)))
                       else heap q a.
Proof.
  intros Hne Hrank Hid Hc Hoff Hpos Hint Hvalue.
  assert (0 ≤ size * count < 2 ^ 64) as Hlen.
  { unfold sizeof_put_header, INT_MAX in Hint. lia. }
  rewrite (internal_put_remote p processor value variable size offset count id) by done.
  replace (offset * size) with (size * offset) by lia.
  rewrite !size_t_small by done.
  eexists _, (read_bytes (heap p) value (size * count)).
  split; [reflexivity|]. simpl.
  split. { rewrite length_read_bytes. lia. }
  split. { intros k Hk. by apply lookup_read_bytes. }
  do 2 (split; [done|]).
  split. { rewrite lookup_increment, decide_True by done. by rewrite Hc. }
  split. { intros j Hj. by rewrite lookup_increment, decide_False. }
  do 3 (split; [done|]).
  intros q src rest base Hin Hbase _ _.
  rewrite (receive_put_head q _ _ _ _ base Hin) by done.
  eexists. split; [reflexivity|]. simpl. repeat split.
  intros a. apply write_read_bytes. lia.
Qed.

Lemma remote_put_frame_and_store_witness :
  1 ≠ pid_ (wp (example_rank 0))
  ∧ 0 ≤ 1 < nprocs_ (wp (example_rank 0))
  ∧ left_find (locations_ (wp (example_rank 0))) 100 = Some 0
  ∧ put_counts_ (wp (example_rank 0)) !! Z.to_nat 1 = Some 0
  ∧ 0 ≤ 4 * 0 < 2 ^ 64
  ∧ 0 ≤ 4 * 1
  ∧ sizeof_put_header + 4 * 1 ≤ INT_MAX
  ∧ in_address_space 500 (4 * 1)
  ∧ ∃ p' payload,
      internal_put_ 1 500 100 4 0 1 (example_rank 0) = Done p'
      ∧ Z.of_nat (length payload) = 4 * 1
      ∧ log p' = [Send 1 var_put
                    (Put_frame {| ph_var_id := 0; ph_data_offset := 4 * 0 |} payload)]
      ∧ put_counts_ (wp p') !! Z.to_nat 1 = Some (0 + 1)
      ∧ ∃ q', receive_put
                (with_net (set_in_put
                   [(0, ({| ph_var_id := 0; ph_data_offset := 4 * 0 |}, payload))])
                   (example_rank 1)) = Done q'
              ∧ heap q' 103 = ramp 503 ∧ heap q' 104 = ramp 104.
Proof.
  assert (1 ≠ pid_ (wp (example_rank 0))) as H1 by (simpl; lia).
  assert (0 ≤ 1 < nprocs_ (wp (example_rank 0))) as H2 by (simpl; lia).
  assert (left_find (locations_ (wp (example_rank 0))) 100 = Some 0) as H3 by reflexivity.
  assert (put_counts_ (wp (example_rank 0)) !! Z.to_nat 1 = Some 0) as H4 by reflexivity.
  assert (0 ≤ 4 * 0 < 2 ^ 64) as H5 by lia.
  assert (0 ≤ 4 * 1) as H6 by lia.
  assert (sizeof_put_header + 4 * 1 ≤ INT_MAX) as H7.
  { unfold sizeof_put_header, INT_MAX. lia. }
  assert (in_address_space 500 (4 * 1)) as H8 by (unfold in_address_space; lia).
  do 8 (split; [assumption|]).
  destruct (remote_put_frame_and_store (example_rank 0) 1 500 100 4 0 1 0 0
              H1 H2 H3 H4 H5 H6 H7 H8)
    as (p' & payload & Hp & Hlen & _ & Hlog & _ & Hc & _ & _ & _ & _ & Hrecv).
  exists p', payload. do 4 (split; [assumption|]).
  destruct (Hrecv (with_net (set_in_put
              [(0, ({| ph_var_id := 0; ph_data_offset := 4 * 0 |}, payload))])
              (example_rank 1)) 0 [] 100) as (q' & Hq & _ & _ & _ & Hheap);
    [reflexivity|reflexivity|lia|unfold in_address_space; lia|].
  exists q'. split; [exact Hq|]. rewrite !Hheap. by split.
Defined.

(** ** Remote gets: request, answer, delivery *)

Lemma internal_get_remote (p : process) (processor variable target size offset count id : Z) :
  processor ≠ pid_ (wp p) →
  0 ≤ processor < nprocs_ (wp p) →
  left_find (locations_ (wp p)) variable = Some id →
  let f := Get_frame {| gh_var_id := id; gh_data_offset := size_t (offset * size);
                        gh_count := count; gh_size := size; gh_target := target |} in
  internal_get_ processor variable target size offset count p
  = Done {| wp := set_local_gets (local_gets_ (wp p) + 1)
                    (set_get_counts (increment processor (get_counts_ (wp p))) (wp p));
            heap := heap p;
            net := set_outbox (outbox (net p) ++ [(processor, f)]) (net p);
            log := log p ++ [Send processor var_get f] |}.
Proof.
  intros Hne Hrank Hid f. unfold internal_get_, left_at, MPI_Send.
  rewrite decide_False by done. rewrite Hid. simpl.
  rewrite decide_True by done. done.
Qed.

Lemma serve_get_head (q : process) src header rest base :
  in_get (net q) = (src, header) :: rest →
  right_find (locations_ (wp q)) (gh_var_id header) = Some base →
  0 ≤ src < nprocs_ (wp q) →
  let f := Get_response_frame
             {| rh_target := gh_target header;
                rh_data_size := size_t (gh_size header * gh_count header) |}
             (read_bytes (heap q) (base + gh_data_offset header)
                (size_t (gh_size header * gh_count header))) in
  serve_get q
  = Done {| wp := set_remote_gets (remote_gets_ (wp q) - 1) (wp q);
            heap := heap q;
            net := set_outbox (outbox (net q) ++ [(src, f)]) (set_in_get rest (net q));
            log := log q ++ [Recv var_get src (Get_frame header);
                             Send src var_get_response f] |}.
Proof.
  intros Hin Hid Hsrc f. unfold serve_get, right_at, MPI_Send. rewrite Hin. simpl.
  rewrite Hid. simpl. rewrite decide_True by done.
  unfold with_wp, record, with_net. simpl. by rewrite <- app_assoc.
Qed.

Lemma receive_response_head (r : process) src header payload rest :
  in_response (net r) = (src, (header, payload)) :: rest →
  receive_response r
  = Done {| wp := set_local_gets (local_gets_ (wp r) - 1) (wp r);
            heap := write_bytes (heap r) (rh_target header)
                      (take (Z.to_nat (rh_data_size header)) payload);
            net := set_in_response rest (net r);
            log := log r ++ [Recv var_get_response src
                               (Get_response_frame header payload)] |}.
Proof. intros Hin. unfold receive_response. rewrite Hin. done. Qed.

(** C4, as the code has it. A get from another rank, on a registered
    location, of bytes that, with the header of the answer, an [int] can
    count, into a destination that lies in the address space: the
    requester logs and hands to MPI one frame with the [var_get] tag
    carrying the resolved id, the byte offset, the element size, the count,
    and as handle the destination address itself; it adds one to
    [get_counts_[processor]] and to [local_gets_].  It keeps no table: the
    engine's fields come out the same whatever the destination.  A
    responder whose registry resolves the id to a [base] with
    [base + size * offset + size * count] in the address space answers the
    sender with a [var_get_response] frame that repeats the handle and
    carries the [size * count] bytes at [base + size * offset] of its own
    memory; the requester stores exactly these bytes at the address the
    handle names, which is the caller's destination. *)
Theorem remote_get_request_answer_store (p : process)
    (processor variable target size offset count id c : Z) :
  processor ≠ pid_ (wp p) →
  0 ≤ processor < nprocs_ (wp p) →
  left_find (locations_ (wp p)) variable = Some id →
  get_counts_ (wp p) !! Z.to_nat processor = Some c →
  0 ≤ size * offset < 2 ^ 64 →
  0 ≤ size * count →
  sizeof_get_response_header + size * count ≤ INT_MAX →
  in_address_space target (size * count) →
  let h := {| gh_var_id := id; gh_data_offset := size * offset;
              gh_count := count; gh_size := size; gh_target := target |} in
  ∃ p',
    internal_get_ processor variable target size offset count p = Done p'
    ∧ log p' = log p ++ [Send processor var_get (Get_frame h)]
    ∧ outbox (net p') = outbox (net p) ++ [(processor, Get_frame h)]
    ∧ get_counts_ (wp p') !! Z.to_nat processor = Some (c + 1)
    ∧ (∀ j, j ≠ Z.to_nat processor → get_counts_ (wp p') !! j = get_counts_ (wp p) !! j)
    ∧ local_gets_ (wp p') = local_gets_ (wp p) + 1
    ∧ put_counts_ (wp p') = put_counts_ (wp p)
    ∧ heap p' = heap p
    ∧ (∀ target', ∃ p'',
         internal_get_ processor variable target' size offset count p = Done p''
         ∧ wp p'' = wp p' ∧ heap p'' = heap p')
    ∧ ∀ (q : process) src rest base,
        in_get (net q) = (src, h) :: rest →
        right_find (locations_ (wp q)) id = Some base →
        0 ≤ src < nprocs_ (wp q) →
        0 ≤ base →
        in_address_space (base + size * offset) (size * count) →
        ∃ q' payload,
          let answer := Get_response_frame
                          {| rh_target := target; rh_data_size := size * count |}
                          payload in
          serve_get q = Done q'
          ∧ Z.of_nat (length payload) = size * count
          ∧ (∀ k, 0 ≤ k < size * count →
                  payload !! Z.to_nat k = Some (heap q (base + size * offset + k)))
          ∧ log q' = log q ++ [Recv var_get src (Get_frame h);
                               Send src var_get_response answer]
          ∧ outbox (net q') = outbox (net q) ++ [(src, answer)]
          ∧ remote_gets_ (wp q') = remote_gets_ (wp q) - 1
          ∧ heap q' = heap q
          ∧ ∀ (r : process) src' rest',
              in_response (net r)
              = (src', ({| rh_target := target; rh_data_size := size * count |},
                        payload)) :: rest' →
              ∃ r', receive_response r = Done r'
                    ∧ local_gets_ (wp r') = local_gets_ (wp r) - 1
                    ∧ in_response (net r') = rest'
                    ∧ ∀ a, heap r' a
                           = if decide (target ≤ a < target + size * count)
                             then heap q (base + size * offset + (a - target))
                             else heap r a.
Proof.
  intros Hne Hrank Hid Hc Hoff Hpos Hint Htarget h.
  assert (0 ≤ size * count < 2 ^ 64) as Hlen.
  { unfold sizeof_get_response_header, INT_MAX in Hint. lia. }
  rewrite (internal_get_remote p processor variable target size offset count id) by done.
  replace (offset * size) with (size * offset) by lia.
  rewrite !size_t_small by done. fold h.
  eexists. split; [reflexivity|]. simpl.
  do 2 (split; [done|]).
  split. { rewrite lookup_increment, decide_True by done. by rewrite Hc. }
  split. { intros j Hj. by rewrite lookup_increment, decide_False. }
  do 3 (split; [done|]).
  split.
  { intros target'.
    rewrite (internal_get_remote p processor variable target' size offset count id) by done.
    eexists. split; [reflexivity|]. done. }
  intros q src rest base Hin Hbase Hsrc _ _.
  rewrite (serve_get_head q src h rest base) by done. simpl.
  rewrite !size_t_small by done.
  eexists _, (read_bytes (heap q) (base + size * offset) (size * count)).
  split; [reflexivity|]. simpl.
  split. { rewrite length_read_bytes. lia. }
  split. { intros k Hk. by apply lookup_read_bytes. }
  do 4 (split; [done|]).
  intros r src' rest' Hr.
  rewrite (receive_response_head r _ _ _ _ Hr). simpl.
  eexists. split; [reflexivity|]. simpl. do 2 (split; [done|]).
  intros a. rewrite take_ge by (rewrite length_read_bytes; lia).
  apply write_read_bytes. lia.
Qed.

Lemma remote_get_request_answer_store_witness :
  1 ≠ pid_ (wp (example_rank 0))
  ∧ 0 ≤ 1 < nprocs_ (wp (example_rank 0))
  ∧ left_find (locations_ (wp (example_rank 0))) 100 = Some 0
  ∧ get_counts_ (wp (example_rank 0)) !! Z.to_nat 1 = Some 0
  ∧ 0 ≤ 4 * 0 < 2 ^ 64
  ∧ 0 ≤ 4 * 1
  ∧ sizeof_get_response_header + 4 * 1 ≤ INT_MAX
  ∧ in_address_space 600 (4 * 1)
  ∧ ∃ p',
      internal_get_ 1 100 600 4 0 1 (example_rank 0) = Done p'
      ∧ log p' = [Send 1 var_get
                    (Get_frame {| gh_var_id := 0; gh_data_offset := 4 * 0;
                                  gh_count := 1; gh_size := 4; gh_target := 600 |})]
      ∧ get_counts_ (wp p') !! Z.to_nat 1 = Some (0 + 1)
      ∧ local_gets_ (wp p') = 0 + 1.
Proof.
  assert (1 ≠ pid_ (wp (example_rank 0))) as H1 by (simpl; lia).
  assert (0 ≤ 1 < nprocs_ (wp (example_rank 0))) as H2 by (simpl; lia).
  assert (left_find (locations_ (wp (example_rank 0))) 100 = Some 0) as H3 by reflexivity.
  assert (get_counts_ (wp (example_rank 0)) !! Z.to_nat 1 = Some 0) as H4 by reflexivity.
  assert (0 ≤ 4 * 0 < 2 ^ 64) as H5 by lia.
  assert (0 ≤ 4 * 1) as H6 by lia.
  assert (sizeof_get_response_header + 4 * 1 ≤ INT_MAX) as H7.
  { unfold sizeof_get_response_header, INT_MAX. lia. }
  assert (in_address_space 600 (4 * 1)) as H8 by (unfold in_address_space; lia).
  do 8 (split; [assumption|]).
  destruct (remote_get_request_answer_store (example_rank 0) 1 100 600 4 0 1 0 0
              H1 H2 H3 H4 H5 H6 H7 H8)
    as (p' & Hp & Hlog & _ & Hc & _ & Hl & _).
  exists p'. by repeat split.
Defined.

(** C4, counterexample. Two gets that differ in nothing but the destination
    (600 or 700) leave the same engine fields, the same memory and the same
    mailboxes: no entry that leads from a handle to its destination was
    made anywhere. *)
Lemma internal_get_keeps_no_table :
  ∃ p1 p2,
    internal_get_ 1 100 600 4 0 1 (example_rank 0) = Done p1
    ∧ internal_get_ 1 100 700 4 0 1 (example_rank 0) = Done p2
    ∧ wp p1 = wp p2
    ∧ heap p1 = heap p2
    ∧ in_response (net p1) = in_response (net p2)
    ∧ local_gets_ (wp p1) = 1.
Proof. eexists _, _. repeat split. Qed.

(** ** Responses *)

(** C6, as the code has it. One round of the response loop takes the frame
    at the head of the response mailbox and stores its payload at the
    address in the frame's header.  Nothing is looked up and nothing is
    removed: apart from [local_gets_], which goes down by one, the engine's
    fields stay as they were, and the round succeeds whatever address the
    header names. *)
Theorem get_response_stored_at_header_target (p : process) src header payload rest :
  in_response (net p) = (src, (header, payload)) :: rest →
  Z.of_nat (length payload) = rh_data_size header →
  ∃ p', receive_response p = Done p'
        ∧ in_response (net p') = rest
        ∧ local_gets_ (wp p') = local_gets_ (wp p) - 1
        ∧ put_counts_ (wp p') = put_counts_ (wp p)
        ∧ get_counts_ (wp p') = get_counts_ (wp p)
        ∧ remote_puts_ (wp p') = remote_puts_ (wp p)
        ∧ remote_gets_ (wp p') = remote_gets_ (wp p)
        ∧ locations_ (wp p') = locations_ (wp p)
        ∧ vars_ (wp p') = vars_ (wp p)
        ∧ log p' = log p ++ [Recv var_get_response src (Get_response_frame header payload)]
        ∧ ∀ a, if decide (rh_target header ≤ a < rh_target header + rh_data_size header)
               then payload !! Z.to_nat (a - rh_target header) = Some (heap p' a)
               else heap p' a = heap p a.
Proof.
  intros Hin Hlen. rewrite (receive_response_head p _ _ _ _ Hin).
  eexists. split; [reflexivity|]. simpl. do 9 (split; [done|]).
  intros a. rewrite take_ge by lia. case_decide as Ha.
  - apply write_bytes_inside. lia.
  - apply write_bytes_outside. lia.
Qed.

Lemma get_response_stored_at_header_target_witness :
  in_response (net example_stray_response)
  = [(1, ({| rh_target := 700; rh_data_size := 1 |}, [Byte.xff]))]
  ∧ Z.of_nat (length [Byte.xff])
    = rh_data_size {| rh_target := 700; rh_data_size := 1 |}
  ∧ ∃ p', receive_response example_stray_response = Done p'
          ∧ in_response (net p') = []
          ∧ local_gets_ (wp p') = 0
          ∧ heap p' 700 = Byte.xff
          ∧ heap p' 701 = ramp 701.
Proof.
  split; [reflexivity|]. split; [reflexivity|].
  destruct (get_response_stored_at_header_target example_stray_response 1
              {| rh_target := 700; rh_data_size := 1 |} [Byte.xff] [])
    as (p' & Hp & Hin & Hl & _ & _ & _ & _ & _ & _ & _ & Hheap);
    [reflexivity|reflexivity|].
  exists p'. split; [exact Hp|]. split; [exact Hin|]. split; [exact Hl|].
  pose proof (Hheap 700) as H700. pose proof (Hheap 701) as H701.
  simpl in H700, H701. split; [congruence|exact H701].
Defined.

(** C6, counterexample. Rank 0 has issued one get, with destination 600.
    A response arrives that names 700.  The rest of [sync] completes; the
    byte of the response is now at address 700, and the four bytes at the
    destination 600 are as before. *)
Lemma stray_get_response_is_applied :
  requested_targets (log example_stray_response) = [600]
  ∧ ∃ p', sync_finish example_stray_response = Done p'
          ∧ heap example_stray_response 700 = Byte.xbc
          ∧ heap p' 700 = Byte.xff
          ∧ heap p' <$> [600; 601; 602; 603]
            = heap example_stray_response <$> [600; 601; 602; 603].
Proof. split; [reflexivity|]. eexists. repeat split. Qed.

(** ** The loops of [sync] *)

(** A loop whose body takes one off its counter runs [counter] rounds; the
    fuel [Z.to_nat counter] is never used up. *)
Lemma while_rounds counter body :
  (∀ p p', body p = Done p' → counter p' = counter p - 1) →
  ∀ n p, Z.to_nat (counter p) = n → while counter body n p = rounds body n p.
Proof.
  intros Hdec. induction n as [|n IH]; intros p Hn; simpl.
  - rewrite decide_False by lia. done.
  - rewrite decide_True by lia.
    destruct (body p) as [p'|e] eqn:Hbody; simpl; [|done].
    apply IH. rewrite (Hdec p p' Hbody). lia.
Qed.

Lemma receive_put_decrements p p' :
  receive_put p = Done p' → remote_puts_ (wp p') = remote_puts_ (wp p) - 1.
Proof.
  unfold receive_put. destruct (in_put (net p)) as [|[src [h payload]] rest]; [done|].
  simpl. destruct (right_at _ _); simpl; [|done]. by intros [= <-].
Qed.

Lemma serve_get_decrements p p' :
  serve_get p = Done p' → remote_gets_ (wp p') = remote_gets_ (wp p) - 1.
Proof.
  unfold serve_get. destruct (in_get (net p)) as [|[src h] rest]; [done|].
  simpl. destruct (right_at _ _); simpl; [|done].
  unfold MPI_Send. case_decide; simpl; [|done]. by intros [= <-].
Qed.

Lemma receive_response_decrements p p' :
  receive_response p = Done p' → local_gets_ (wp p') = local_gets_ (wp p) - 1.
Proof.
  unfold receive_response.
  destruct (in_response (net p)) as [|[src [h payload]] rest]; [done|].
  by intros [= <-].
Qed.

(** The put loop consumes the frames [msgs] at the head of the mailbox. *)
Lemma rounds_receive_put msgs : ∀ p rest,
  in_put (net p) = msgs ++ rest →
  Forall (λ msg, is_Some (right_find (locations_ (wp p)) (ph_var_id msg.2.1))) msgs →
  rounds receive_put (length msgs) p
  = Done {| wp := set_remote_puts (remote_puts_ (wp p) - Z.of_nat (length msgs)) (wp p);
            heap := foldl (put_effect (locations_ (wp p))) (heap p) msgs;
            net := set_in_put rest (net p);
            log := log p ++ (recv_put_event <$> msgs) |}.
Proof.
  induction msgs as [|[src [h payload]] msgs IH]; intros p rest Hin Hids.
  - destruct p as [[] ? [] ?]. simpl in *. subst.
    unfold set_remote_puts, set_counters, set_in_put. simpl.
    by rewrite Z.sub_0_r, app_nil_r.
  - apply Forall_cons in Hids as [[base Hbase] Hids]. simpl in Hbase.
    cbn [rounds length]. rewrite (receive_put_head p src h payload (msgs ++ rest) base) by done.
    simpl. rewrite (IH _ rest) by done. simpl.
    assert (put_effect (locations_ (wp p)) (heap p) (src, (h, payload))
            = write_bytes (heap p) (base + ph_data_offset h) payload) as ->.
    { unfold put_effect. simpl. by rewrite Hbase. }
    unfold set_remote_puts, set_counters. simpl.
    rewrite <- app_assoc. simpl. do 3 f_equal. lia.
Qed.

(** The get loop consumes [msgs] and puts their answers in transit. *)
Lemma rounds_serve_get msgs : ∀ p rest,
  in_get (net p) = msgs ++ rest →
  Forall (λ msg, is_Some (right_find (locations_ (wp p)) (gh_var_id msg.2))
                 ∧ 0 ≤ msg.1 < nprocs_ (wp p)) msgs →
  rounds serve_get (length msgs) p
  = Done {| wp := set_remote_gets (remote_gets_ (wp p) - Z.of_nat (length msgs)) (wp p);
            heap := heap p;
            net := set_outbox (outbox (net p) ++ omap (answer (locations_ (wp p)) (heap p)) msgs)
                     (set_in_get rest (net p));
            log := log p ++ (msgs ≫= serve_events (locations_ (wp p)) (heap p)) |}.
Proof.
  induction msgs as [|[src h] msgs IH]; intros p rest Hin Hids.
  - destruct p as [[] ? [] ?]. simpl in *. subst.
    unfold set_remote_gets, set_counters, set_in_get, set_outbox. simpl.
    by rewrite Z.sub_0_r, !app_nil_r.
  - apply Forall_cons in Hids as [[[base Hbase] Hsrc] Hids]. simpl in Hbase, Hsrc.
    cbn [rounds length]. rewrite (serve_get_head p src h (msgs ++ rest) base) by done.
    simpl. rewrite (IH _ rest) by done. simpl.
    assert (answer (locations_ (wp p)) (heap p) (src, h)
            = Some (src, Get_response_frame
                           {| rh_target := gh_target h;
                              rh_data_size := size_t (gh_size h * gh_count h) |}
                           (read_bytes (heap p) (base + gh_data_offset h)
                              (size_t (gh_size h * gh_count h))))) as Hanswer.
    { unfold answer. simpl. by rewrite Hbase. }
    unfold serve_events at 2. rewrite Hanswer.
    unfold set_remote_gets, set_counters, set_outbox, set_in_get. simpl.
    rewrite <- !app_assoc. simpl. do 3 f_equal. lia.
Qed.

(** The response loop consumes [msgs]. *)
Lemma rounds_receive_response msgs : ∀ p rest,
  in_response (net p) = msgs ++ rest →
  rounds receive_response (length msgs) p
  = Done {| wp := set_local_gets (local_gets_ (wp p) - Z.of_nat (length msgs)) (wp p);
            heap := foldl response_effect (heap p) msgs;
            net := set_in_response rest (net p);
            log := log p ++ (recv_response_event <$> msgs) |}.
Proof.
  induction msgs as [|[src [h payload]] msgs IH]; intros p rest Hin.
  - destruct p as [[] ? [] ?]. simpl in *. subst.
    unfold set_local_gets, set_counters, set_in_response. simpl.
    by rewrite Z.sub_0_r, app_nil_r.
  - cbn [rounds length]. rewrite (receive_response_head p src h payload (msgs ++ rest)) by done.
    simpl. rewrite (IH _ rest) by done. simpl.
    unfold set_local_gets, set_counters. simpl.
    rewrite <- app_assoc. simpl. do 3 f_equal. lia.
Qed.

(** Lines 69-141 on a rank whose two counters are the numbers of frames
    [puts] and [gets] waiting at the head of its mailboxes. *)
Lemma sync_serve_spec p puts rest_p gets rest_g :
  in_put (net p) = puts ++ rest_p →
  in_get (net p) = gets ++ rest_g →
  remote_puts_ (wp p) = Z.of_nat (length puts) →
  remote_gets_ (wp p) = Z.of_nat (length gets) →
  Forall (λ msg, is_Some (right_find (locations_ (wp p)) (ph_var_id msg.2.1))) puts →
  Forall (λ msg, is_Some (right_find (locations_ (wp p)) (gh_var_id msg.2))
                 ∧ 0 ≤ msg.1 < nprocs_ (wp p)) gets →
  let m := foldl (put_effect (locations_ (wp p))) (heap p) puts in
  sync_serve p
  = Done {| wp := set_remote_gets 0 (set_remote_puts 0 (wp p));
            heap := m;
            net := set_outbox (outbox (net p) ++ omap (answer (locations_ (wp p)) m) gets)
                     (set_in_get rest_g (set_in_put rest_p (net p)));
            log := log p ++ (recv_put_event <$> puts)
                   ++ (gets ≫= serve_events (locations_ (wp p)) m) ++ [Barrier] |}.
Proof.
  intros Hput Hget Hrp Hrg Hpids Hgids m. unfold sync_serve.
  rewrite Hrp, Nat2Z.id.
  rewrite (while_rounds _ _ receive_put_decrements (length puts)) by (rewrite Hrp; lia).
  rewrite (rounds_receive_put puts p rest_p) by done. simpl.
  rewrite Hrg, Nat2Z.id.
  rewrite (while_rounds _ _ serve_get_decrements (length gets)) by (simpl; rewrite Hrg; lia).
  rewrite (rounds_serve_get gets _ rest_g) by done. simpl.
  unfold MPI_Barrier, record. simpl. fold m.
  unfold set_remote_gets, set_remote_puts, set_counters, set_outbox, set_in_get, set_in_put.
  simpl. rewrite <- !app_assoc. do 3 f_equal; lia.
Qed.

(** Lines 144-176 on a rank whose [local_gets_] is the number of responses
    waiting at the head of its mailbox. *)
Lemma sync_finish_spec p responses rest :
  in_response (net p) = responses ++ rest →
  local_gets_ (wp p) = Z.of_nat (length responses) →
  sync_finish p
  = Done {| wp := reset_counters (wp p);
            heap := foldl response_effect (heap p) responses;
            net := set_in_response rest (net p);
            log := log p ++ (recv_response_event <$> responses)
                   ++ [Counters_reset; Barrier] |}.
Proof.
  intros Hin Hlg. unfold sync_finish.
  rewrite Hlg, Nat2Z.id.
  rewrite (while_rounds _ _ receive_response_decrements (length responses))
    by (rewrite Hlg; lia).
  rewrite (rounds_receive_response responses p rest) by done. simpl.
  unfold MPI_Barrier, record, with_wp. simpl.
  by rewrite <- !app_assoc.
Qed.

(** The fuel of the loops is never used up. *)
Lemma rounds_fuel body :
  (∀ p, body p ≠ Fault Out_of_fuel) →
  ∀ n p, rounds body n p ≠ Fault Out_of_fuel.
Proof.
  intros Hbody. induction n as [|n IH]; intros p; simpl; [done|].
  destruct (body p) as [p'|e] eqn:Hp; simpl; [apply IH|].
  intros [= ->]. by apply (Hbody p).
Qed.

Lemma receive_put_fuel p : receive_put p ≠ Fault Out_of_fuel.
Proof.
  unfold receive_put, right_at.
  destruct (in_put (net p)) as [|[src [h payload]] rest]; [done|]. simpl.
  by destruct (right_find _ _).
Qed.

Lemma serve_get_fuel p : serve_get p ≠ Fault Out_of_fuel.
Proof.
  unfold serve_get, right_at, MPI_Send.
  destruct (in_get (net p)) as [|[src h] rest]; [done|]. simpl.
  destruct (right_find _ _); simpl; [|done]. by case_decide.
Qed.

Lemma receive_response_fuel p : receive_response p ≠ Fault Out_of_fuel.
Proof.
  unfold receive_response.
  by destruct (in_response (net p)) as [|[src [h payload]] rest].
Qed.

Lemma sync_never_out_of_fuel p :
  sync_serve p ≠ Fault Out_of_fuel ∧ sync_finish p ≠ Fault Out_of_fuel.
Proof.
  split.
  - unfold sync_serve.
    rewrite (while_rounds _ _ receive_put_decrements _ p eq_refl).
    destruct (rounds receive_put _ p) as [p1|e] eqn:H1; simpl.
    + rewrite (while_rounds _ _ serve_get_decrements _ p1 eq_refl).
      destruct (rounds serve_get _ p1) as [p2|e] eqn:H2; simpl; [done|].
      intros [= ->]. by apply (rounds_fuel _ serve_get_fuel) in H2.
    + intros [= ->]. by apply (rounds_fuel _ receive_put_fuel) in H1.
  - unfold sync_finish.
    rewrite (while_rounds _ _ receive_response_decrements _ p eq_refl).
    destruct (rounds receive_response _ p) as [p1|e] eqn:H1; simpl; [done|].
    intros [= ->]. by apply (rounds_fuel _ receive_response_fuel) in H1.
Qed.

(** ** Lists of ranks *)

Lemma for_each_Done {A B} (f : A → outcome B) (l : list A) (l' : list B) :
  Forall2 (λ x y, f x = Done y) l l' → for_each f l = Done l'.
Proof.
  induction 1 as [|x y l l' Hxy _ IH]; simpl; [done|].
  rewrite Hxy. simpl. rewrite IH. done.
Qed.

Lemma for_each_inv {A B} (f : A → outcome B) (l : list A) (l' : list B) :
  for_each f l = Done l' → Forall2 (λ x y, f x = Done y) l l'.
Proof.
  revert l'. induction l as [|x l IH]; intros l'; simpl.
  - intros [= <-]. constructor.
  - destruct (f x) as [y|e] eqn:Hx; simpl; [|done].
    destruct (for_each f l) as [l''|e]; simpl; [|done].
    intros [= <-]. constructor; [done|]. by apply IH.
Qed.

Lemma for_each_imap {A B} (f : A → outcome B) (g : nat → A → B) (l : list A) :
  (∀ i x, l !! i = Some x → f x = Done (g i x)) →
  for_each f l = Done (imap g l).
Proof.
  intros Hf. apply for_each_Done.
  apply Forall2_same_length_lookup_2.
  - by rewrite length_imap.
  - intros i x y Hx Hy. rewrite list_lookup_imap, Hx in Hy. simpl in Hy.
    simplify_eq. by apply Hf.
Qed.

(** What a mailbox holds after the messages [msgs] went through the
    network. *)
Lemma foldl_arrive i msgs : ∀ n,
  foldl (arrive i) n msgs
  = {| in_put := in_put n ++ puts_for i msgs;
       in_get := in_get n ++ gets_for i msgs;
       in_response := in_response n ++ responses_for i msgs;
       outbox := outbox n |}.
Proof.
  induction msgs as [|[[src dst] f] msgs IH]; intros n; simpl.
  - destruct n. simpl. by rewrite !app_nil_r.
  - rewrite IH. unfold arrive, puts_for, gets_for, responses_for. simpl.
    case_decide; destruct f; simpl; try done;
      rewrite <- ?app_assoc; done.
Qed.

Lemma lookup_transmit (w : world) (i : nat) :
  transmit w !! i
  = (λ p, {| wp := wp p; heap := heap p;
             net := {| in_put := in_put (net p) ++ puts_for (Z.of_nat i) (in_transit w);
                       in_get := in_get (net p) ++ gets_for (Z.of_nat i) (in_transit w);
                       in_response := in_response (net p)
                                      ++ responses_for (Z.of_nat i) (in_transit w);
                       outbox := [] |};
             log := log p |}) <$> w !! i.
Proof.
  unfold transmit. rewrite list_lookup_imap.
  destruct (w !! i) as [p|]; simpl; [|done].
  unfold with_net. simpl. by rewrite foldl_arrive.
Qed.

Lemma length_transmit (w : world) : length (transmit w) = length w.
Proof. unfold transmit. by rewrite length_imap. Qed.

(** ** The answers of one rank, as the network carries them *)

Lemma responses_for_app i l1 l2 :
  responses_for i (l1 ++ l2) = responses_for i l1 ++ responses_for i l2.
Proof. apply omap_app. Qed.

Lemma puts_for_app i l1 l2 : puts_for i (l1 ++ l2) = puts_for i l1 ++ puts_for i l2.
Proof. apply omap_app. Qed.

Lemma gets_for_app i l1 l2 : gets_for i (l1 ++ l2) = gets_for i l1 ++ gets_for i l2.
Proof. apply omap_app. Qed.

Lemma responses_for_response i s d h payload l :
  responses_for i ((s, d, Get_response_frame h payload) :: l)
  = if decide (d = i) then (s, (h, payload)) :: responses_for i l else responses_for i l.
Proof. unfold responses_for. simpl. by case_decide. Qed.

Lemma puts_for_response i s d h payload l :
  puts_for i ((s, d, Get_response_frame h payload) :: l) = puts_for i l.
Proof. done. Qed.

Lemma gets_for_response i s d h payload l :
  gets_for i ((s, d, Get_response_frame h payload) :: l) = gets_for i l.
Proof. done. Qed.

Lemma answer_resolved b m src h base :
  right_find b (gh_var_id h) = Some base →
  answer b m (src, h)
  = Some (src, Get_response_frame
                 {| rh_target := gh_target h;
                    rh_data_size := size_t (gh_size h * gh_count h) |}
                 (read_bytes m (base + gh_data_offset h)
                    (size_t (gh_size h * gh_count h)))).
Proof. intros Hbase. unfold answer. simpl. by rewrite Hbase. Qed.

Lemma omap_cons_Some {A B} (f : A → option B) x y l :
  f x = Some y → omap f (x :: l) = y :: omap f l.
Proof. intros Hx. simpl. by rewrite Hx. Qed.

Lemma answers_in_transit (b : bimap) (m : memory) (s i : Z) gets :
  Forall (λ g : Z * get_header, is_Some (right_find b (gh_var_id g.2))) gets →
  Forall2 answers_get (filter (λ g, g.1 = i) gets)
    (responses_for i ((λ df : Z * frame, (s, df.1, df.2)) <$> omap (answer b m) gets))
  ∧ puts_for i ((λ df : Z * frame, (s, df.1, df.2)) <$> omap (answer b m) gets) = []
  ∧ gets_for i ((λ df : Z * frame, (s, df.1, df.2)) <$> omap (answer b m) gets) = [].
Proof.
  induction 1 as [|[src h] gets [base Hbase] _ IH].
  { split; [constructor|done]. }
  simpl in Hbase. destruct IH as (IH1 & IH2 & IH3).
  rewrite (omap_cons_Some _ _ _ _ (answer_resolved b m src h base Hbase)).
  rewrite fmap_cons. cbn [fst snd].
  rewrite responses_for_response, puts_for_response, gets_for_response, filter_cons.
  split; [|done]. cbn [fst]. case_decide; [|done]. constructor; [|done].
  repeat split; simpl. rewrite length_read_bytes.
  pose proof (size_t_nonneg (gh_size h * gh_count h)). lia.
Qed.

Lemma served_in_transit (l : world) (sv : nat → process → process) (m : process → memory)
    (src_of : nat → Z) (i : Z) :
  (∀ k p, l !! k = Some p →
          Forall (λ g, is_Some (right_find (locations_ (wp p)) (gh_var_id g.2)))
                 (in_get (net p))
          ∧ outbox (net (sv k p)) = omap (answer (locations_ (wp p)) (m p)) (in_get (net p))) →
  Forall2 answers_get (filter (λ g, g.1 = i) (gets_in_flight l))
    (responses_for i
       (mjoin (imap (λ s p, (λ df : Z * frame, (src_of s, df.1, df.2)) <$> outbox (net p))
                    (imap sv l))))
  ∧ puts_for i
      (mjoin (imap (λ s p, (λ df : Z * frame, (src_of s, df.1, df.2)) <$> outbox (net p))
                   (imap sv l))) = []
  ∧ gets_for i
      (mjoin (imap (λ s p, (λ df : Z * frame, (src_of s, df.1, df.2)) <$> outbox (net p))
                   (imap sv l))) = [].
Proof.
  revert sv src_of. induction l as [|p l IH]; intros sv src_of Hl.
  { split; [constructor|done]. }
  destruct (Hl 0%nat p eq_refl) as [Hids Hout].
  destruct (answers_in_transit (locations_ (wp p)) (m p) (src_of 0%nat) i _ Hids)
    as (H1 & H2 & H3).
  destruct (IH (sv ∘ S) (src_of ∘ S)) as (IH1 & IH2 & IH3).
  { intros k q Hk. apply (Hl (S k) q Hk). }
  unfold gets_in_flight in *. rewrite fmap_cons, !imap_cons. cbn [mjoin list_join].
  rewrite responses_for_app, puts_for_app, gets_for_app, filter_app.
  rewrite Hout, H2, H3. cbn zeta in IH1, IH2, IH3.
  split; [by apply Forall2_app|]. split; [exact IH2|exact IH3].
Qed.

(** In a consistent world the responses that reach a rank are the answers
    to its gets, one for one. *)
Lemma responses_to_answers (w : world) (i : nat) :
  consistent w →
  Forall2 answers_get (filter (λ g, g.1 = Z.of_nat i) (gets_in_flight w)) (responses_to w i)
  ∧ puts_for (Z.of_nat i) (in_transit (imap (served w) w)) = []
  ∧ gets_for (Z.of_nat i) (in_transit (imap (served w) w)) = [].
Proof.
  intros Hw. unfold responses_to, in_transit.
  apply (served_in_transit w (served w) heap_after_puts).
  intros k p Hk. destruct (Hw k p Hk). split; [|done].
  eapply Forall_impl; [exact c_get_ids0|]. simpl. by intros g [? _].
Qed.

Lemma length_responses_to (w : world) (i : nat) (p : process) :
  consistent w → w !! i = Some p →
  Z.of_nat (length (responses_to w i)) = local_gets_ (wp p).
Proof.
  intros Hw Hp. destruct (responses_to_answers w i Hw) as [H _].
  apply Forall2_length in H. rewrite <- H. by destruct (Hw i p Hp).
Qed.

(** ** [sync] on a consistent world *)

Lemma sync_serve_entered (w : world) (i : nat) (p : process) :
  consistent_rank w i p →
  sync_serve (sync_enter (remote_puts_of w i) (remote_gets_of w i) p)
  = Done (served w i p).
Proof.
  intros [Hpid Hn Hpc Hgc Hout Hresp Hput Hget Hpids Hgids Hlg].
  rewrite (sync_serve_spec _ (in_put (net p)) [] (in_get (net p)) []);
    simpl; try (by rewrite app_nil_r); try done.
  - unfold served, heap_after_puts.
    unfold set_outbox, set_in_get, set_in_put. simpl. rewrite Hout, Hresp.
    rewrite <- !app_assoc. simpl. done.
  - by rewrite Hn.
Qed.

Lemma sync_finish_served (w : world) (i : nat) (p : process) :
  consistent w → w !! i = Some p →
  sync_finish
    {| wp := wp (served w i p); heap := heap (served w i p);
       net := {| in_put := in_put (net (served w i p))
                           ++ puts_for (Z.of_nat i) (in_transit (imap (served w) w));
                 in_get := in_get (net (served w i p))
                           ++ gets_for (Z.of_nat i) (in_transit (imap (served w) w));
                 in_response := in_response (net (served w i p))
                                ++ responses_for (Z.of_nat i) (in_transit (imap (served w) w));
                 outbox := [] |};
       log := log (served w i p) |}
  = Done (synced w i p).
Proof.
  intros Hw Hp.
  destruct (responses_to_answers w i Hw) as (_ & Hputs & Hgets).
  rewrite Hputs, Hgets. fold (responses_to w i).
  rewrite (sync_finish_spec _ (responses_to w i) []).
  - unfold synced, sync_events, idle. simpl.
    rewrite <- !app_assoc. simpl. rewrite <- !app_assoc. done.
  - simpl. by rewrite app_nil_r.
  - simpl. symmetry. by apply length_responses_to.
Qed.

(** On a consistent world every rank completes [sync], and ends as
    [synced] describes. *)
Lemma sync_all_consistent (w : world) :
  consistent w → sync_all w = Done (imap (synced w) w).
Proof.
  intros Hw. unfold sync_all.
  assert (for_each sync_serve
            (imap (λ i p, sync_enter (remote_puts_of w i) (remote_gets_of w i) p) w)
          = Done (imap (served w) w)) as ->.
  { apply for_each_Done, Forall2_same_length_lookup_2.
    - by rewrite !length_imap.
    - intros i x y. rewrite !list_lookup_imap.
      destruct (w !! i) as [p|] eqn:Hp; simpl; [|done].
      intros [= <-] [= <-]. apply sync_serve_entered. by apply Hw. }
  simpl. apply for_each_Done, Forall2_same_length_lookup_2.
  - by rewrite length_transmit, !length_imap.
  - intros i x y. rewrite lookup_transmit, !list_lookup_imap.
    destruct (w !! i) as [p|] eqn:Hp; simpl; [|done].
    intros [= <-] [= <-]. by apply sync_finish_served.
Qed.

(** ** One operation on a consistent world *)

Lemma transit_none (l : world) (tag : nat → process → list (Z * Z * frame)) :
  (∀ k q, l !! k = Some q → tag k q = []) → mjoin (imap tag l) = [].
Proof.
  revert tag. induction l as [|q l IH]; intros tag Hl; [done|].
  rewrite imap_cons. cbn [mjoin list_join].
  rewrite (Hl 0%nat q eq_refl). simpl. apply IH.
  intros k q' Hk. apply (Hl (S k) q' Hk).
Qed.

Lemma transit_one (l : world) (src_of : nat → Z) (s : nat) (p' : process) :
  l !! s = Some p' →
  (∀ k q, k ≠ s → l !! k = Some q → outbox (net q) = []) →
  mjoin (imap (λ k q, (λ df : Z * frame, (src_of k, df.1, df.2)) <$> outbox (net q)) l)
  = (λ df : Z * frame, (src_of s, df.1, df.2)) <$> outbox (net p').
Proof.
  revert src_of s. induction l as [|q l IH]; intros src_of s Hs Hl; [done|].
  rewrite imap_cons. cbn [mjoin list_join]. destruct s as [|s].
  - simpl in Hs. simplify_eq. rewrite transit_none; [by rewrite app_nil_r|].
    intros k q Hk. simpl. by rewrite (Hl (S k) q).
  - rewrite (Hl 0%nat q) by done. simpl.
    apply (IH (src_of ∘ S) s); [done|].
    intros k q' Hne Hk. apply (Hl (S k) q'); [lia|done].
Qed.

Lemma at_rank_put (w : world) (s d : nat) ps (value variable size offset count id : Z) :
  (∀ k q, w !! k = Some q → outbox (net q) = []) →
  w !! s = Some ps →
  pid_ (wp ps) = Z.of_nat s →
  Z.of_nat d < nprocs_ (wp ps) →
  s ≠ d →
  left_find (locations_ (wp ps)) variable = Some id →
  at_rank s (internal_put_ (Z.of_nat d) value variable size offset count) w
  = Done (after_put s d
            ({| ph_var_id := id; ph_data_offset := size_t (offset * size) |},
             read_bytes (heap ps) value (size_t (size * count))) w).
Proof.
  intros Hquiet Hs Hpid Hd Hne Hid.
  pose proof (internal_put_remote ps (Z.of_nat d) value variable size offset count id) as Hput.
  cbn zeta in Hput.
  unfold at_rank. rewrite Hs. cbn [outcome_of_option mbind outcome_bind].
  rewrite Hput; [|lia|lia|done]. cbn [mbind outcome_bind]. f_equal.
  apply list_eq. intros i. rewrite lookup_transmit.
  match goal with |- context [in_transit ?w'] =>
    assert (in_transit w'
            = [(Z.of_nat s, Z.of_nat d,
                Put_frame {| ph_var_id := id; ph_data_offset := size_t (offset * size) |}
                  (read_bytes (heap ps) value (size_t (size * count))))]) as ->
  end.
  { unfold in_transit.
    match goal with |- context [<[s:=?p']> w] => rewrite (transit_one _ _ s p') end.
    - simpl. rewrite (Hquiet s ps Hs). done.
    - apply list_lookup_insert_eq. by eapply lookup_lt_Some.
    - intros k q Hk Hq. rewrite list_lookup_insert_ne in Hq by done.
      by eapply Hquiet. }
  unfold after_put. rewrite list_lookup_imap.
  unfold puts_for, gets_for, responses_for. simpl.
  destruct (decide (i = s)) as [->|Hi].
  - rewrite list_lookup_insert_eq by (by eapply lookup_lt_Some). rewrite Hs. simpl.
    rewrite (decide_False (P := Z.of_nat d = Z.of_nat s)) by lia.
    rewrite (decide_False (P := s = d)) by done.
    by rewrite !app_nil_r.
  - rewrite list_lookup_insert_ne by done.
    destruct (w !! i) as [p|] eqn:Hp; simpl; [|done].
    rewrite !app_nil_r. do 3 f_equal.
    do 2 case_decide; try done; lia.
Qed.

Lemma at_rank_get (w : world) (s d : nat) ps (variable target size offset count id : Z) :
  (∀ k q, w !! k = Some q → outbox (net q) = []) →
  w !! s = Some ps →
  pid_ (wp ps) = Z.of_nat s →
  Z.of_nat d < nprocs_ (wp ps) →
  s ≠ d →
  left_find (locations_ (wp ps)) variable = Some id →
  at_rank s (internal_get_ (Z.of_nat d) variable target size offset count) w
  = Done (after_get s d
            {| gh_var_id := id; gh_data_offset := size_t (offset * size);
               gh_count := count; gh_size := size; gh_target := target |} w).
Proof.
  intros Hquiet Hs Hpid Hd Hne Hid.
  pose proof (internal_get_remote ps (Z.of_nat d) variable target size offset count id) as Hget.
  cbn zeta in Hget.
  unfold at_rank. rewrite Hs. cbn [outcome_of_option mbind outcome_bind].
  rewrite Hget; [|lia|lia|done]. cbn [mbind outcome_bind]. f_equal.
  apply list_eq. intros i. rewrite lookup_transmit.
  match goal with |- context [in_transit ?w'] =>
    assert (in_transit w'
            = [(Z.of_nat s, Z.of_nat d,
                Get_frame {| gh_var_id := id; gh_data_offset := size_t (offset * size);
                             gh_count := count; gh_size := size; gh_target := target |})])
      as ->
  end.
  { unfold in_transit.
    match goal with |- context [<[s:=?p']> w] => rewrite (transit_one _ _ s p') end.
    - simpl. rewrite (Hquiet s ps Hs). done.
    - apply list_lookup_insert_eq. by eapply lookup_lt_Some.
    - intros k q Hk Hq. rewrite list_lookup_insert_ne in Hq by done.
      by eapply Hquiet. }
  unfold after_get. rewrite list_lookup_imap.
  unfold puts_for, gets_for, responses_for. simpl.
  destruct (decide (i = s)) as [->|Hi].
  - rewrite list_lookup_insert_eq by (by eapply lookup_lt_Some). rewrite Hs. simpl.
    rewrite (decide_False (P := Z.of_nat d = Z.of_nat s)) by lia.
    rewrite (decide_False (P := s = d)) by done.
    by rewrite !app_nil_r.
  - rewrite list_lookup_insert_ne by done.
    destruct (w !! i) as [p|] eqn:Hp; simpl; [|done].
    rewrite !app_nil_r. do 3 f_equal.
    do 2 case_decide; try done; lia.
Qed.

(** ** Counting across ranks *)

Lemma reduce_scatter_sum_insert bufs s b b' i δ :
  bufs !! s = Some b →
  default 0 (b' !! i) = default 0 (b !! i) + δ →
  reduce_scatter_sum (<[s:=b']> bufs) i = reduce_scatter_sum bufs i + δ.
Proof.
  unfold reduce_scatter_sum. revert s.
  induction bufs as [|b0 bufs IH]; intros [|s] Hs Hb; simplify_eq/=.
  - lia.
  - rewrite (IH s) by done. lia.
Qed.

Lemma reduce_scatter_sum_zero bufs i :
  Forall (Forall (λ c, c = 0)) bufs → reduce_scatter_sum bufs i = 0.
Proof.
  unfold reduce_scatter_sum. induction 1 as [|b bufs Hb _ IH]; [done|].
  rewrite fmap_cons. cbn [foldr]. rewrite IH.
  destruct (b !! i) as [c|] eqn:Hc; simpl; [|done].
  rewrite Forall_lookup in Hb. rewrite (Hb i c Hc). done.
Qed.

Lemma lookup_increment_default (v : list Z) (d : Z) (i : nat) :
  (Z.to_nat d < length v)%nat →
  default 0 (increment d v !! i)
  = default 0 (v !! i) + (if decide (i = Z.to_nat d) then 1 else 0).
Proof.
  intros Hd. rewrite lookup_increment. case_decide as Hi; [|lia].
  subst i. destruct (lookup_lt_is_Some_2 v _ Hd) as [c ->]. simpl. lia.
Qed.

Lemma fmap_imap_same {B} (f : process → B) (g : nat → process → process) (w : world) :
  (∀ i p, f (g i p) = f p) → f <$> imap g w = f <$> w.
Proof.
  intros Hg. apply list_eq. intros i.
  rewrite !list_lookup_fmap, list_lookup_imap.
  destruct (w !! i); simpl; [|done]. by rewrite Hg.
Qed.

Lemma fmap_imap_update {B} (f : process → B) (g : nat → process → process)
    (w : world) (s : nat) (ps : process) :
  w !! s = Some ps →
  (∀ i p, i ≠ s → f (g i p) = f p) →
  f <$> imap g w = <[s := f (g s ps)]> (f <$> w).
Proof.
  intros Hs Hg. apply list_eq. intros i.
  rewrite list_lookup_fmap, list_lookup_imap.
  destruct (decide (i = s)) as [->|Hi].
  - rewrite list_lookup_insert_eq.
    + by rewrite Hs.
    + rewrite length_fmap. by eapply lookup_lt_Some.
  - rewrite list_lookup_insert_ne by done. rewrite list_lookup_fmap.
    destruct (w !! i); simpl; [|done]. by rewrite Hg.
Qed.

Lemma filter_mjoin_insert {A} (P : A → Prop) `{!∀ x, Decision (P x)}
    (ls : list (list A)) (d : nat) (l : list A) (x : A) :
  ls !! d = Some l →
  length (filter P (mjoin (<[d := l ++ [x]]> ls)))
  = (length (filter P (mjoin ls)) + (if decide (P x) then 1 else 0))%nat.
Proof.
  revert d. induction ls as [|l0 ls IH]; intros [|d] Hd; simplify_eq/=.
  - rewrite !filter_app, !length_app. rewrite filter_cons, filter_nil.
    case_decide; simpl; lia.
  - rewrite !filter_app, !length_app. rewrite (IH d) by done. lia.
Qed.

(** ** Consistency is kept *)

Lemma remote_puts_of_after_put (w : world) (s d : nat) msg ps (i : nat) :
  w !! s = Some ps →
  (d < length (put_counts_ (wp ps)))%nat →
  remote_puts_of (after_put s d msg w) i
  = remote_puts_of w i + (if decide (i = d) then 1 else 0).
Proof.
  intros Hs Hd. unfold remote_puts_of, after_put.
  rewrite (fmap_imap_update (λ p, put_counts_ (wp p)) _ w s ps Hs).
  - apply (reduce_scatter_sum_insert _ _ (put_counts_ (wp ps))).
    + by rewrite list_lookup_fmap, Hs.
    + simpl. rewrite decide_True by done. simpl.
      rewrite lookup_increment_default by (rewrite Nat2Z.id; lia).
      rewrite Nat2Z.id. done.
  - intros k p Hk. simpl. by rewrite decide_False.
Qed.

Lemma remote_gets_of_after_put (w : world) (s d : nat) msg (i : nat) :
  remote_gets_of (after_put s d msg w) i = remote_gets_of w i.
Proof.
  unfold remote_gets_of, after_put. rewrite fmap_imap_same; [done|].
  intros k p. simpl. by case_decide.
Qed.

Lemma gets_in_flight_after_put (w : world) (s d : nat) msg :
  gets_in_flight (after_put s d msg w) = gets_in_flight w.
Proof. unfold gets_in_flight, after_put. by rewrite fmap_imap_same. Qed.

(** A remote put keeps the world consistent. *)
Lemma consistent_after_put (w : world) (s d : nat) msg ps pd :
  consistent w →
  w !! s = Some ps →
  w !! d = Some pd →
  is_Some (right_find (locations_ (wp pd)) (ph_var_id msg.1)) →
  consistent (after_put s d msg w).
Proof.
  intros Hw Hs Hd Hbase i p1 Hp1.
  assert (length (after_put s d msg w) = length w) as Hlen.
  { unfold after_put. by rewrite length_imap. }
  pose proof Hp1 as Hp1'. unfold after_put in Hp1'.
  rewrite list_lookup_imap in Hp1'.
  destruct (w !! i) as [p|] eqn:Hp; simplify_eq/=.
  destruct (Hw i p Hp) as [Hpid Hn Hpc Hgc Hout Hresp Hput Hget Hpids Hgids Hlg].
  assert (d < length (put_counts_ (wp ps)))%nat as Hdlt.
  { pose proof (c_put_counts _ _ _ (Hw s ps Hs)) as Hpcs.
    apply lookup_lt_Some in Hd. rewrite Hpcs. done. }
  clear Hp1.
  constructor; simpl; rewrite ?Hlen.
  - by destruct (decide (i = s)).
  - by destruct (decide (i = s)).
  - destruct (decide (i = s)); simpl; [|done]. by rewrite length_increment.
  - by destruct (decide (i = s)).
  - done.
  - done.
  - rewrite (remote_puts_of_after_put w s d msg ps i) by done.
    rewrite length_app, Nat2Z.inj_add, Hput.
    destruct (decide (i = d)); simpl; lia.
  - by rewrite remote_gets_of_after_put.
  - assert (locations_ (if decide (i = s)
                        then set_put_counts (increment (Z.of_nat d) (put_counts_ (wp p))) (wp p)
                        else wp p) = locations_ (wp p)) as ->
      by (by destruct (decide (i = s))).
    apply Forall_app. split; [done|].
    destruct (decide (i = d)); [|constructor]. simplify_eq. by apply Forall_singleton.
  - assert (locations_ (if decide (i = s)
                        then set_put_counts (increment (Z.of_nat d) (put_counts_ (wp p))) (wp p)
                        else wp p) = locations_ (wp p)) as ->
      by (by destruct (decide (i = s))).
    done.
  - rewrite gets_in_flight_after_put. by destruct (decide (i = s)).
Qed.

Lemma remote_gets_of_after_get (w : world) (s d : nat) h ps (i : nat) :
  w !! s = Some ps →
  (d < length (get_counts_ (wp ps)))%nat →
  remote_gets_of (after_get s d h w) i
  = remote_gets_of w i + (if decide (i = d) then 1 else 0).
Proof.
  intros Hs Hd. unfold remote_gets_of, after_get.
  rewrite (fmap_imap_update (λ p, get_counts_ (wp p)) _ w s ps Hs).
  - apply (reduce_scatter_sum_insert _ _ (get_counts_ (wp ps))).
    + by rewrite list_lookup_fmap, Hs.
    + simpl. rewrite decide_True by done. simpl.
      rewrite lookup_increment_default by (rewrite Nat2Z.id; lia).
      rewrite Nat2Z.id. done.
  - intros k p Hk. simpl. by rewrite decide_False.
Qed.

Lemma remote_puts_of_after_get (w : world) (s d : nat) h (i : nat) :
  remote_puts_of (after_get s d h w) i = remote_puts_of w i.
Proof.
  unfold remote_puts_of, after_get. rewrite fmap_imap_same; [done|].
  intros k p. simpl. by case_decide.
Qed.

Lemma gets_in_flight_after_get (w : world) (s d : nat) h pd (i : nat) :
  w !! d = Some pd →
  length (filter (λ g : Z * get_header, g.1 = Z.of_nat i) (gets_in_flight (after_get s d h w)))
  = (length (filter (λ g : Z * get_header, g.1 = Z.of_nat i) (gets_in_flight w))
     + (if decide (i = s) then 1 else 0))%nat.
Proof.
  intros Hd. unfold gets_in_flight, after_get.
  rewrite (fmap_imap_update (λ p, in_get (net p)) _ w d pd Hd).
  - simpl. rewrite decide_True by done.
    rewrite (filter_mjoin_insert _ _ d (in_get (net pd))).
    + simpl. destruct (decide (Z.of_nat s = Z.of_nat i)), (decide (i = s)); lia.
    + by rewrite list_lookup_fmap, Hd.
  - intros k p Hk. simpl. rewrite decide_False by done. by rewrite app_nil_r.
Qed.

(** A remote get keeps the world consistent. *)
Lemma consistent_after_get (w : world) (s d : nat) h ps pd :
  consistent w →
  w !! s = Some ps →
  w !! d = Some pd →
  is_Some (right_find (locations_ (wp pd)) (gh_var_id h)) →
  consistent (after_get s d h w).
Proof.
  intros Hw Hs Hd Hbase i p1 Hp1.
  assert (length (after_get s d h w) = length w) as Hlen.
  { unfold after_get. by rewrite length_imap. }
  unfold after_get in Hp1. rewrite list_lookup_imap in Hp1.
  destruct (w !! i) as [p|] eqn:Hp; simplify_eq/=.
  destruct (Hw i p Hp) as [Hpid Hn Hpc Hgc Hout Hresp Hput Hget Hpids Hgids Hlg].
  assert (d < length (get_counts_ (wp ps)))%nat as Hdlt.
  { pose proof (c_get_counts _ _ _ (Hw s ps Hs)) as Hgcs.
    apply lookup_lt_Some in Hd. rewrite Hgcs. done. }
  constructor; simpl; rewrite ?Hlen.
  - by destruct (decide (i = s)).
  - by destruct (decide (i = s)).
  - by destruct (decide (i = s)).
  - destruct (decide (i = s)); simpl; [|done]. by rewrite length_increment.
  - done.
  - done.
  - by rewrite remote_puts_of_after_get.
  - rewrite (remote_gets_of_after_get w s d h ps i) by done.
    rewrite length_app, Nat2Z.inj_add, Hget.
    destruct (decide (i = d)); simpl; lia.
  - by destruct (decide (i = s)).
  - assert (locations_ (if decide (i = s)
                        then set_local_gets (local_gets_ (wp p) + 1)
                               (set_get_counts
                                  (increment (Z.of_nat d) (get_counts_ (wp p))) (wp p))
                        else wp p) = locations_ (wp p)) as ->
      by (by destruct (decide (i = s))).
    apply Forall_app. split; [done|].
    destruct (decide (i = d)); [|constructor]. simplify_eq.
    apply Forall_singleton. simpl. split; [done|].
    apply lookup_lt_Some in Hs. lia.
  - rewrite (gets_in_flight_after_get w s d h pd i Hd).
    destruct (decide (i = s)); simpl; lia.
Qed.

(** A world whose ranks are numbered in order, with counters at zero and
    empty mailboxes, is consistent. *)
Lemma consistent_quiet (w : world) :
  (∀ i p, w !! i = Some p →
          pid_ (wp p) = Z.of_nat i ∧ nprocs_ (wp p) = Z.of_nat (length w)
          ∧ length (put_counts_ (wp p)) = length w
          ∧ length (get_counts_ (wp p)) = length w
          ∧ counters_zero (wp p) ∧ net p = idle) →
  consistent w.
Proof.
  intros Hq.
  assert (∀ i, remote_puts_of w i = 0) as Hputs.
  { intros i. apply reduce_scatter_sum_zero. apply Forall_fmap, Forall_lookup.
    intros k p Hp. simpl. by destruct (Hq k p Hp) as (_ & _ & _ & _ & [? _] & _). }
  assert (∀ i, remote_gets_of w i = 0) as Hgets.
  { intros i. apply reduce_scatter_sum_zero. apply Forall_fmap, Forall_lookup.
    intros k p Hp. simpl. by destruct (Hq k p Hp) as (_ & _ & _ & _ & (_ & ? & _) & _). }
  assert (gets_in_flight w = []) as Hflight.
  { apply join_nil_2, Forall_fmap, Forall_lookup.
    intros k p Hp. simpl. by destruct (Hq k p Hp) as (_ & _ & _ & _ & _ & ->). }
  intros i p Hp. destruct (Hq i p Hp) as (Hpid & Hn & Hpc & Hgc & Hz & Hnet).
  destruct Hz as (_ & _ & Hlg & _ & _).
  constructor; rewrite ?Hnet, ?Hputs, ?Hgets, ?Hflight; simpl; try done.
Qed.


Lemma lookup_start_world (n : nat) (m : memory) (i : nat) (p : process) :
  start_world n m !! i = Some p → p = start (Z.of_nat i) (Z.of_nat n) m.
Proof.
  unfold start_world. rewrite list_lookup_fmap.
  destruct (seq 0 n !! i) as [k|] eqn:Hk; simpl; [|done].
  apply lookup_seq in Hk as [-> _]. by intros [= <-].
Qed.

(** The world is consistent when the ranks have been constructed. *)
Lemma consistent_start_world (n : nat) (m : memory) : consistent (start_world n m).
Proof.
  apply consistent_quiet. intros i p Hp.
  apply lookup_start_world in Hp as ->.
  assert (length (start_world n m) = n) as ->.
  { unfold start_world. by rewrite length_fmap, length_seq. }
  simpl. rewrite !length_replicate, Nat2Z.id.
  repeat split; apply Forall_replicate; done.
Qed.

(** It is consistent again when [sync] has returned on all ranks. *)
Lemma consistent_synced (w : world) : consistent w → consistent (imap (synced w) w).
Proof.
  intros Hw. apply consistent_quiet. intros i p' Hp'.
  rewrite list_lookup_imap in Hp'.
  destruct (w !! i) as [p|] eqn:Hp; simplify_eq/=.
  destruct (Hw i p Hp). rewrite length_imap, !length_replicate.
  repeat split; try done; apply Forall_replicate; done.
Qed.

(** Responses whose destinations do not cover [a] leave the byte at [a]. *)
Lemma foldl_response_effect_outside gs rs : ∀ (m : memory) (a : Z),
  Forall2 answers_get gs rs →
  Forall (λ g : Z * get_header, ¬ get_range g.2 a) gs →
  foldl response_effect m rs a = m a.
Proof.
  intros m a Hanswers. revert m.
  induction Hanswers as [|g r gs rs (Ht & Hs & Hl) _ IH]; intros m Hgs; [done|].
  apply Forall_cons in Hgs as [Hg Hgs]. simpl. rewrite IH by done.
  unfold response_effect. apply write_bytes_outside.
  rewrite length_take, Ht. unfold get_range in Hg.
  pose proof (size_t_nonneg (gh_size g.2 * gh_count g.2)). lia.
Qed.

Lemma consistent_example_world : consistent example_world.
Proof.
  apply consistent_quiet. intros [|[|i]] p Hp; simplify_eq/=;
    repeat split; repeat constructor.
Qed.

Lemma consistent_example_superstep : consistent example_superstep.
Proof.
  eapply (consistent_after_put _ 0 1); [|reflexivity|reflexivity|by eexists].
  eapply (consistent_after_get _ 0 1); [|reflexivity|reflexivity|by eexists].
  apply consistent_example_world.
Qed.

(** ** Frames in bounds *)

Lemma world_in_bounds_quiet (w : world) :
  (∀ k p, w !! k = Some p → in_put (net p) = [] ∧ in_get (net p) = []) →
  world_in_bounds w.
Proof. intros Hq k p Hp. destruct (Hq k p Hp) as [-> ->]. by split. Qed.

Lemma world_in_bounds_after_put (w : world) (s d : nat) msg pd :
  world_in_bounds w →
  w !! d = Some pd →
  put_in_bounds (locations_ (wp pd)) (Z.of_nat s, msg) →
  world_in_bounds (after_put s d msg w).
Proof.
  intros Hw Hd Hmsg k p1 Hp1. unfold after_put in Hp1.
  rewrite list_lookup_imap in Hp1.
  destruct (w !! k) as [p|] eqn:Hp; simpl in Hp1; [|done]. injection Hp1 as <-.
  destruct (Hw k p Hp) as [Hputs Hgets]. simpl.
  assert (locations_ (if decide (k = s)
                      then set_put_counts (increment (Z.of_nat d) (put_counts_ (wp p))) (wp p)
                      else wp p) = locations_ (wp p)) as ->.
  { by case_decide. }
  split; [|done]. apply Forall_app. split; [done|].
  case_decide as Hk; [|done]. subst k. rewrite Hd in Hp. injection Hp as <-.
  by apply Forall_singleton.
Qed.

Lemma world_in_bounds_after_get (w : world) (s d : nat) h pd :
  world_in_bounds w →
  w !! d = Some pd →
  get_in_bounds (locations_ (wp pd)) (Z.of_nat s, h) →
  world_in_bounds (after_get s d h w).
Proof.
  intros Hw Hd Hmsg k p1 Hp1. unfold after_get in Hp1.
  rewrite list_lookup_imap in Hp1.
  destruct (w !! k) as [p|] eqn:Hp; simpl in Hp1; [|done]. injection Hp1 as <-.
  destruct (Hw k p Hp) as [Hputs Hgets]. simpl.
  assert (locations_ (if decide (k = s)
                      then set_local_gets (local_gets_ (wp p) + 1)
                             (set_get_counts (increment (Z.of_nat d) (get_counts_ (wp p)))
                                (wp p))
                      else wp p) = locations_ (wp p)) as ->.
  { by case_decide. }
  split; [done|]. apply Forall_app. split; [done|].
  case_decide as Hk; [|done]. subst k. rewrite Hd in Hp. injection Hp as <-.
  by apply Forall_singleton.
Qed.

Lemma world_in_bounds_example_world : world_in_bounds example_world.
Proof. apply world_in_bounds_quiet. by intros [|[|k]] p [= <-]. Qed.

Lemma world_in_bounds_example_superstep : world_in_bounds example_superstep.
Proof.
  unfold example_superstep.
  eapply world_in_bounds_after_put; [|reflexivity|].
  - eapply world_in_bounds_after_get; [|reflexivity|].
    + apply world_in_bounds_example_world.
    + unfold get_in_bounds, in_address_space, sizeof_get_response_header, INT_MAX.
      cbn [snd gh_size gh_count gh_data_offset gh_target gh_var_id].
      rewrite size_t_small by lia. split; [lia|]. split; [lia|]. split; [lia|].
      intros base [= <-]. lia.
  - unfold put_in_bounds, in_address_space, sizeof_put_header, INT_MAX.
    cbn [snd fst ph_data_offset ph_var_id length].
    split; [lia|]. split; [lia|]. intros base [= <-]. lia.
Qed.

(** ** The superstep barrier *)




(** ** When a remote put becomes visible *)

Lemma lookup_after_put (w : world) (s d i : nat) msg p :
  w !! i = Some p →
  ∃ p1, after_put s d msg w !! i = Some p1
        ∧ heap p1 = heap p
        ∧ locations_ (wp p1) = locations_ (wp p)
        ∧ in_put (net p1)
          = in_put (net p) ++ (if decide (i = d) then [(Z.of_nat s, msg)] else []).
Proof.
  intros Hp. unfold after_put. rewrite list_lookup_imap, Hp. simpl.
  eexists. split; [reflexivity|]. simpl. repeat split. by case_decide.
Qed.

(** Puts that do not cover [a] leave the byte at [a]. *)
Lemma foldl_put_effect_outside (b : bimap) frames : ∀ (m : memory) (a : Z),
  Forall (λ msg, ¬ put_covers b msg a) frames →
  foldl (put_effect b) m frames a = m a.
Proof.
  induction frames as [|msg frames IH]; intros m a Hout; [done|].
  apply Forall_cons in Hout as [Hmsg Hout]. simpl. rewrite IH by done.
  unfold put_effect. destruct (right_find b (ph_var_id msg.2.1)) as [base|] eqn:Hbase; [|done].
  apply write_bytes_outside. intros Ha. apply Hmsg. by exists base.
Qed.

(** C2. Rank [s] puts [size * count] bytes, which lie in the address
    space and which, with the header, an [int] can count, into a location
    that rank [d], another rank, has registered.  When the call returns no
    memory has changed, at [d] or anywhere: the frame waits at the end of
    [d]'s put mailbox.  Whatever else the ranks send before they
    synchronise, as long as the frame is in [d]'s mailbox, the world is
    consistent and every frame that waits in it is in bounds, the [sync]
    completes, and when it has returned the bytes are in [d]'s memory at
    [base + size * offset]: every byte of them that no put received after
    this one, and no response to a get of [d] itself, has overwritten in
    the same [sync]. *)
Theorem remote_put_visible_after_sync (w : world) (s d : nat) (ps pd : process)
    (value variable size offset count id base : Z) :
  consistent w →
  w !! s = Some ps →
  w !! d = Some pd →
  s ≠ d →
  left_find (locations_ (wp ps)) variable = Some id →
  right_find (locations_ (wp pd)) id = Some base →
  0 ≤ size * offset < 2 ^ 64 →
  0 ≤ size * count →
  sizeof_put_header + size * count ≤ INT_MAX →
  in_address_space value (size * count) →
  let msg := ({| ph_var_id := id; ph_data_offset := size * offset |},
              read_bytes (heap ps) value (size * count)) in
  ∃ w1,
    at_rank s (internal_put_ (Z.of_nat d) value variable size offset count) w = Done w1
    ∧ consistent w1
    ∧ (∀ i p, w !! i = Some p →
              ∃ p1, w1 !! i = Some p1
                    ∧ heap p1 = heap p
                    ∧ locations_ (wp p1) = locations_ (wp p)
                    ∧ in_put (net p1)
                      = in_put (net p) ++ (if decide (i = d) then [(Z.of_nat s, msg)] else []))
    ∧ ∀ (w' : world) pd' before later,
        consistent w' →
        world_in_bounds w' →
        w' !! d = Some pd' →
        locations_ (wp pd') = locations_ (wp pd) →
        in_put (net pd') = before ++ (Z.of_nat s, msg) :: later →
        ∃ w2 pd2,
          sync_all w' = Done w2
          ∧ w2 !! d = Some pd2
          ∧ ∀ a, base + size * offset ≤ a < base + size * offset + size * count →
                 Forall (λ m, ¬ put_covers (locations_ (wp pd)) m a) later →
                 (∀ g, g ∈ gets_in_flight w' → g.1 = Z.of_nat d → ¬ get_range g.2 a) →
                 heap pd2 a = heap ps (value + (a - (base + size * offset))).
Proof.
  intros Hw Hs Hd Hne Hid Hbase Hoff Hpos Hint Hvalue msg.
  assert (0 ≤ size * count < 2 ^ 64) as Hlen.
  { unfold sizeof_put_header, INT_MAX in Hint. lia. }
  pose proof (Hw s ps Hs) as Hcs.
  assert (size_t (offset * size) = size * offset) as Hoff'.
  { replace (offset * size) with (size * offset) by lia. by apply size_t_small. }
  pose proof (at_rank_put w s d ps value variable size offset count id) as Hput.
  rewrite Hoff', (size_t_small (size * count)) in Hput by done.
  fold msg in Hput.
  exists (after_put s d msg w).
  split.
  { apply Hput; try done.
    - intros k q Hq. by destruct (Hw k q Hq).
    - by destruct Hcs.
    - destruct Hcs. apply lookup_lt_Some in Hd. lia. }
  split. { eapply consistent_after_put; eauto. }
  split. { intros i p Hp. by apply lookup_after_put. }
  intros w' pd' before later Hw' _ Hpd' Hlocs Hin.
  exists (imap (synced w') w'), (synced w' d pd').
  split; [by apply sync_all_consistent|].
  split; [by rewrite list_lookup_imap, Hpd'|].
  intros a Ha Hlater Hgets. simpl.
  destruct (responses_to_answers w' d Hw') as [Hanswers _].
  rewrite (foldl_response_effect_outside _ _ _ a Hanswers).
  - unfold heap_after_puts. rewrite Hin, Hlocs, foldl_app. simpl.
    rewrite foldl_put_effect_outside by done.
    unfold put_effect at 1. simpl. rewrite Hbase.
    rewrite write_read_bytes by lia. by rewrite decide_True.
  - apply Forall_forall. intros g Hg.
    apply list_elem_of_filter in Hg as [Hsrc Hg]. by apply Hgets.
Qed.

Lemma remote_put_visible_after_sync_witness :
  consistent example_world
  ∧ example_world !! 0%nat = Some (example_rank 0)
  ∧ example_world !! 1%nat = Some (example_rank 1)
  ∧ 0%nat ≠ 1%nat
  ∧ left_find (locations_ (wp (example_rank 0))) 100 = Some 0
  ∧ right_find (locations_ (wp (example_rank 1))) 0 = Some 100
  ∧ 0 ≤ 1 * 1 < 2 ^ 64
  ∧ 0 ≤ 1 * 2
  ∧ sizeof_put_header + 1 * 2 ≤ INT_MAX
  ∧ in_address_space 500 (1 * 2)
  ∧ ∃ w1 p1 w2 p2,
      at_rank 0 (internal_put_ 1 500 100 1 1 2) example_world = Done w1
      ∧ world_in_bounds w1
      ∧ w1 !! 1%nat = Some p1
      ∧ heap p1 <$> [100; 101; 102; 103] = [Byte.x64; Byte.x65; Byte.x66; Byte.x67]
      ∧ sync_all w1 = Done w2
      ∧ w2 !! 1%nat = Some p2
      ∧ heap p2 <$> [101; 102] = [ramp 500; ramp 501].
Proof.
  assert (0 ≤ 1 * 1 < 2 ^ 64) as Hoff by lia.
  assert (0 ≤ 1 * 2) as Hlen by lia.
  assert (sizeof_put_header + 1 * 2 ≤ INT_MAX) as Hint.
  { unfold sizeof_put_header, INT_MAX. lia. }
  assert (in_address_space 500 (1 * 2)) as Hvalue by (unfold in_address_space; lia).
  split; [exact consistent_example_world|].
  do 5 (split; [done|]). do 4 (split; [assumption|]).
  destruct (remote_put_visible_after_sync example_world 0 1 (example_rank 0) (example_rank 1)
              500 100 1 1 2 0 100 consistent_example_world eq_refl eq_refl
              ltac:(done) eq_refl eq_refl Hoff Hlen Hint Hvalue)
    as (w1 & Hput & Hw1 & Hbefore & Hafter).
  destruct (Hbefore 1%nat (example_rank 1) eq_refl) as (p1 & Hp1 & Hheap1 & Hlocs1 & Hin1).
  assert (world_in_bounds w1) as Hb1.
  { pose proof Hput as Hput'.
    rewrite (at_rank_put example_world 0 1 (example_rank 0) 500 100 1 1 2 0) in Hput';
      [|by intros [|[|k]] q [= <-]|done|done|simpl; lia|done|done].
    injection Hput' as <-.
    eapply world_in_bounds_after_put;
      [apply world_in_bounds_example_world|reflexivity|].
    unfold put_in_bounds, in_address_space, sizeof_put_header, INT_MAX.
    cbn [snd fst ph_data_offset ph_var_id].
    rewrite length_read_bytes, !size_t_small by lia.
    split; [lia|]. split; [lia|]. intros base [= <-]. lia. }
  destruct (Hafter w1 p1 [] [] Hw1 Hb1 Hp1 Hlocs1 Hin1) as (w2 & p2 & Hsync & Hp2 & Hbytes).
  exists w1, p1, w2, p2.
  split; [exact Hput|]. split; [exact Hb1|]. split; [exact Hp1|].
  split; [by rewrite Hheap1|].
  split; [exact Hsync|]. split; [exact Hp2|].
  assert (∀ a g, g ∈ gets_in_flight w1 → g.1 = Z.of_nat 1 → ¬ get_range g.2 a) as Hnone.
  { intros a g Hg. vm_compute in Hput. injection Hput as <-.
    by apply not_elem_of_nil in Hg. }
  cbn [fmap list_fmap].
  rewrite (Hbytes 101) by (lia || constructor || apply Hnone).
  rewrite (Hbytes 102) by (lia || constructor || apply Hnone).
  reflexivity.
Defined.

(** ** After [sync] *)











(** ** Ownership of registrations *)

Section var_ownership.
Import Var.

Lemma unregistered_snoc (s s' : state) v c id :
  calls s' = calls s ++ [(v, c)] →
  unregistered id s'
  = (unregistered id s + (if decide (c = Unregister_location id) then 1 else 0))%nat.
Proof.
  intros Hc. unfold unregistered. rewrite Hc, filter_app, length_app.
  rewrite filter_cons, filter_nil. simpl. by case_decide.
Qed.

Lemma registered_snoc (s s' : state) v c id :
  calls s' = calls s ++ [(v, c)] →
  registered id s'
  = (registered id s + (if decide (c = Register_location id) then 1 else 0))%nat.
Proof.
  intros Hc. unfold registered. rewrite Hc, filter_app, length_app.
  rewrite filter_cons, filter_nil. simpl. by case_decide.
Qed.

Lemma inv_initial : inv initial.
Proof.
  constructor; unfold registered, unregistered; simpl; try done.
  - intros q [id Hid]. by rewrite lookup_empty in Hid.
  - intros q [id Hid]. by rewrite lookup_empty in Hid.
  - intros id. rewrite decide_False by lia. done.
  - intros id ?. lia.
Qed.

(** A call that is neither a registration nor an unregistration. *)
Lemma inv_barrier (s s' : state) v :
  inv s →
  vars s' = vars s → impls s' = impls s →
  next_impl s' = next_impl s → next_id s' = next_id s →
  calls s' = calls s ++ [(v, World_barrier)] →
  inv s'.
Proof.
  intros [] Hv Hi Hn Hd Hc.
  assert (∀ id, unregistered id s' = unregistered id s) as Hu.
  { intros id. rewrite (unregistered_snoc s s' v World_barrier id Hc).
    rewrite decide_False by done. lia. }
  assert (∀ id, registered id s' = registered id s) as Hr.
  { intros id. rewrite (registered_snoc s s' v World_barrier id Hc).
    rewrite decide_False by done. lia. }
  constructor; rewrite ?Hv, ?Hi, ?Hn, ?Hd; try done;
    intros; rewrite ?Hu, ?Hr; rewrite ?Hi in *; eauto.
Qed.

(** The pointer of [other] goes to [v], which held none. *)
Lemma inv_transfer (s s' : state) v other t :
  inv s →
  v ≠ other →
  vars s !! other = Some t →
  (vars s !! v = None ∨ vars s !! v = Some None) →
  vars s' = <[v := t]> (<[other := None]> (vars s)) → impls s' = impls s →
  next_impl s' = next_impl s → next_id s' = next_id s → calls s' = calls s →
  inv s'.
Proof.
  intros [] Hne Hother Hv Hvars Hi Hn Hd Hc.
  assert (∀ u q, vars s' !! u = Some (Some q) →
                 (u = v ∧ t = Some q) ∨ (u ≠ v ∧ u ≠ other ∧ vars s !! u = Some (Some q)))
    as Hlook.
  { intros u q. rewrite Hvars. intros Hu.
    destruct (decide (u = v)) as [->|Huv].
    - rewrite lookup_insert_eq in Hu. left. by simplify_eq.
    - rewrite lookup_insert_ne in Hu by done.
      destruct (decide (u = other)) as [->|Huo].
      + by rewrite lookup_insert_eq in Hu.
      + rewrite lookup_insert_ne in Hu by done. by right. }
  constructor; unfold unregistered, registered in *; rewrite ?Hi, ?Hn, ?Hd, ?Hc; try done.
  - intros u q Hu. destruct (Hlook u q Hu) as [[-> ->]|(_ & _ & Hu')]; eauto.
  - intros u1 u2 q Hu1 Hu2.
    destruct (Hlook u1 q Hu1) as [[-> ->]|(? & ? & Hu1')],
             (Hlook u2 q Hu2) as [[-> ?]|(? & ? & Hu2')]; try done.
    + exfalso. by pose proof (inv_unique0 _ _ _ Hother Hu2').
    + exfalso. simplify_eq. by pose proof (inv_unique0 _ _ _ Hother Hu1').
    + eauto.
  - intros q Hq. destruct (inv_owner0 q Hq) as [u Hu].
    destruct (decide (u = other)) as [->|Huo].
    + exists v. rewrite Hvars, lookup_insert_eq. congruence.
    + exists u. rewrite Hvars.
      rewrite lookup_insert_ne by (intros ->; destruct Hv; congruence).
      by rewrite lookup_insert_ne.
Qed.

(** [v] gives up the object it points to, which is deleted. *)
Lemma inv_release (s s' : state) v q id :
  inv s →
  vars s !! v = Some (Some q) →
  impls s !! q = Some id →
  vars s' = <[v := None]> (vars s) → impls s' = delete q (impls s) →
  next_impl s' = next_impl s → next_id s' = next_id s →
  calls s' = calls s ++ [(v, Unregister_location id)] →
  inv s'.
Proof.
  intros [] Hv Hq Hvars Hi Hn Hd Hc.
  assert (∀ id', unregistered id' s'
                 = (unregistered id' s + (if decide (id' = id) then 1 else 0))%nat) as Hu.
  { intros id'. rewrite (unregistered_snoc s s' v _ id' Hc).
    destruct (decide (id' = id)) as [->|?].
    - by rewrite decide_True.
    - rewrite decide_False; [done|]. by intros [= ->]. }
  assert (∀ id', registered id' s' = registered id' s) as Hr.
  { intros id'. rewrite (registered_snoc s s' v _ id' Hc).
    rewrite decide_False by done. lia. }
  assert (∀ u q', vars s' !! u = Some (Some q') → u ≠ v ∧ vars s !! u = Some (Some q'))
    as Hlook.
  { intros u q'. rewrite Hvars. intros Hu'.
    destruct (decide (u = v)) as [->|?].
    - by rewrite lookup_insert_eq in Hu'.
    - by rewrite lookup_insert_ne in Hu'. }
  assert (∀ q' id', impls s' !! q' = Some id' → q' ≠ q ∧ impls s !! q' = Some id') as Hilook.
  { intros q' id'. rewrite Hi. intros Hq'.
    destruct (decide (q' = q)) as [->|?].
    - by rewrite lookup_delete_eq in Hq'.
    - by rewrite lookup_delete_ne in Hq'. }
  constructor; rewrite ?Hn, ?Hd; try done.
  - intros u q' Hu'. destruct (Hlook u q' Hu') as [Hne Hu''].
    destruct (inv_live0 u q' Hu'') as [id' Hid']. exists id'.
    rewrite Hi, lookup_delete_ne; [done|].
    intros ->. by pose proof (inv_unique0 _ _ _ Hv Hu'').
  - intros u1 u2 q' [_ Hu1]%Hlook [_ Hu2]%Hlook. eauto.
  - intros q' [id' [Hne Hq']%Hilook].
    destruct (inv_owner0 q' (mk_is_Some _ _ Hq')) as [u Hu'].
    exists u. rewrite Hvars, lookup_insert_ne; [done|].
    intros ->. congruence.
  - intros q' [id' [_ Hq']%Hilook]. eauto.
  - intros q' id' [_ Hq']%Hilook. eauto.
  - intros q1 q2 id' [_ H1]%Hilook [_ H2]%Hilook. eauto.
  - intros id'. by rewrite Hr.
  - intros q' id' [Hne Hq']%Hilook. rewrite Hu, (inv_held0 q' id' Hq').
    rewrite decide_False; [done|]. intros ->. by pose proof (inv_id_inj0 _ _ _ Hq Hq').
  - intros id' Hrange Hnone. rewrite Hu.
    destruct (decide (id' = id)) as [->|Hne].
    + by rewrite (inv_held0 q id Hq).
    + rewrite inv_released0; [lia|done|].
      intros q' Hq'. apply (Hnone q'). rewrite Hi, lookup_delete_ne; [done|].
      intros ->. congruence.
  - intros id' Hrange. rewrite Hu, (inv_unknown0 id' Hrange).
    rewrite decide_False; [done|]. intros ->.
    apply Hrange. by eapply inv_id_range0.
Qed.

(** A [var<T>] whose pointer is null goes away. *)
Lemma inv_forget (s s' : state) v :
  inv s →
  vars s !! v = Some None →
  vars s' = delete v (vars s) → impls s' = impls s →
  next_impl s' = next_impl s → next_id s' = next_id s → calls s' = calls s →
  inv s'.
Proof.
  intros [] Hv Hvars Hi Hn Hd Hc.
  assert (∀ u q', vars s' !! u = Some (Some q') → vars s !! u = Some (Some q')) as Hlook.
  { intros u q'. rewrite Hvars. intros Hu.
    destruct (decide (u = v)) as [->|?].
    - by rewrite lookup_delete_eq in Hu.
    - by rewrite lookup_delete_ne in Hu. }
  constructor; unfold unregistered, registered in *; rewrite ?Hi, ?Hn, ?Hd, ?Hc; try done.
  - intros u q' Hu%Hlook. eauto.
  - intros u1 u2 q' Hu1%Hlook Hu2%Hlook. eauto.
  - intros q' Hq'. destruct (inv_owner0 q' Hq') as [u Hu].
    exists u. rewrite Hvars, lookup_delete_ne; [done|]. intros ->. congruence.
Qed.

(** A new [var<T>] with a new [var_impl]. *)
Lemma inv_construct (s s' : state) v :
  inv s →
  vars s !! v = None →
  vars s' = <[v := Some (next_impl s)]> (vars s) →
  impls s' = <[next_impl s := next_id s]> (impls s) →
  next_impl s' = S (next_impl s) → next_id s' = next_id s + 1 →
  calls s' = calls s ++ [(v, Register_location (next_id s))] →
  inv s'.
Proof.
  intros [] Hv Hvars Hi Hn Hd Hc.
  assert (∀ id', unregistered id' s' = unregistered id' s) as Hu.
  { intros id'. rewrite (unregistered_snoc s s' v _ id' Hc).
    rewrite decide_False by done. lia. }
  assert (∀ id', registered id' s'
                 = (registered id' s + (if decide (id' = next_id s) then 1 else 0))%nat) as Hr.
  { intros id'. rewrite (registered_snoc s s' v _ id' Hc).
    destruct (decide (id' = next_id s)) as [->|?].
    - by rewrite decide_True.
    - rewrite decide_False; [done|]. congruence. }
  assert (impls s !! next_impl s = None) as Hfresh.
  { destruct (impls s !! next_impl s) as [id'|] eqn:Hq; [|done].
    pose proof (inv_next_impl0 _ (mk_is_Some _ _ Hq)). lia. }
  assert (∀ u q', vars s' !! u = Some (Some q') →
                  (u = v ∧ q' = next_impl s) ∨ (u ≠ v ∧ vars s !! u = Some (Some q')))
    as Hlook.
  { intros u q'. rewrite Hvars. intros Hu'.
    destruct (decide (u = v)) as [->|?].
    - rewrite lookup_insert_eq in Hu'. left. by simplify_eq.
    - rewrite lookup_insert_ne in Hu' by done. by right. }
  assert (∀ q' id', impls s' !! q' = Some id' →
                    (q' = next_impl s ∧ id' = next_id s)
                    ∨ (q' ≠ next_impl s ∧ impls s !! q' = Some id')) as Hilook.
  { intros q' id'. rewrite Hi. intros Hq'.
    destruct (decide (q' = next_impl s)) as [->|?].
    - rewrite lookup_insert_eq in Hq'. left. by simplify_eq.
    - rewrite lookup_insert_ne in Hq' by done. by right. }
  constructor; rewrite ?Hn, ?Hd.
  - intros u q' [[-> ->]|[Hne Hu']]%Hlook.
    + rewrite Hi, lookup_insert_eq. by eexists.
    + destruct (inv_live0 u q' Hu') as [id' Hid']. exists id'.
      rewrite Hi, lookup_insert_ne; [done|]. congruence.
  - intros u1 u2 q' [[-> ->]|[? Hu1]]%Hlook [[-> ?]|[? Hu2]]%Hlook; try done.
    + destruct (inv_live0 _ _ Hu2) as [? ?]. congruence.
    + subst. destruct (inv_live0 _ _ Hu1) as [? ?]. congruence.
    + eauto.
  - intros q' [id' [[-> ->]|[Hne Hq']]%Hilook].
    + exists v. by rewrite Hvars, lookup_insert_eq.
    + destruct (inv_owner0 q' (mk_is_Some _ _ Hq')) as [u Hu'].
      exists u. rewrite Hvars, lookup_insert_ne; [done|]. congruence.
  - intros q' [id' [[-> ->]|[Hne Hq']]%Hilook]; [lia|].
    pose proof (inv_next_impl0 q' (mk_is_Some _ _ Hq')). lia.
  - lia.
  - intros q' id' [[-> ->]|[Hne Hq']]%Hilook; [lia|].
    pose proof (inv_id_range0 q' id' Hq'). lia.
  - intros q1 q2 id' [[-> ->]|[? H1]]%Hilook [[-> ?]|[? H2]]%Hilook; try done.
    + pose proof (inv_id_range0 _ _ H2). lia.
    + subst. pose proof (inv_id_range0 _ _ H1). lia.
    + eauto.
  - intros id'. rewrite Hr, inv_registered0.
    repeat case_decide; lia.
  - intros q' id' [[-> ->]|[Hne Hq']]%Hilook; rewrite Hu.
    + apply inv_unknown0. lia.
    + eauto.
  - intros id' Hrange Hnone. rewrite Hu.
    assert (id' ≠ next_id s) as Hne.
    { intros ->. apply (Hnone (next_impl s)). by rewrite Hi, lookup_insert_eq. }
    apply inv_released0; [lia|].
    intros q' Hq'. apply (Hnone q'). rewrite Hi, lookup_insert_ne; [done|].
    congruence.
  - intros id' Hrange. rewrite Hu. apply inv_unknown0. lia.
Qed.

Lemma inv_ext (s s' : state) :
  inv s →
  vars s' = vars s → impls s' = impls s →
  next_impl s' = next_impl s → next_id s' = next_id s → calls s' = calls s →
  inv s'.
Proof.
  intros [] Hv Hi Hn Hd Hc.
  constructor; unfold unregistered, registered in *; rewrite ?Hv, ?Hi, ?Hn, ?Hd, ?Hc; done.
Qed.

(** What [impl_ = std::move(other.impl_)] does between two different
    objects: the pointer moves, the source is null, and the object the
    destination pointed to, if any, is deleted in the name of [v]. *)
Lemma move_impl_spec (s s' : state) v other :
  v ≠ other →
  move_impl v other s = Some s' →
  ∃ t o,
    vars s !! other = Some t ∧ vars s !! v = Some o
    ∧ vars s' = <[v := t]> (<[other := None]> (vars s))
    ∧ next_impl s' = next_impl s ∧ next_id s' = next_id s
    ∧ match o with
      | None => impls s' = impls s ∧ calls s' = calls s
      | Some q0 => ∃ id0, impls s !! q0 = Some id0
                          ∧ impls s' = delete q0 (impls s)
                          ∧ calls s' = calls s ++ [(v, Unregister_location id0)]
      end.
Proof.
  intros Hne. unfold move_impl.
  destruct (vars s !! other) as [t|] eqn:Hother; simpl; [|done].
  rewrite lookup_insert_ne by done.
  destruct (vars s !! v) as [o|] eqn:Hv; simpl; [|done].
  destruct o as [q0|].
  - unfold delete_impl. simpl.
    destruct (impls s !! q0) as [id0|] eqn:Hq0; simpl; [|done].
    intros [= <-]. exists t, (Some q0). simpl. repeat split; eauto.
  - intros [= <-]. exists t, None. simpl. done.
Qed.

(** Moving an object onto itself changes nothing. *)
Lemma move_impl_self (s s' : state) v :
  move_impl v v s = Some s' →
  is_Some (vars s !! v)
  ∧ vars s' = vars s ∧ impls s' = impls s
  ∧ next_impl s' = next_impl s ∧ next_id s' = next_id s ∧ calls s' = calls s.
Proof.
  unfold move_impl.
  destruct (vars s !! v) as [t|] eqn:Hv; simpl; [|done].
  rewrite lookup_insert_eq. simpl. intros [= <-]. simpl.
  split; [done|]. split; [|done].
  rewrite insert_insert_eq. by apply insert_id.
Qed.

(** What the destructor does. *)
Lemma destroy_spec (s s' : state) v :
  step (Destroy v) s = Some s' →
  ∃ o, vars s !! v = Some o
       ∧ vars s' = delete v (vars s)
       ∧ next_impl s' = next_impl s ∧ next_id s' = next_id s
       ∧ match o with
         | None => impls s' = impls s ∧ calls s' = calls s
         | Some q => ∃ id, impls s !! q = Some id
                           ∧ impls s' = delete q (impls s)
                           ∧ calls s' = (calls s ++ [(v, World_barrier)])
                                        ++ [(v, Unregister_location id)]
         end.
Proof.
  simpl. destruct (vars s !! v) as [o|] eqn:Hv; simpl; [|done].
  destruct o as [q|].
  - unfold delete_impl. simpl.
    destruct (impls s !! q) as [id|] eqn:Hq; simpl; [|done].
    intros [= <-]. exists (Some q). simpl. repeat split; eauto.
  - intros [= <-]. exists None. done.
Qed.

(** Every operation keeps the invariant. *)
Lemma step_inv (o : op) (s s' : state) : inv s → step o s = Some s' → inv s'.
Proof.
  intros Hinv. destruct o as [v|v other|v other|v].
  - simpl. destruct (vars s !! v) eqn:Hv; [done|].
    intros [= <-]. by apply (inv_construct s _ v).
  - simpl. destruct (vars s !! v) eqn:Hv; [done|].
    case_decide as Hne; [done|]. intros Hmove.
    destruct (move_impl_spec _ _ _ _ Hne Hmove)
      as (t & o & Hother & Hv' & Hvars & Hn & Hd & Ho).
    simpl in *. rewrite lookup_insert_ne in Hother by done.
    rewrite lookup_insert_eq in Hv'. simplify_eq. destruct Ho as [Hi Hc].
    apply (inv_transfer s s' v other t); auto.
    rewrite Hvars, (insert_insert_ne _ other v) by done.
    by rewrite insert_insert_eq.
  - simpl. destruct (decide (v = other)) as [->|Hne].
    + intros (_ & ? & ? & ? & ? & ?)%move_impl_self. by apply (inv_ext s).
    + intros Hmove.
      destruct (move_impl_spec _ _ _ _ Hne Hmove)
        as (t & o & Hother & Hv & Hvars & Hn & Hd & Ho).
      destruct o as [q0|].
      * destruct Ho as (id0 & Hq0 & Hi & Hc).
        apply (inv_transfer
                 {| vars := <[v := None]> (vars s); impls := delete q0 (impls s);
                    next_impl := next_impl s; next_id := next_id s;
                    calls := calls s ++ [(v, Unregister_location id0)] |}
                 s' v other t); simpl; auto.
        -- by apply (inv_release s _ v q0 id0).
        -- by rewrite lookup_insert_ne.
        -- right. by rewrite lookup_insert_eq.
        -- rewrite Hvars, (insert_insert_ne _ other v) by done.
           by rewrite insert_insert_eq.
      * destruct Ho as [Hi Hc]. apply (inv_transfer s s' v other t); auto.
  - intros (o & Hv & Hvars & Hn & Hd & Ho)%destroy_spec.
    destruct o as [q|].
    + destruct Ho as (id & Hq & Hi & Hc).
      apply (inv_forget
               {| vars := <[v := None]> (vars s); impls := delete q (impls s);
                  next_impl := next_impl s; next_id := next_id s;
                  calls := (calls s ++ [(v, World_barrier)])
                           ++ [(v, Unregister_location id)] |}
               s' v); simpl; auto.
      * apply (inv_release
                 {| vars := vars s; impls := impls s; next_impl := next_impl s;
                    next_id := next_id s; calls := calls s ++ [(v, World_barrier)] |}
                 _ v q id); simpl; auto.
        by apply (inv_barrier s _ v).
      * by rewrite lookup_insert_eq.
      * by rewrite Hvars, delete_insert_eq.
    + destruct Ho as [Hi Hc]. by apply (inv_forget s s' v).
Qed.

Lemma run_inv (os : list op) : ∀ s s', inv s → run os s = Some s' → inv s'.
Proof.
  induction os as [|o os IH]; intros s s' Hinv; simpl.
  - by intros [= <-].
  - destruct (step o s) as [s1|] eqn:Hstep; simpl; [|done].
    apply IH. by eapply step_inv.
Qed.

Lemma reachable_inv (s : state) : reachable s → inv s.
Proof. intros [os Hrun]. eapply run_inv; [apply inv_initial|done]. Qed.

(** The calls an operation adds, and in whose name. *)
Lemma step_calls (o : op) (s s' : state) :
  step o s = Some s' →
  ∃ new, calls s' = calls s ++ new
         ∧ ∀ v id, (v, Unregister_location id) ∈ new → owns s v id.
Proof.
  destruct o as [v|v other|v other|v].
  - simpl. destruct (vars s !! v) eqn:Hv; [done|]. intros [= <-]. simpl.
    eexists. split; [reflexivity|].
    intros u id Hin. apply list_elem_of_singleton in Hin. done.
  - simpl. destruct (vars s !! v) eqn:Hv; [done|].
    case_decide as Hne; [done|]. intros Hmove.
    destruct (move_impl_spec _ _ _ _ Hne Hmove) as (t & o & _ & Hv' & _ & _ & _ & Ho).
    simpl in *. rewrite lookup_insert_eq in Hv'. simplify_eq. destruct Ho as [_ ->].
    exists []. split; [by rewrite app_nil_r|]. intros u id Hin. by apply not_elem_of_nil in Hin.
  - simpl. destruct (decide (v = other)) as [->|Hne].
    + intros (_ & _ & _ & _ & _ & ->)%move_impl_self.
      exists []. split; [by rewrite app_nil_r|].
      intros u id Hin. by apply not_elem_of_nil in Hin.
    + intros Hmove.
      destruct (move_impl_spec _ _ _ _ Hne Hmove) as (t & o & _ & Hv & _ & _ & _ & Ho).
      destruct o as [q0|].
      * destruct Ho as (id0 & Hq0 & _ & ->). eexists. split; [reflexivity|].
        intros u id Hin. apply list_elem_of_singleton in Hin. simplify_eq.
        by exists q0.
      * destruct Ho as [_ ->]. exists []. split; [by rewrite app_nil_r|].
        intros u id Hin. by apply not_elem_of_nil in Hin.
  - intros (o & Hv & _ & _ & _ & Ho)%destroy_spec.
    destruct o as [q|].
    + destruct Ho as (id0 & Hq & _ & ->). rewrite <- app_assoc.
      eexists. split; [reflexivity|].
      intros u id Hin. simpl in Hin.
      apply elem_of_cons in Hin as [?|Hin]; [done|].
      apply list_elem_of_singleton in Hin. simplify_eq. by exists q.
    + destruct Ho as [_ ->]. exists []. split; [by rewrite app_nil_r|].
      intros u id Hin. by apply not_elem_of_nil in Hin.
Qed.

(** The destructor of an object that holds a registration. *)
Lemma destroy_owner (t : state) (v q : nat) (id : Z) :
  inv t →
  vars t !! v = Some (Some q) →
  impls t !! q = Some id →
  ∃ t', step (Destroy v) t = Some t'
        ∧ calls t' = calls t ++ [(v, World_barrier); (v, Unregister_location id)]
        ∧ unregistered id t' = 1%nat
        ∧ ∀ u, ¬ owns t' u id.
Proof.
  intros Hinv Hv Hq.
  assert (∃ t', step (Destroy v) t = Some t'
                ∧ calls t' = calls t ++ [(v, World_barrier); (v, Unregister_location id)]
                ∧ impls t' = delete q (impls t)) as (t' & Hstep & Hcalls & Himpls).
  { simpl. rewrite Hv. simpl. unfold delete_impl. simpl. rewrite Hq. simpl.
    eexists. split; [reflexivity|]. simpl. by rewrite <- app_assoc. }
  exists t'. split; [done|]. split; [done|]. split.
  - unfold unregistered. rewrite Hcalls, filter_app, length_app.
    pose proof (inv_held t Hinv q id Hq) as Hheld. unfold unregistered in Hheld.
    rewrite Hheld, filter_cons, decide_False by done.
    by rewrite filter_cons, decide_True, filter_nil.
  - intros u (q' & _ & Hq'). rewrite Himpls in Hq'.
    apply lookup_delete_Some in Hq' as [Hne Hq'].
    by pose proof (inv_id_inj t Hinv q q' id Hq Hq').
Qed.

(** A move between two objects returns. *)
Lemma move_returns (s : state) (v other q : nat) :
  inv s →
  v ≠ other →
  vars s !! other = Some (Some q) →
  (vars s !! v = None → is_Some (step (Move_construct v other) s))
  ∧ (is_Some (vars s !! v) → is_Some (step (Move_assign v other) s)).
Proof.
  intros Hinv Hne Hother. split.
  - intros Hv. simpl. rewrite Hv, decide_False by done.
    unfold move_impl. simpl. rewrite (lookup_insert_ne _ v other) by done.
    rewrite Hother. simpl.
    rewrite (lookup_insert_ne _ other v) by done.
    rewrite lookup_insert_eq. simpl. by eexists.
  - intros [o Hv]. simpl. unfold move_impl. rewrite Hother. simpl.
    rewrite (lookup_insert_ne _ other v) by done. rewrite Hv. simpl.
    destruct o as [q0|]; [|by eexists].
    destruct (inv_live s Hinv v q0 Hv) as [id0 Hid0].
    unfold delete_impl. simpl. rewrite Hid0. simpl. by eexists.
Qed.

(** C10. In every state a program can reach: a move construction of [v],
    and a move assignment to [v], from another object [other] that holds a
    registration return; [v] holds the registration afterwards, with the
    same id, [other] holds nothing, and no third object holds it.
    Destroying [other] then makes no call on the world, neither the barrier
    nor the unregistration; destroying [v] runs the barrier and then
    unregisters the id, which was not unregistered before and is
    unregistered once after, and no object holds it any more.  So does the
    destructor of every object that holds a registration.  Every id handed
    out was registered once; it has not been unregistered while an object
    holds it and has been unregistered once when none does, and every
    unregistration is made in the name of the object that held the id when
    the operation began. *)
Theorem registration_follows_the_move (s : state) :
  reachable s →
  (∀ v other q,
     v ≠ other →
     vars s !! other = Some (Some q) →
     (vars s !! v = None → is_Some (step (Move_construct v other) s))
     ∧ (is_Some (vars s !! v) → is_Some (step (Move_assign v other) s))
     ∧ ∀ s',
         step (Move_construct v other) s = Some s'
         ∨ step (Move_assign v other) s = Some s' →
         vars s' !! v = Some (Some q)
         ∧ vars s' !! other = Some None
         ∧ (∀ u, vars s' !! u = Some (Some q) → u = v)
         ∧ impls s' !! q = impls s !! q
         ∧ is_Some (impls s' !! q)
         ∧ (∃ s'', step (Destroy other) s' = Some s''
                   ∧ calls s'' = calls s' ∧ impls s'' = impls s')
         ∧ ∃ id s'',
             impls s !! q = Some id
             ∧ unregistered id s' = 0%nat
             ∧ step (Destroy v) s' = Some s''
             ∧ calls s'' = calls s' ++ [(v, World_barrier); (v, Unregister_location id)]
             ∧ unregistered id s'' = 1%nat
             ∧ ∀ u, ¬ owns s'' u id)
  ∧ (∀ v id, owns s v id →
             ∃ s', step (Destroy v) s = Some s'
                   ∧ calls s' = calls s ++ [(v, World_barrier); (v, Unregister_location id)]
                   ∧ unregistered id s' = 1%nat
                   ∧ ∀ u, ¬ owns s' u id)
  ∧ (∀ id, 0 ≤ id < next_id s →
           registered id s = 1%nat
           ∧ (∀ v, owns s v id → unregistered id s = 0%nat)
           ∧ ((∀ v, ¬ owns s v id) → unregistered id s = 1%nat))
  ∧ (∀ o s', step o s = Some s' →
             ∃ new, calls s' = calls s ++ new
                    ∧ ∀ v id, (v, Unregister_location id) ∈ new → owns s v id).
Proof.
  intros Hinv%reachable_inv. split; [|split; [|split]].
  - intros v other q Hne Hother.
    destruct (move_returns s v other q Hinv Hne Hother) as [Hconstruct Hassign].
    split; [done|]. split; [done|]. intros s' Hstep.
    assert (inv s') as Hinv'.
    { destruct Hstep as [Hstep|Hstep]; by eapply step_inv. }
    assert (∃ o, vars s' = <[v := Some q]> (<[other := None]> (vars s))
                 ∧ (o = None ∨ vars s !! v = Some o)
                 ∧ match o with
                   | None => impls s' = impls s
                   | Some q0 => impls s' = delete q0 (impls s)
                   end) as (o & Hvars & Hv & Hi).
    { destruct Hstep as [Hstep|Hstep]; simpl in Hstep.
      - destruct (vars s !! v) eqn:Hv; [done|].
        rewrite decide_False in Hstep by done.
        destruct (move_impl_spec _ _ _ _ Hne Hstep)
          as (t & o & Hother' & Hv' & Hvars & _ & _ & Ho).
        simpl in *. rewrite lookup_insert_ne in Hother' by done.
        rewrite lookup_insert_eq in Hv'. simplify_eq. destruct Ho as [Hi _].
        exists None. split; [|by split; [left|]].
        rewrite Hvars, (insert_insert_ne _ other v) by done.
        by rewrite insert_insert_eq.
      - destruct (move_impl_spec _ _ _ _ Hne Hstep)
          as (t & o & Hother' & Hv' & Hvars & _ & _ & Ho).
        simplify_eq. exists o. split; [done|]. split; [by right|].
        destruct o as [q0|]; [by destruct Ho as (? & _ & ? & _)|by destruct Ho]. }
    assert (impls s' !! q = impls s !! q) as Hq.
    { destruct o as [q0|]; rewrite Hi; [|done].
      apply lookup_delete_ne. intros ->.
      destruct Hv as [Hv|Hv]; [done|].
      by pose proof (inv_unique _ Hinv _ _ _ Hv Hother). }
    assert (vars s' !! v = Some (Some q)) as Hv'.
    { by rewrite Hvars, lookup_insert_eq. }
    split; [done|].
    split. { rewrite Hvars, lookup_insert_ne by done. by rewrite lookup_insert_eq. }
    split.
    { intros u. rewrite Hvars. intros Hu.
      destruct (decide (u = v)) as [|Huv]; [done|].
      rewrite lookup_insert_ne in Hu by done.
      destruct (decide (u = other)) as [->|Huo].
      - by rewrite lookup_insert_eq in Hu.
      - rewrite lookup_insert_ne in Hu by done.
        by pose proof (inv_unique _ Hinv _ _ _ Hu Hother). }
    split; [done|].
    split. { rewrite Hq. by eapply inv_live. }
    split.
    { simpl. rewrite Hvars, lookup_insert_ne by done. rewrite lookup_insert_eq. simpl.
      eexists. split; [reflexivity|]. done. }
    destruct (inv_live s Hinv other q Hother) as [id Hid].
    assert (impls s' !! q = Some id) as Hid' by (by rewrite Hq).
    destruct (destroy_owner s' v q id Hinv' Hv' Hid') as (s'' & Hd & Hc & Hu & Hnone).
    exists id, s''. split; [done|].
    split; [by apply (inv_held s' Hinv' q id)|]. done.
  - intros v id (q & Hv & Hq). by apply (destroy_owner s v q id).
  - intros id Hrange. split; [|split].
    + rewrite (inv_registered _ Hinv). by rewrite decide_True.
    + intros v (q & _ & Hq). by eapply inv_held.
    + intros Hnone. apply (inv_released _ Hinv); [done|].
      intros q Hq. destruct (inv_owner _ Hinv q (mk_is_Some _ _ Hq)) as [v Hv].
      apply (Hnone v). by exists q.
  - intros o s'. apply step_calls.
Qed.

Lemma registration_follows_the_move_witness :
  reachable example_two_vars
  ∧ ∃ s' s'' s''',
      step (Move_assign 1 0) example_two_vars = Some s'
      ∧ vars s' !! 1%nat = Some (Some 0%nat)
      ∧ vars s' !! 0%nat = Some None
      ∧ calls s' = [(0%nat, Register_location 0); (1%nat, Register_location 1);
                    (1%nat, Unregister_location 1)]
      ∧ step (Destroy 0) s' = Some s''
      ∧ calls s'' = calls s'
      ∧ step (Destroy 1) s' = Some s'''
      ∧ calls s''' = calls s' ++ [(1%nat, World_barrier); (1%nat, Unregister_location 0)].
Proof.
  assert (reachable example_two_vars) as Hr.
  { exists [Construct 0; Construct 1]. reflexivity. }
  split; [exact Hr|].
  destruct (registration_follows_the_move example_two_vars Hr) as (Hmove & _ & _ & _).
  assert (∃ s', step (Move_assign 1 0) example_two_vars = Some s'
                ∧ calls s' = [(0%nat, Register_location 0); (1%nat, Register_location 1);
                              (1%nat, Unregister_location 1)]) as (s' & Hs' & Hc).
  { eexists. split; reflexivity. }
  destruct (Hmove 1%nat 0%nat 0%nat) as (_ & _ & Hafter); [done|reflexivity|].
  destruct (Hafter s') as (H1 & H2 & _ & _ & _ & (s'' & H3 & H4 & _) & Hdestroy);
    [by right|].
  destruct Hdestroy as (id & s''' & Hid & _ & H5 & H6 & _).
  injection Hid as <-.
  exists s', s'', s'''. by repeat split.
Defined.

End var_ownership.

(** * Further properties *)

(** ** The registry as a bijection *)

Lemma left_find_None (b : bimap) (l : Z) : left_find b l = None ↔ l ∉ b.*1.
Proof.
  induction b as [|[l' i'] b IH]; simpl.
  - split; [intros _; apply not_elem_of_nil|done].
  - rewrite not_elem_of_cons. case_decide as Hne.
    + split; [done|]. intros [? _]. congruence.
    + rewrite IH. split; [intros ?; split; [congruence|done]|by intros [_ ?]].
Qed.

Lemma right_find_None (b : bimap) (i : Z) : right_find b i = None ↔ i ∉ b.*2.
Proof.
  induction b as [|[l' i'] b IH]; simpl.
  - split; [intros _; apply not_elem_of_nil|done].
  - rewrite not_elem_of_cons. case_decide as Hne.
    + split; [done|]. intros [? _]. congruence.
    + rewrite IH. split; [intros ?; split; [congruence|done]|by intros [_ ?]].
Qed.

Lemma left_find_Some (b : bimap) (l i : Z) :
  NoDup (b.*1) → left_find b l = Some i ↔ (l, i) ∈ b.
Proof.
  induction b as [|[l' i'] b IH]; simpl; intros Hnd.
  - split; [done|]. intros H. by apply not_elem_of_nil in H.
  - apply NoDup_cons in Hnd as [Hl' Hnd]. rewrite elem_of_cons.
    case_decide as Hl; [subst l'|].
    + split; [intros [= ->]; by left|].
      intros [[= ->]|Hin]; [done|].
      exfalso. apply Hl'. apply list_elem_of_fmap. by exists (l, i).
    + rewrite (IH Hnd). split; [by right|]. intros [[= -> ->]|?]; done.
Qed.

Lemma right_find_Some (b : bimap) (l i : Z) :
  NoDup (b.*2) → right_find b i = Some l ↔ (l, i) ∈ b.
Proof.
  induction b as [|[l' i'] b IH]; simpl; intros Hnd.
  - split; [done|]. intros H. by apply not_elem_of_nil in H.
  - apply NoDup_cons in Hnd as [Hi' Hnd]. rewrite elem_of_cons.
    case_decide as Hi; [subst i'|].
    + split; [intros [= ->]; by left|].
      intros [[= ->]|Hin]; [done|].
      exfalso. apply Hi'. apply list_elem_of_fmap. by exists (l, i).
    + rewrite (IH Hnd). split; [by right|]. intros [[= -> ->]|?]; done.
Qed.

Lemma bimap_insert_wf (b : bimap) (l i : Z) : bimap_wf b → bimap_wf (bimap_insert l i b).
Proof.
  intros [H1 H2]. unfold bimap_insert.
  destruct (left_find b l) eqn:Hl; [done|].
  destruct (right_find b i) eqn:Hi; [done|].
  apply left_find_None in Hl. apply right_find_None in Hi.
  unfold bimap_wf. rewrite !fmap_app. simpl. split.
  - apply NoDup_app. split; [done|]. split; [|apply NoDup_singleton].
    intros x Hx ->%list_elem_of_singleton. done.
  - apply NoDup_app. split; [done|]. split; [|apply NoDup_singleton].
    intros x Hx ->%list_elem_of_singleton. done.
Qed.

Lemma left_erase_wf (b : bimap) (l : Z) : bimap_wf b → bimap_wf (left_erase l b).
Proof.
  intros [H1 H2]. unfold left_erase, bimap_wf. split.
  - eapply sublist_NoDup; [exact H1|]. apply fmap_sublist, sublist_filter.
  - eapply sublist_NoDup; [exact H2|]. apply fmap_sublist, sublist_filter.
Qed.

Lemma left_erase_below (b : bimap) (l v : Z) :
  Forall (λ e : Z * Z, e.2 < v) b → Forall (λ e : Z * Z, e.2 < v) (left_erase l b).
Proof.
  intros Hb. rewrite Forall_forall in Hb. apply Forall_forall.
  intros e [_ He]%list_elem_of_filter. by apply Hb.
Qed.

Lemma elem_of_left_erase (b : bimap) (l : Z) (e : Z * Z) :
  e ∈ left_erase l b ↔ e.1 ≠ l ∧ e ∈ b.
Proof. unfold left_erase. by rewrite list_elem_of_filter. Qed.

(** X1. Starting from a registry whose two key sides are sets and whose ids
    are below [vars_] (the empty registry of the constructor is one), any
    sequence of [register_location_] and [unregister_location_] returns,
    keeps both properties, and leaves a registry whose two views are
    inverse to each other: a location resolves to an id exactly when that
    id resolves to the location. *)
Theorem registry_views_stay_inverse (os : list registry_op) (p : process) :
  bimap_wf (locations_ (wp p)) →
  ids_below_vars (wp p) →
  ∃ p', registry_run os p = Done p'
        ∧ bimap_wf (locations_ (wp p'))
        ∧ ids_below_vars (wp p')
        ∧ ∀ l i, left_at (locations_ (wp p')) l = Done i
                 ↔ right_at (locations_ (wp p')) i = Done l.
Proof.
  revert p. induction os as [|o os IH]; intros p Hwf Hids.
  - exists p. split; [done|]. split; [done|]. split; [done|].
    intros l i. unfold left_at, right_at. destruct Hwf as [H1 H2].
    destruct (left_find _ l) as [i'|] eqn:Hl, (right_find _ i) as [l'|] eqn:Hi; simpl.
    + apply (left_find_Some _ _ _ H1) in Hl. apply (right_find_Some _ _ _ H2) in Hi.
      split; intros [= ->].
      * f_equal. apply (right_find_Some _ _ _ H2) in Hl.
        apply (right_find_Some _ _ _ H2) in Hi. congruence.
      * f_equal. apply (left_find_Some _ _ _ H1) in Hl.
        apply (left_find_Some _ _ _ H1) in Hi. congruence.
    + split; [|done]. intros [= ->].
      apply (left_find_Some _ _ _ H1), (right_find_Some _ _ _ H2) in Hl. congruence.
    + split; [done|]. intros [= ->].
      apply (right_find_Some _ _ _ H2), (left_find_Some _ _ _ H1) in Hi. congruence.
    + done.
  - destruct o as [location size|location]; simpl.
    + apply IH; simpl.
      * by apply bimap_insert_wf.
      * unfold ids_below_vars in *. simpl. apply bimap_insert_below; [|lia].
        eapply Forall_impl; [exact Hids|]. simpl. intros; lia.
    + apply IH; simpl.
      * by apply left_erase_wf.
      * unfold ids_below_vars in *. simpl. by apply left_erase_below.
Qed.

Lemma filter_all {A} (P : A → Prop) `{!∀ x, Decision (P x)} (l : list A) :
  Forall P l → filter P l = l.
Proof.
  induction 1 as [|x l Hx _ IH]; [done|].
  rewrite filter_cons, decide_True by done. by rewrite IH.
Qed.

(** X2. [unregister_location_] on a registry whose key sides are sets:
    the location no longer resolves, and neither does the id it had; every
    other location and every other id resolves as before; a location that
    was not registered leaves the registry as it was.  The id counter, the
    superstep counters, the memory and the mailboxes are untouched. *)
Theorem unregister_location_removes_pair (p : process) (location : Z) :
  bimap_wf (locations_ (wp p)) →
  left_at (locations_ (wp (unregister_location_ location p))) location = Fault Out_of_range
  ∧ (∀ i, left_find (locations_ (wp p)) location = Some i →
          right_at (locations_ (wp (unregister_location_ location p))) i
          = Fault Out_of_range)
  ∧ (∀ l, l ≠ location →
          left_find (locations_ (wp (unregister_location_ location p))) l
          = left_find (locations_ (wp p)) l)
  ∧ (∀ i, left_find (locations_ (wp p)) location ≠ Some i →
          right_find (locations_ (wp (unregister_location_ location p))) i
          = right_find (locations_ (wp p)) i)
  ∧ (left_find (locations_ (wp p)) location = None →
     locations_ (wp (unregister_location_ location p)) = locations_ (wp p))
  ∧ vars_ (wp (unregister_location_ location p)) = vars_ (wp p)
  ∧ put_counts_ (wp (unregister_location_ location p)) = put_counts_ (wp p)
  ∧ get_counts_ (wp (unregister_location_ location p)) = get_counts_ (wp p)
  ∧ local_gets_ (wp (unregister_location_ location p)) = local_gets_ (wp p)
  ∧ heap (unregister_location_ location p) = heap p
  ∧ net (unregister_location_ location p) = net p.
Proof.
  intros Hwf. pose proof (left_erase_wf _ location Hwf) as Hwf'.
  destruct Hwf as [H1 H2], Hwf' as [H1' H2']. simpl.
  set (b := locations_ (wp p)) in *.
  split.
  { unfold left_at.
    assert (left_find (left_erase location b) location = None) as ->; [|done].
    apply left_find_None. intros ([l i] & -> & He)%list_elem_of_fmap.
    apply elem_of_left_erase in He as [Hne _]. done. }
  split.
  { intros i Hi. unfold right_at.
    assert (right_find (left_erase location b) i = None) as ->; [|done].
    apply (left_find_Some _ _ _ H1), (right_find_Some _ _ _ H2) in Hi.
    destruct (right_find (left_erase location b) i) as [l|] eqn:Hl; [|done].
    apply (right_find_Some _ _ _ H2'), elem_of_left_erase in Hl as [Hne Hl].
    apply (right_find_Some _ _ _ H2) in Hl. simpl in Hne. congruence. }
  split.
  { intros l Hne. apply option_eq. intros i.
    rewrite (left_find_Some _ _ _ H1'), (left_find_Some _ _ _ H1), elem_of_left_erase.
    simpl. split; [by intros [_ ?]|done]. }
  split.
  { intros i Hi. apply option_eq. intros l.
    rewrite (right_find_Some _ _ _ H2'), (right_find_Some _ _ _ H2), elem_of_left_erase.
    simpl. split; [by intros [_ ?]|]. intros Hin. split; [|done].
    intros ->. apply Hi. by apply (left_find_Some _ _ _ H1). }
  split; [|done].
  intros Hnone. apply left_find_None in Hnone. unfold left_erase.
  apply filter_all, Forall_forall. intros [l i] Hin. simpl. intros ->.
  apply Hnone, list_elem_of_fmap. by exists (location, i).
Qed.

Lemma unregister_location_removes_pair_witness :
  bimap_wf (locations_ (wp (example_rank 0)))
  ∧ left_at (locations_ (wp (unregister_location_ 100 (example_rank 0)))) 100
    = Fault Out_of_range
  ∧ right_at (locations_ (wp (unregister_location_ 100 (example_rank 0)))) 0
    = Fault Out_of_range
  ∧ locations_ (wp (unregister_location_ 200 (example_rank 0)))
    = locations_ (wp (example_rank 0)).
Proof.
  assert (bimap_wf (locations_ (wp (example_rank 0)))) as Hwf.
  { split; apply NoDup_singleton. }
  split; [exact Hwf|].
  destruct (unregister_location_removes_pair (example_rank 0) 100 Hwf)
    as (Hleft & Hright & _).
  destruct (unregister_location_removes_pair (example_rank 0) 200 Hwf)
    as (_ & _ & _ & _ & Hsame & _).
  split; [exact Hleft|]. split; [by apply Hright|]. by apply Hsame.
Defined.

Lemma registry_views_stay_inverse_witness :
  bimap_wf (locations_ (wp (start 0 2 ramp)))
  ∧ ids_below_vars (wp (start 0 2 ramp))
  ∧ ∃ p', registry_run [Register 100 4; Register 200 8; Unregister 100; Register 100 4]
            (start 0 2 ramp) = Done p'
          ∧ left_at (locations_ (wp p')) 100 = Done 2
          ∧ right_at (locations_ (wp p')) 2 = Done 100.
Proof.
  assert (bimap_wf (locations_ (wp (start 0 2 ramp)))) as Hwf.
  { split; apply NoDup_nil_2. }
  assert (ids_below_vars (wp (start 0 2 ramp))) as Hids by apply Forall_nil_2.
  split; [exact Hwf|]. split; [exact Hids|].
  destruct (registry_views_stay_inverse
              [Register 100 4; Register 200 8; Unregister 100; Register 100 4]
              (start 0 2 ramp) Hwf Hids) as (p' & Hrun & _ & _ & Hinv).
  exists p'. split; [exact Hrun|].
  assert (left_at (locations_ (wp p')) 100 = Done 2) as Hl.
  { vm_compute in Hrun. by injection Hrun as <-. }
  split; [exact Hl|]. by apply Hinv.
Defined.

Lemma right_find_insert_other (b : bimap) (l v i : Z) :
  i ≠ v → right_find (bimap_insert l v b) i = right_find b i.
Proof.
  intros Hne. unfold bimap_insert.
  destruct (left_find b l); [done|]. destruct (right_find b v); [done|].
  rewrite right_find_app. destruct (right_find b i); [done|].
  simpl. by rewrite decide_False.
Qed.

Lemma right_find_erase_None (b : bimap) (l i : Z) :
  right_find b i = None → right_find (left_erase l b) i = None.
Proof.
  rewrite !right_find_None. intros Hi ([l' i'] & -> & He)%list_elem_of_fmap.
  apply elem_of_left_erase in He as [_ He]. apply Hi, list_elem_of_fmap.
  by exists (l', i').
Qed.

(** X3. Ids are never given back.  After any sequence of registrations and
    unregistrations the id counter has advanced by the number of
    registrations, whether they inserted or not; and an id that was handed
    out earlier and is in the registry no longer stays unresolvable for
    ever: no later registration returns or maps it again. *)
Theorem registered_ids_never_come_back (os : list registry_op) (p : process) (i : Z) :
  i < vars_ (wp p) →
  right_find (locations_ (wp p)) i = None →
  ∃ p', registry_run os p = Done p'
        ∧ vars_ (wp p') = vars_ (wp p) + registrations os
        ∧ right_at (locations_ (wp p')) i = Fault Out_of_range
        ∧ ∀ location size, ∃ p'',
            register_location_ location size p'
            = Done (vars_ (wp p) + registrations os, p'')
            ∧ i ≠ vars_ (wp p) + registrations os.
Proof.
  revert p. induction os as [|o os IH]; intros p Hi Hnone.
  - exists p. split; [done|]. simpl. split; [lia|].
    split. { unfold right_at. by rewrite Hnone. }
    intros location size. eexists. rewrite Z.add_0_r. split; [reflexivity|lia].
  - destruct o as [location size|location]; simpl.
    + destruct (IH (with_wp (λ s, set_locations
                                    (bimap_insert location (vars_ s) (locations_ s))
                                    (vars_ s + 1) s) p))
        as (p' & Hrun & Hvars & Hstale & Hnext).
      * simpl. lia.
      * simpl. rewrite right_find_insert_other by lia. done.
      * exists p'. split; [done|]. simpl in Hvars, Hnext.
        split; [lia|]. split; [done|].
        intros l sz. destruct (Hnext l sz) as (p'' & Hreg & Hne).
        exists p''. rewrite Hreg. split; [do 2 f_equal; lia|lia].
    + destruct (IH (unregister_location_ location p)) as (p' & Hrun & Hvars & Hstale & Hnext).
      * done.
      * simpl. by apply right_find_erase_None.
      * exists p'. by repeat split.
Qed.

Lemma registered_ids_never_come_back_witness :
  0 < vars_ (wp (unregister_location_ 100 (example_rank 0)))
  ∧ right_find (locations_ (wp (unregister_location_ 100 (example_rank 0)))) 0 = None
  ∧ ∃ p', registry_run [Register 100 4; Unregister 100; Register 100 4]
            (unregister_location_ 100 (example_rank 0)) = Done p'
          ∧ vars_ (wp p') = 3
          ∧ right_at (locations_ (wp p')) 0 = Fault Out_of_range
          ∧ left_at (locations_ (wp p')) 100 = Done 2.
Proof.
  assert (0 < vars_ (wp (unregister_location_ 100 (example_rank 0)))) as H1 by (simpl; lia).
  assert (right_find (locations_ (wp (unregister_location_ 100 (example_rank 0)))) 0 = None)
    as H2 by reflexivity.
  split; [exact H1|]. split; [exact H2|].
  destruct (registered_ids_never_come_back
              [Register 100 4; Unregister 100; Register 100 4]
              (unregister_location_ 100 (example_rank 0)) 0 H1 H2)
    as (p' & Hrun & Hvars & Hstale & _).
  exists p'. split; [exact Hrun|]. split; [exact Hvars|]. split; [exact Hstale|].
  vm_compute in Hrun. by injection Hrun as <-.
Defined.

(** ** Failures of the operations *)

(** X4. A put or a get for another rank looks the location up first: on a
    location that is not registered both throw [std::out_of_range],
    whatever the rank and whatever the sizes, so that neither returns
    unless the location is registered.  On a registered location and a
    rank of the communicator the get returns, and so does the put when its
    bytes lie in the address space and, with the header, an [int] can
    count them.  Addressed to the rank itself, and copying between ranges
    of the address space that do not overlap, both return without any
    lookup, registered location or not. *)
Theorem put_get_failures (p : process) (processor a b size offset count : Z) :
  (processor ≠ pid_ (wp p) →
   (left_find (locations_ (wp p)) b = None →
    internal_put_ processor a b size offset count p = Fault Out_of_range
    ∧ internal_get_ processor b a size offset count p = Fault Out_of_range)
   ∧ ((∃ p', internal_put_ processor a b size offset count p = Done p') →
      is_Some (left_find (locations_ (wp p)) b))
   ∧ ((∃ p', internal_get_ processor b a size offset count p = Done p') →
      is_Some (left_find (locations_ (wp p)) b))
   ∧ (is_Some (left_find (locations_ (wp p)) b) →
      0 ≤ processor < nprocs_ (wp p) →
      (sizeof_put_header + size_t (size * count) ≤ INT_MAX →
       in_address_space a (size_t (size * count)) →
       ∃ p', internal_put_ processor a b size offset count p = Done p')
      ∧ ∃ p', internal_get_ processor b a size offset count p = Done p'))
  ∧ (processor = pid_ (wp p) →
     0 ≤ b →
     in_address_space (b + size_t (size * offset)) (size_t (count * size)) →
     in_address_space a (size_t (count * size)) →
     disjoint_ranges (b + size_t (size * offset)) a (size_t (count * size)) →
     (∃ p', internal_put_ processor a b size offset count p = Done p')
     ∧ (∃ p', internal_get_ processor b a size offset count p = Done p')).
Proof.
  split.
  - intros Hne. unfold internal_put_, internal_get_, left_at, MPI_Send.
    rewrite !decide_False by done.
    destruct (left_find (locations_ (wp p)) b) as [id|] eqn:Hid; simpl.
    + split; [done|]. split; [by eexists|]. split; [by eexists|].
      intros _ Hrank. rewrite !decide_True by done. simpl.
      split; [intros _ _|]; by eexists.
    + split; [done|]. split; [by intros [? ?]|]. split; [by intros [? ?]|].
      by intros [? ?].
  - intros -> _ _ _ _. unfold internal_put_, internal_get_.
    rewrite !decide_True by done. split; by eexists.
Qed.

(** ** A [sync] that cannot finish *)

Lemma rounds_add body (a b : nat) (p : process) :
  rounds body (a + b) p = rounds body a p ≫= rounds body b.
Proof.
  revert p. induction a as [|a IH]; intros p; simpl; [done|].
  destruct (body p) as [p'|e]; simpl; [apply IH|done].
Qed.

(** X5. A rank that expects more frames than its mailbox holds never leaves
    [sync]: after the frames that are there, [MPI_Probe] waits for a message
    nobody sends.  This holds for the put loop, for the get loop and for the
    response loop. *)
Theorem sync_waits_for_missing_frames (p : process) :
  Forall (λ msg, is_Some (right_find (locations_ (wp p)) (ph_var_id msg.2.1)))
         (in_put (net p)) →
  Forall (λ msg, is_Some (right_find (locations_ (wp p)) (gh_var_id msg.2))
                 ∧ 0 ≤ msg.1 < nprocs_ (wp p)) (in_get (net p)) →
  (Z.of_nat (length (in_put (net p))) < remote_puts_ (wp p) →
   sync_serve p = Fault Probe_blocks)
  ∧ (remote_puts_ (wp p) = Z.of_nat (length (in_put (net p))) →
     Z.of_nat (length (in_get (net p))) < remote_gets_ (wp p) →
     sync_serve p = Fault Probe_blocks)
  ∧ (Z.of_nat (length (in_response (net p))) < local_gets_ (wp p) →
     sync_finish p = Fault Probe_blocks).
Proof.
  intros Hputs Hgets. split; [|split].
  - intros Hmore. unfold sync_serve.
    rewrite (while_rounds _ _ receive_put_decrements _ p eq_refl).
    replace (Z.to_nat (remote_puts_ (wp p)))
      with (length (in_put (net p))
            + S (Z.to_nat (remote_puts_ (wp p)) - S (length (in_put (net p)))))%nat by lia.
    rewrite rounds_add.
    rewrite (rounds_receive_put (in_put (net p)) p []) by (by rewrite ?app_nil_r).
    done.
  - intros Hrp Hmore. unfold sync_serve.
    rewrite (while_rounds _ _ receive_put_decrements _ p eq_refl).
    rewrite Hrp, Nat2Z.id.
    rewrite (rounds_receive_put (in_put (net p)) p []) by (by rewrite ?app_nil_r).
    cbn [mbind outcome_bind].
    match goal with |- context [while _ serve_get _ ?q] =>
      rewrite (while_rounds _ _ serve_get_decrements _ q eq_refl)
    end.
    simpl remote_gets_.
    replace (Z.to_nat (remote_gets_ (wp p)))
      with (length (in_get (net p))
            + S (Z.to_nat (remote_gets_ (wp p)) - S (length (in_get (net p)))))%nat by lia.
    rewrite rounds_add.
    match goal with |- context [rounds serve_get (length _) ?q] =>
      rewrite (rounds_serve_get (in_get (net p)) q [])
    end; [done| by rewrite app_nil_r | done].
  - intros Hmore. unfold sync_finish.
    rewrite (while_rounds _ _ receive_response_decrements _ p eq_refl).
    replace (Z.to_nat (local_gets_ (wp p)))
      with (length (in_response (net p))
            + S (Z.to_nat (local_gets_ (wp p)) - S (length (in_response (net p)))))%nat
      by lia.
    rewrite rounds_add.
    rewrite (rounds_receive_response (in_response (net p)) p [])
      by (by rewrite ?app_nil_r).
    done.
Qed.

Lemma sync_waits_for_missing_frames_witness :
  Forall (λ msg, is_Some (right_find (locations_ (wp example_requester)) (ph_var_id msg.2.1)))
         (in_put (net example_requester))
  ∧ Forall (λ msg, is_Some (right_find (locations_ (wp example_requester)) (gh_var_id msg.2))
                   ∧ 0 ≤ msg.1 < nprocs_ (wp example_requester))
           (in_get (net example_requester))
  ∧ Z.of_nat (length (in_response (net example_requester)))
    < local_gets_ (wp example_requester)
  ∧ sync_finish example_requester = Fault Probe_blocks.
Proof.
  assert (Z.of_nat (length (in_response (net example_requester)))
          < local_gets_ (wp example_requester)) as Hmore by (simpl; lia).
  split; [apply Forall_nil_2|]. split; [apply Forall_nil_2|]. split; [exact Hmore|].
  destruct (sync_waits_for_missing_frames example_requester) as (_ & _ & Hfinish);
    [apply Forall_nil_2|apply Forall_nil_2|].
  by apply Hfinish.
Defined.

(** ** A frame that names an id its receiver has dropped *)

Lemma for_each_fault_at {A B} (f : A → outcome B) (l : list A) (d : nat) (x : A) e :
  l !! d = Some x →
  f x = Fault e →
  (∀ i y, (i < d)%nat → l !! i = Some y → ∃ z, f y = Done z) →
  for_each f l = Fault e.
Proof.
  revert d. induction l as [|y l IH]; intros [|d] Hd Hx Hbefore; simplify_eq/=.
  - by rewrite Hx.
  - destruct (Hbefore 0%nat y) as [z ->]; [lia|done|]. simpl.
    rewrite (IH d); [done|done|done|].
    intros i y' Hi Hy'. apply (Hbefore (S i) y'); [lia|done].
Qed.

(** The put loop throws as soon as it meets a frame whose id is unknown. *)
Lemma rounds_receive_put_stale msgs : ∀ p rest,
  in_put (net p) = msgs ++ rest →
  Exists (λ msg, right_find (locations_ (wp p)) (ph_var_id msg.2.1) = None) msgs →
  rounds receive_put (length msgs) p = Fault Out_of_range.
Proof.
  induction msgs as [|[src [h payload]] msgs IH]; intros p rest Hin Hbad.
  - by apply Exists_nil in Hbad.
  - cbn [rounds length].
    destruct (right_find (locations_ (wp p)) (ph_var_id h)) as [base|] eqn:Hbase.
    + rewrite (receive_put_head p src h payload (msgs ++ rest) base) by done.
      cbn [mbind outcome_bind]. apply (IH _ rest); [done|]. simpl.
      apply Exists_cons in Hbad as [Hbad|Hbad]; [|done].
      simpl in Hbad. congruence.
    + unfold receive_put, right_at. rewrite Hin. simpl. by rewrite Hbase.
Qed.

Lemma consistent_rank_ext (w w' : world) (i : nat) (p : process) :
  length w' = length w →
  (λ q, put_counts_ (wp q)) <$> w' = (λ q, put_counts_ (wp q)) <$> w →
  (λ q, get_counts_ (wp q)) <$> w' = (λ q, get_counts_ (wp q)) <$> w →
  (λ q, in_get (net q)) <$> w' = (λ q, in_get (net q)) <$> w →
  consistent_rank w i p → consistent_rank w' i p.
Proof.
  intros Hlen Hpc Hgc Hig [].
  constructor; unfold remote_puts_of, remote_gets_of, gets_in_flight in *;
    rewrite ?Hlen, ?Hpc, ?Hgc, ?Hig; done.
Qed.

(** X6. Why a location must not be unregistered while a put for it is on
    its way: rank [s] puts into a location of rank [d], then [d] unregisters
    that location before it synchronises.  The [sync] that follows does not
    complete: [d] receives a frame whose id resolves to nothing and
    [bimap::at] throws. *)
Theorem unregistering_with_a_put_under_way (w : world) (s d : nat) (ps pd : process)
    (value variable size offset count id location : Z) :
  consistent w →
  w !! s = Some ps →
  w !! d = Some pd →
  s ≠ d →
  bimap_wf (locations_ (wp pd)) →
  left_find (locations_ (wp ps)) variable = Some id →
  right_find (locations_ (wp pd)) id = Some location →
  ∃ w1 w2,
    at_rank s (internal_put_ (Z.of_nat d) value variable size offset count) w = Done w1
    ∧ at_rank d (λ p, Done (unregister_location_ location p)) w1 = Done w2
    ∧ sync_all w2 = Fault Out_of_range.
Proof.
  intros Hw Hs Hd Hne Hwf Hid Hloc.
  pose proof (Hw s ps Hs) as Hcs.
  set (msg := ({| ph_var_id := id; ph_data_offset := size_t (offset * size) |},
               read_bytes (heap ps) value (size_t (size * count)))).
  assert (consistent (after_put s d msg w)) as Hw1.
  { eapply consistent_after_put; eauto. }
  destruct (lookup_after_put w s d d msg pd Hd) as (pd1 & Hpd1 & Hheap & Hlocs & Hin).
  rewrite decide_True in Hin by done.
  exists (after_put s d msg w),
    (<[d := unregister_location_ location pd1]> (after_put s d msg w)).
  split.
  { apply at_rank_put; try done.
    - intros k q Hq. by destruct (Hw k q Hq).
    - by destruct Hcs.
    - destruct Hcs. apply lookup_lt_Some in Hd. lia. }
  split.
  { unfold at_rank. rewrite Hpd1. simpl. f_equal. apply transmit_quiet.
    intros k q Hq. destruct (decide (k = d)) as [->|Hk].
    - rewrite list_lookup_insert_eq in Hq by (by eapply lookup_lt_Some).
      simplify_eq. simpl. by destruct (Hw1 d pd1 Hpd1).
    - rewrite list_lookup_insert_ne in Hq by done. by destruct (Hw1 k q Hq). }
  set (w1 := after_put s d msg w) in *.
  set (pd2 := unregister_location_ location pd1).
  set (w2 := <[d := pd2]> w1).
  assert (∀ (f : process → list Z), f pd2 = f pd1 → f <$> w2 = f <$> w1) as Hsame.
  { intros f Hf. unfold w2. rewrite list_fmap_insert, Hf.
    apply list_insert_id. by rewrite list_lookup_fmap, Hpd1. }
  assert ((λ q, in_get (net q)) <$> w2 = (λ q, in_get (net q)) <$> w1) as Hig.
  { unfold w2. rewrite list_fmap_insert.
    apply list_insert_id. by rewrite list_lookup_fmap, Hpd1. }
  assert (length w2 = length w1) as Hlen by apply length_insert.
  unfold sync_all. cbn zeta.
  rewrite (for_each_fault_at sync_serve _ d
             (sync_enter (remote_puts_of w2 d) (remote_gets_of w2 d) pd2) Out_of_range);
    [done| | |].
  - rewrite list_lookup_imap. unfold w2.
    rewrite list_lookup_insert_eq by (by eapply lookup_lt_Some). done.
  - pose proof (Hw1 d pd1 Hpd1) as Hcd.
    assert (remote_puts_of w2 d = Z.of_nat (length (in_put (net pd1)))) as Hrp.
    { unfold remote_puts_of. rewrite (Hsame (λ q, put_counts_ (wp q)) eq_refl).
      symmetry. apply (c_in_put _ _ _ Hcd). }
    unfold sync_serve.
    rewrite (while_rounds _ _ receive_put_decrements _ _ eq_refl).
    simpl remote_puts_. rewrite Hrp, Nat2Z.id.
    rewrite (rounds_receive_put_stale (in_put (net pd1)) _ []); [done| |].
    + simpl. by rewrite app_nil_r.
    + simpl. rewrite Hin. apply Exists_app. right. apply Exists_cons_hd. simpl.
      rewrite Hlocs. destruct Hwf as [H1 H2].
      pose proof (left_erase_wf _ location (conj H1 H2)) as [_ H2'].
      destruct (right_find (left_erase location (locations_ (wp pd))) id) as [l|] eqn:Hl;
        [|done].
      apply (right_find_Some _ _ _ H2'), elem_of_left_erase in Hl as [Hnl Hl].
      apply (right_find_Some _ _ _ H2) in Hl. simpl in Hnl. congruence.
  - intros i y Hi. rewrite list_lookup_imap. unfold w2.
    rewrite list_lookup_insert_ne by lia.
    destruct (w1 !! i) as [p|] eqn:Hp; simpl; [|done]. intros [= <-].
    exists (served (<[d:=pd2]> w1) i p). apply sync_serve_entered.
    apply (consistent_rank_ext w1); try done.
    + by apply (Hsame (λ q, put_counts_ (wp q))).
    + by apply (Hsame (λ q, get_counts_ (wp q))).
    + by apply Hw1.
Qed.

Lemma unregistering_with_a_put_under_way_witness :
  consistent example_world
  ∧ example_world !! 0%nat = Some (example_rank 0)
  ∧ example_world !! 1%nat = Some (example_rank 1)
  ∧ 0%nat ≠ 1%nat
  ∧ bimap_wf (locations_ (wp (example_rank 1)))
  ∧ left_find (locations_ (wp (example_rank 0))) 100 = Some 0
  ∧ right_find (locations_ (wp (example_rank 1))) 0 = Some 100
  ∧ ∃ w1 w2,
      at_rank 0 (internal_put_ 1 500 100 4 0 1) example_world = Done w1
      ∧ at_rank 1 (λ p, Done (unregister_location_ 100 p)) w1 = Done w2
      ∧ sync_all w2 = Fault Out_of_range.
Proof.
  assert (bimap_wf (locations_ (wp (example_rank 1)))) as Hwf.
  { split; apply NoDup_singleton. }
  split; [exact consistent_example_world|].
  do 3 (split; [done|]). split; [exact Hwf|]. do 2 (split; [done|]).
  exact (unregistering_with_a_put_under_way example_world 0 1 (example_rank 0)
           (example_rank 1) 500 100 4 0 1 0 100 consistent_example_world eq_refl eq_refl
           ltac:(done) Hwf eq_refl eq_refl).
Defined.

(** ** What [sync] leaves alone *)

Lemma while_keeps {T} (f : process → T) counter body :
  (∀ p p', body p = Done p' → f p' = f p) →
  ∀ n p p', while counter body n p = Done p' → f p' = f p.
Proof.
  intros Hbody. induction n as [|n IH]; intros p p'; simpl.
  - case_decide; [done|]. by intros [= <-].
  - case_decide; [|by intros [= <-]].
    destruct (body p) as [q|e] eqn:Hq; simpl; [|done].
    intros Hp'. rewrite (IH _ _ Hp'). by apply Hbody.
Qed.

Lemma receive_put_standing p p' : receive_put p = Done p' → standing p' = standing p.
Proof.
  unfold receive_put. destruct (in_put (net p)) as [|[src [h payload]] rest]; [done|].
  simpl. destruct (right_at _ _); simpl; [|done]. by intros [= <-].
Qed.

Lemma serve_get_standing p p' : serve_get p = Done p' → standing p' = standing p.
Proof.
  unfold serve_get. destruct (in_get (net p)) as [|[src h] rest]; [done|].
  simpl. destruct (right_at _ _); simpl; [|done].
  unfold MPI_Send. case_decide; simpl; [|done]. by intros [= <-].
Qed.

Lemma receive_response_standing p p' :
  receive_response p = Done p' → standing p' = standing p.
Proof.
  unfold receive_response.
  destruct (in_response (net p)) as [|[src [h payload]] rest]; [done|].
  by intros [= <-].
Qed.

Lemma sync_serve_standing p p' : sync_serve p = Done p' → standing p' = standing p.
Proof.
  unfold sync_serve.
  destruct (while _ receive_put _ p) as [p1|e] eqn:H1; simpl; [|done].
  destruct (while _ serve_get _ p1) as [p2|e] eqn:H2; simpl; [|done].
  intros [= <-].
  apply (while_keeps standing _ _ receive_put_standing) in H1.
  apply (while_keeps standing _ _ serve_get_standing) in H2.
  unfold standing in *. simpl. congruence.
Qed.

Lemma sync_finish_standing p p' : sync_finish p = Done p' → standing p' = standing p.
Proof.
  unfold sync_finish.
  destruct (while _ receive_response _ p) as [p1|e] eqn:H1; simpl; [|done].
  intros [= <-].
  apply (while_keeps standing _ _ receive_response_standing) in H1.
  unfold standing in *. simpl. rewrite !length_replicate. done.
Qed.

(** X7. Whatever the world, a [sync] that returns has changed nothing but
    superstep counters, memory, mailboxes and log: on every rank the pid,
    the number of ranks, the id counter and the whole registry are as
    before, the two counter vectors have kept their sizes, and no rank was
    added or lost. *)
Theorem sync_keeps_the_registry (w w' : world) :
  sync_all w = Done w' →
  length w' = length w
  ∧ ∀ i p', w' !! i = Some p' →
      ∃ p, w !! i = Some p
           ∧ pid_ (wp p') = pid_ (wp p)
           ∧ nprocs_ (wp p') = nprocs_ (wp p)
           ∧ vars_ (wp p') = vars_ (wp p)
           ∧ locations_ (wp p') = locations_ (wp p)
           ∧ length (put_counts_ (wp p')) = length (put_counts_ (wp p))
           ∧ length (get_counts_ (wp p')) = length (get_counts_ (wp p)).
Proof.
  unfold sync_all. cbn zeta.
  destruct (for_each sync_serve _) as [w2|e] eqn:Hserve; simpl; [|done].
  intros Hfinish%for_each_inv. apply for_each_inv in Hserve.
  pose proof (Forall2_length _ _ _ Hserve) as Hlen1.
  pose proof (Forall2_length _ _ _ Hfinish) as Hlen2.
  rewrite length_imap in Hlen1. rewrite length_transmit in Hlen2.
  split; [congruence|].
  intros i p' Hp'.
  destruct (Forall2_lookup_r _ _ _ _ _ Hfinish Hp') as (x & Hx & Hsync).
  rewrite lookup_transmit in Hx.
  destruct (w2 !! i) as [p2|] eqn:Hp2; simplify_eq/=.
  destruct (Forall2_lookup_r _ _ _ _ _ Hserve Hp2) as (y & Hy & Hsv).
  rewrite list_lookup_imap in Hy.
  destruct (w !! i) as [p|] eqn:Hp; simplify_eq/=.
  exists p. split; [done|].
  apply sync_finish_standing in Hsync. apply sync_serve_standing in Hsv.
  unfold standing in *. simpl in *.
  injection Hsync as -> -> -> -> -> ->. injection Hsv as -> -> -> -> -> ->. done.
Qed.

Lemma sync_keeps_the_registry_witness :
  ∃ w' p',
    sync_all example_superstep = Done w'
    ∧ w' !! 1%nat = Some p'
    ∧ locations_ (wp p') = [(100, 0)]
    ∧ vars_ (wp p') = 1.
Proof.
  pose proof (sync_all_consistent example_superstep consistent_example_superstep) as Hsync.
  revert Hsync. generalize (imap (synced example_superstep) example_superstep).
  intros w' Hsync.
  destruct (sync_keeps_the_registry example_superstep w' Hsync) as [Hlen Hsame].
  destruct (lookup_lt_is_Some_2 w' 1) as [p' Hp']; [rewrite Hlen; simpl; lia|].
  destruct (Hsame 1%nat p' Hp') as (p & Hp & _ & _ & Hvars & Hlocs & _).
  exists w', p'. split; [exact Hsync|]. split; [exact Hp'|].
  injection Hp as <-. by split.
Defined.

(** ** The worlds a program can reach *)

Lemma fmap_insert_same {B} (f : process → B) (w : world) (s : nat) (ps p' : process) :
  w !! s = Some ps → f p' = f ps → f <$> <[s := p']> w = f <$> w.
Proof.
  intros Hs Hf. rewrite list_fmap_insert, Hf.
  apply list_insert_id. by rewrite list_lookup_fmap, Hs.
Qed.

(** A rank changes only what the other ranks do not count on. *)
Lemma consistent_local_update (w : world) (s : nat) (ps p' : process) :
  consistent w →
  w !! s = Some ps →
  pid_ (wp p') = pid_ (wp ps) →
  nprocs_ (wp p') = nprocs_ (wp ps) →
  put_counts_ (wp p') = put_counts_ (wp ps) →
  get_counts_ (wp p') = get_counts_ (wp ps) →
  local_gets_ (wp p') = local_gets_ (wp ps) →
  net p' = net ps →
  (∀ id, is_Some (right_find (locations_ (wp ps)) id) →
         is_Some (right_find (locations_ (wp p')) id)) →
  consistent (<[s := p']> w).
Proof.
  intros Hw Hs Hpid Hn Hpc Hgc Hlg Hnet Hlocs i p Hp.
  assert (consistent_rank w i (if decide (i = s) then ps else p)) as Hc.
  { destruct (decide (i = s)) as [->|Hne]; [by apply Hw|].
    rewrite list_lookup_insert_ne in Hp by done. by apply Hw. }
  assert (consistent_rank (<[s:=p']> w) i (if decide (i = s) then ps else p)) as Hc'.
  { apply (consistent_rank_ext w); try done.
    - apply length_insert.
    - by apply (fmap_insert_same (λ q, put_counts_ (wp q)) _ _ ps).
    - by apply (fmap_insert_same (λ q, get_counts_ (wp q)) _ _ ps).
    - apply (fmap_insert_same (λ q, in_get (net q)) _ _ ps); [done|]. by rewrite Hnet. }
  destruct (decide (i = s)) as [->|Hne]; [|done].
  rewrite list_lookup_insert_eq in Hp by (by eapply lookup_lt_Some). simplify_eq.
  destruct Hc'. constructor; rewrite ?Hpid, ?Hn, ?Hpc, ?Hgc, ?Hlg, ?Hnet; try done.
  - eapply Forall_impl; [exact c_put_ids0|]. simpl. intros msg. apply Hlocs.
  - eapply Forall_impl; [exact c_get_ids0|]. simpl. intros msg [? ?].
    split; [by apply Hlocs|done].
Qed.

Lemma right_find_insert_mono (b : bimap) (l v id : Z) :
  is_Some (right_find b id) → is_Some (right_find (bimap_insert l v b) id).
Proof.
  intros [x Hx]. unfold bimap_insert.
  destruct (left_find b l); [by eexists|]. destruct (right_find b v); [by eexists|].
  rewrite right_find_app, Hx. by eexists.
Qed.

Lemma at_rank_inv (w w' : world) (s : nat) op :
  at_rank s op w = Done w' →
  ∃ ps p', w !! s = Some ps ∧ op ps = Done p' ∧ w' = transmit (<[s := p']> w).
Proof.
  unfold at_rank. destruct (w !! s) as [ps|]; simpl; [|done].
  destruct (op ps) as [p'|] eqn:Hop; simpl; [|done].
  intros [= <-]. by exists ps, p'.
Qed.

(** Nothing is in transit after a call that sends nothing. *)
Lemma transmit_local (w : world) (s : nat) (ps p' : process) :
  consistent w →
  w !! s = Some ps →
  net p' = net ps →
  transmit (<[s := p']> w) = <[s := p']> w.
Proof.
  intros Hw Hs Hnet. apply transmit_quiet. intros k q Hq.
  destruct (decide (k = s)) as [->|Hk].
  - rewrite list_lookup_insert_eq in Hq by (by eapply lookup_lt_Some).
    injection Hq as <-. rewrite Hnet. by destruct (Hw s ps Hs).
  - rewrite list_lookup_insert_ne in Hq by done. by destruct (Hw k q Hq).
Qed.

Lemma internal_put_Done (p p' : process) (processor value variable size offset count : Z) :
  processor ≠ pid_ (wp p) →
  internal_put_ processor value variable size offset count p = Done p' →
  is_Some (left_find (locations_ (wp p)) variable) ∧ 0 ≤ processor < nprocs_ (wp p).
Proof.
  intros Hne. unfold internal_put_, left_at, MPI_Send. rewrite decide_False by done.
  destruct (left_find (locations_ (wp p)) variable); simpl; [|done].
  destruct (decide (0 ≤ processor < nprocs_ (wp p))); simpl; [|done].
  intros _. split; [by eexists|done].
Qed.

Lemma internal_get_Done (p p' : process) (processor variable target size offset count : Z) :
  processor ≠ pid_ (wp p) →
  internal_get_ processor variable target size offset count p = Done p' →
  is_Some (left_find (locations_ (wp p)) variable) ∧ 0 ≤ processor < nprocs_ (wp p).
Proof.
  intros Hne. unfold internal_get_, left_at, MPI_Send. rewrite decide_False by done.
  destruct (left_find (locations_ (wp p)) variable); simpl; [|done].
  destruct (decide (0 ≤ processor < nprocs_ (wp p))); simpl; [|done].
  intros _. split; [by eexists|done].
Qed.

Lemma reachable_world_consistent (w : world) : reachable_world w → consistent w.
Proof.
  induction 1 as [n m|w w' s o _ IH Hvalid _ Hop|w w' _ IH Hsync].
  - apply consistent_start_world.
  - pose proof Hop as (ps & p' & Hs & Hrun & Hw')%at_rank_inv.
    pose proof (IH s ps Hs) as Hcs.
    destruct o as [location size|processor value variable size offset count
                   |processor variable target size offset count
                   |processor tag content tag_size content_size];
      simpl in Hrun, Hvalid.
    + injection Hrun as <-.
      rewrite Hw', (transmit_local w s ps) by done.
      apply (consistent_local_update w s ps); try done.
      intros id. simpl. apply right_find_insert_mono.
    + destruct (decide (processor = pid_ (wp ps))) as [Hself|Hne].
      * unfold internal_put_ in Hrun. rewrite decide_True in Hrun by done.
        injection Hrun as <-.
        rewrite Hw', (transmit_local w s ps) by done.
        by apply (consistent_local_update w s ps).
      * destruct (internal_put_Done _ _ _ _ _ _ _ _ Hne Hrun) as [[id Hid] Hrank].
        assert (processor = Z.of_nat (Z.to_nat processor)) as Hd by lia.
        destruct (lookup_lt_is_Some_2 w (Z.to_nat processor)) as [pd Hpd].
        { destruct Hcs. lia. }
        change (at_rank s (internal_put_ processor value variable size offset count) w
                = Done w') in Hop.
        rewrite Hd in Hop.
        rewrite (at_rank_put w s (Z.to_nat processor) ps value variable size offset count id)
          in Hop; try done.
        -- injection Hop as <-. eapply consistent_after_put; eauto.
        -- intros k q Hq. by destruct (IH k q Hq).
        -- by destruct Hcs.
        -- lia.
        -- destruct Hcs. lia.
    + destruct (decide (processor = pid_ (wp ps))) as [Hself|Hne].
      * unfold internal_get_ in Hrun. rewrite decide_True in Hrun by done.
        injection Hrun as <-.
        rewrite Hw', (transmit_local w s ps) by done.
        by apply (consistent_local_update w s ps).
      * destruct (internal_get_Done _ _ _ _ _ _ _ _ Hne Hrun) as [[id Hid] Hrank].
        assert (processor = Z.of_nat (Z.to_nat processor)) as Hd by lia.
        destruct (lookup_lt_is_Some_2 w (Z.to_nat processor)) as [pd Hpd].
        { destruct Hcs. lia. }
        change (at_rank s (internal_get_ processor variable target size offset count) w
                = Done w') in Hop.
        rewrite Hd in Hop.
        rewrite (at_rank_get w s (Z.to_nat processor) ps variable target size offset count id)
          in Hop; try done.
        -- injection Hop as <-. eapply consistent_after_get; eauto.
        -- intros k q Hq. by destruct (IH k q Hq).
        -- by destruct Hcs.
        -- lia.
        -- destruct Hcs. lia.
    + injection Hrun as <-.
      rewrite Hw', (transmit_local w s ps) by done.
      unfold internal_send_. by rewrite list_insert_id.
  - rewrite (sync_all_consistent w IH) in Hsync. injection Hsync as <-.
    by apply consistent_synced.
Qed.

(** ** What a get brings back *)

(** Where a response comes from: it answers a get that waited at some rank,
    with bytes of that rank's memory after its puts. *)
Lemma elem_of_responses_to (w : world) (i : nat)
    (r : Z * (get_response_header * list byte)) :
  r ∈ responses_to w i →
  ∃ k pk g base,
    w !! k = Some pk ∧ g ∈ in_get (net pk) ∧ g.1 = Z.of_nat i
    ∧ right_find (locations_ (wp pk)) (gh_var_id g.2) = Some base
    ∧ r = (Z.of_nat k,
           ({| rh_target := gh_target g.2;
               rh_data_size := size_t (gh_size g.2 * gh_count g.2) |},
            read_bytes (heap_after_puts pk) (base + gh_data_offset g.2)
              (size_t (gh_size g.2 * gh_count g.2)))).
Proof.
  unfold responses_to, responses_for, in_transit.
  intros (msg & Hmsg & Hr)%list_elem_of_omap.
  apply list_elem_of_join in Hmsg as (l & Hmsg & Hl).
  apply elem_of_lookup_imap in Hl as (k & q & -> & Hq).
  rewrite list_lookup_imap in Hq.
  destruct (w !! k) as [pk|] eqn:Hk; simpl in Hq; [|done]. injection Hq as <-.
  simpl in Hmsg. apply list_elem_of_fmap in Hmsg as (df & -> & Hdf).
  apply list_elem_of_omap in Hdf as (g & Hg & Hans).
  unfold answer in Hans.
  destruct (right_find (locations_ (wp pk)) (gh_var_id g.2)) as [base|] eqn:Hbase;
    simpl in Hans; [|done].
  injection Hans as <-. simpl in Hr. case_decide as Hi; [|done]. injection Hr as <-.
  by exists k, pk, g, base.
Qed.

Lemma responses_to_elem_of (w : world) (i k : nat) (pk : process) (g : Z * get_header)
    (base : Z) :
  w !! k = Some pk →
  g ∈ in_get (net pk) →
  g.1 = Z.of_nat i →
  right_find (locations_ (wp pk)) (gh_var_id g.2) = Some base →
  (Z.of_nat k,
   ({| rh_target := gh_target g.2;
       rh_data_size := size_t (gh_size g.2 * gh_count g.2) |},
    read_bytes (heap_after_puts pk) (base + gh_data_offset g.2)
      (size_t (gh_size g.2 * gh_count g.2)))) ∈ responses_to w i.
Proof.
  intros Hk Hg Hi Hbase. unfold responses_to, responses_for, in_transit.
  apply list_elem_of_omap.
  exists (Z.of_nat k, g.1,
          Get_response_frame
            {| rh_target := gh_target g.2;
               rh_data_size := size_t (gh_size g.2 * gh_count g.2) |}
            (read_bytes (heap_after_puts pk) (base + gh_data_offset g.2)
               (size_t (gh_size g.2 * gh_count g.2)))).
  split; [|simpl; by rewrite decide_True].
  apply list_elem_of_join. eexists. split; [|apply elem_of_lookup_imap].
  2:{ exists k, (served w k pk). split; [done|]. by rewrite list_lookup_imap, Hk. }
  simpl. apply list_elem_of_fmap.
  eexists (g.1, _). split; [done|]. apply list_elem_of_omap.
  exists g. split; [done|]. unfold answer. by rewrite Hbase.
Qed.

(** After the response loop a byte is as before, or it is a byte of the
    last response that covers it. *)
Lemma foldl_response_effect_last rs : ∀ (m : memory) (a : Z),
  (Forall (λ r, ¬ response_covers r a) rs ∧ foldl response_effect m rs a = m a)
  ∨ ∃ r, r ∈ rs ∧ response_covers r a
         ∧ r.2.2 !! Z.to_nat (a - rh_target r.2.1) = Some (foldl response_effect m rs a).
Proof.
  induction rs as [|r rs IH] using rev_ind; intros m a.
  { left. by split. }
  rewrite foldl_app. simpl.
  destruct (decide (response_covers r a)) as [Hr|Hr].
  - right. exists r. split; [set_solver|]. split; [done|].
    pose proof (write_bytes_inside (foldl response_effect m rs)
      (rh_target r.2.1) (take (Z.to_nat (rh_data_size r.2.1)) r.2.2) a Hr) as Hin.
    apply lookup_take_Some in Hin as [Hin _]. exact Hin.
  - assert (∀ m', response_effect m' r a = m' a) as Hout.
    { intros m'. by apply write_bytes_outside. }
    rewrite !Hout.
    destruct (IH m a) as [[Hall Hm]|(r' & Hin & Hcov & Hbyte)].
    + left. split; [|done]. apply Forall_app. split; [done|]. by constructor.
    + right. exists r'. split; [set_solver|]. by split.
Qed.

Lemma response_covers_answer (k : Z) (g : Z * get_header) (m : memory) (addr a : Z) :
  response_covers
    (k, ({| rh_target := gh_target g.2;
            rh_data_size := size_t (gh_size g.2 * gh_count g.2) |},
         read_bytes m addr (size_t (gh_size g.2 * gh_count g.2)))) a
  ↔ get_range g.2 a.
Proof.
  unfold response_covers, get_range. simpl.
  rewrite length_take, length_read_bytes.
  pose proof (size_t_nonneg (gh_size g.2 * gh_count g.2)). split; lia.
Qed.

Lemma elem_of_gets_in_flight (w : world) (g : Z * get_header) :
  g ∈ gets_in_flight w ↔ ∃ k pk, w !! k = Some pk ∧ g ∈ in_get (net pk).
Proof.
  unfold gets_in_flight. rewrite list_elem_of_join. split.
  - intros (l & Hg & (pk & -> & Hpk)%list_elem_of_fmap).
    apply list_elem_of_lookup_1 in Hpk as [k Hk]. by exists k, pk.
  - intros (k & pk & Hk & Hg). exists (in_get (net pk)). split; [done|].
    apply list_elem_of_fmap. exists pk. split; [done|].
    by eapply list_elem_of_lookup_2.
Qed.

(** X9. What the gets of a superstep bring back.  On a consistent world
    in which every frame that waits is in bounds
    the [sync] returns, and a byte [a] of rank [s] is then: the byte it had
    after the puts that [s] received, when no get of [s] names a range
    that covers [a]; and otherwise a byte of the memory of a rank [k] that
    held such a get [g], read at [base + data_offset + (a - target)] after
    the puts that [k] received in this same [sync], where [base] is what
    [k]'s registry has for the id of [g].  When one get only of [s] covers
    [a], this is the byte it asked for, as the puts of the superstep left
    it. *)
Theorem get_reads_after_the_puts_of_its_superstep (w : world) (s : nat) (ps : process)
    (a : Z) :
  consistent w →
  world_in_bounds w →
  w !! s = Some ps →
  ∃ w2 ps2,
    sync_all w = Done w2
    ∧ w2 !! s = Some ps2
    ∧ ((∀ g, g ∈ gets_in_flight w → g.1 = Z.of_nat s → ¬ get_range g.2 a) →
       heap ps2 a = heap_after_puts ps a)
    ∧ ((∃ g, g ∈ gets_in_flight w ∧ g.1 = Z.of_nat s ∧ get_range g.2 a) →
       ∃ k pk g base,
         w !! k = Some pk ∧ g ∈ in_get (net pk) ∧ g.1 = Z.of_nat s ∧ get_range g.2 a
         ∧ right_find (locations_ (wp pk)) (gh_var_id g.2) = Some base
         ∧ heap ps2 a
           = heap_after_puts pk (base + gh_data_offset g.2 + (a - gh_target g.2)))
    ∧ ∀ d pd g base,
        w !! d = Some pd →
        g ∈ in_get (net pd) →
        g.1 = Z.of_nat s →
        get_range g.2 a →
        right_find (locations_ (wp pd)) (gh_var_id g.2) = Some base →
        (∀ k pk g', w !! k = Some pk → g' ∈ in_get (net pk) → g'.1 = Z.of_nat s →
                    get_range g'.2 a → k = d ∧ g' = g) →
        heap ps2 a = heap_after_puts pd (base + gh_data_offset g.2 + (a - gh_target g.2)).
Proof.
  intros Hw _ Hs. exists (imap (synced w) w), (synced w s ps).
  split; [by apply sync_all_consistent|].
  split; [by rewrite list_lookup_imap, Hs|].
  assert (∀ k pk g, w !! k = Some pk → g ∈ in_get (net pk) →
                    is_Some (right_find (locations_ (wp pk)) (gh_var_id g.2))) as Hres.
  { intros k pk g Hk Hg. destruct (Hw k pk Hk).
    rewrite Forall_forall in c_get_ids0. by destruct (c_get_ids0 g Hg). }
  assert ((∃ g, g ∈ gets_in_flight w ∧ g.1 = Z.of_nat s ∧ get_range g.2 a) →
          ∃ k pk g base,
            w !! k = Some pk ∧ g ∈ in_get (net pk) ∧ g.1 = Z.of_nat s ∧ get_range g.2 a
            ∧ right_find (locations_ (wp pk)) (gh_var_id g.2) = Some base
            ∧ heap (synced w s ps) a
              = heap_after_puts pk (base + gh_data_offset g.2 + (a - gh_target g.2)))
    as Hsome.
  { intros (g0 & (k0 & pk0 & Hk0 & Hin0)%elem_of_gets_in_flight & Hsrc0 & Hcov0). simpl.
    destruct (foldl_response_effect_last (responses_to w s) (heap_after_puts ps) a)
      as [[Hall _]|(r & Hr & Hcov & Hbyte)].
    - destruct (Hres k0 pk0 g0 Hk0 Hin0) as [base0 Hbase0].
      pose proof (responses_to_elem_of w s k0 pk0 g0 base0 Hk0 Hin0 Hsrc0 Hbase0) as Hr0.
      rewrite Forall_forall in Hall. destruct (Hall _ Hr0).
      by apply response_covers_answer.
    - apply elem_of_responses_to in Hr as (k & pk & g & base & Hk & Hg & Hsrc & Hbase & ->).
      apply response_covers_answer in Hcov.
      exists k, pk, g, base. do 5 (split; [done|]).
      simpl in Hbyte. unfold get_range in Hcov.
      rewrite lookup_read_bytes in Hbyte by lia. by injection Hbyte as <-. }
  split; [|split; [exact Hsome|]].
  - intros Hnone. simpl.
    destruct (foldl_response_effect_last (responses_to w s) (heap_after_puts ps) a)
      as [[_ Hsame]|(r & Hr & Hcov & _)]; [done|].
    apply elem_of_responses_to in Hr as (k & pk & g & base & Hk & Hg & Hsrc & Hbase & ->).
    apply response_covers_answer in Hcov.
    destruct (Hnone g); [|done|done]. apply elem_of_gets_in_flight. by exists k, pk.
  - intros d pd g base Hd Hg Hsrc Hcov Hbase Honly.
    destruct Hsome as (k & pk & g' & base' & Hk & Hg' & Hsrc' & Hcov' & Hbase' & ->).
    { exists g. split; [|done]. apply elem_of_gets_in_flight. by exists d, pd. }
    destruct (Honly k pk g' Hk Hg' Hsrc' Hcov') as [-> ->].
    rewrite Hd in Hk. injection Hk as <-. congruence.
Qed.

Lemma get_reads_after_the_puts_of_its_superstep_witness :
  ∃ w2 ps2,
    sync_all example_superstep = Done w2
    ∧ w2 !! 0%nat = Some ps2
    ∧ heap ps2 601 = ramp 500.
Proof.
  destruct (example_superstep !! 0%nat) as [ps|] eqn:Hps; [|done].
  destruct (example_superstep !! 1%nat) as [pd|] eqn:Hpd; [|done].
  destruct (get_reads_after_the_puts_of_its_superstep example_superstep 0 ps 601
              consistent_example_superstep world_in_bounds_example_superstep Hps)
    as (w2 & ps2 & Hsync & Hps2 & _ & _ & Hone).
  exists w2, ps2. split; [exact Hsync|]. split; [exact Hps2|].
  injection Hpd as <-.
  rewrite (Hone 1%nat _ (0, {| gh_var_id := 0; gh_data_offset := 0; gh_count := 1;
                               gh_size := 4; gh_target := 600 |}) 100 eq_refl).
  - reflexivity.
  - simpl. apply list_elem_of_here.
  - reflexivity.
  - unfold get_range. cbn [gh_target gh_size gh_count snd]. rewrite size_t_small; lia.
  - reflexivity.
  - intros [|[|k]] pk g' Hk Hg' _ _.
    + injection Hk as <-. simpl in Hg'. by apply elem_of_nil in Hg'.
    + injection Hk as <-. simpl in Hg'. apply list_elem_of_singleton in Hg'. done.
    + done.
Defined.

(** ** Programs that name registered locations *)

Lemma right_find_insert_Some (b : bimap) (l v id base : Z) :
  right_find b id = Some base → right_find (bimap_insert l v b) id = Some base.
Proof.
  intros Hid. unfold bimap_insert.
  destruct (left_find b l); [done|]. destruct (right_find b v); [done|].
  by rewrite right_find_app, Hid.
Qed.

(** A rank changes its registry, or its memory, and no mailbox. *)
Lemma world_in_bounds_local_update (w : world) (s : nat) (ps p' : process) :
  consistent w →
  world_in_bounds w →
  w !! s = Some ps →
  net p' = net ps →
  (∀ id base, right_find (locations_ (wp ps)) id = Some base →
              right_find (locations_ (wp p')) id = Some base) →
  world_in_bounds (<[s := p']> w).
Proof.
  intros Hc Hw Hs Hnet Hlocs k p Hp.
  destruct (decide (k = s)) as [->|Hne].
  2:{ rewrite list_lookup_insert_ne in Hp by done. by apply (Hw k). }
  rewrite list_lookup_insert_eq in Hp by (by eapply lookup_lt_Some).
  injection Hp as <-. rewrite Hnet.
  destruct (Hw s ps Hs) as [Hputs Hgets]. destruct (Hc s ps Hs).
  split.
  - apply Forall_forall. intros msg Hmsg.
    rewrite Forall_forall in Hputs. rewrite Forall_forall in c_put_ids0.
    destruct (Hputs msg Hmsg) as (Hint & Hoff & Hbase).
    destruct (c_put_ids0 msg Hmsg) as [base0 Hbase0].
    split; [done|]. split; [done|]. intros base Hb.
    rewrite (Hlocs _ _ Hbase0) in Hb. injection Hb as <-. by apply Hbase.
  - apply Forall_forall. intros g Hg.
    rewrite Forall_forall in Hgets. rewrite Forall_forall in c_get_ids0.
    destruct (Hgets g Hg) as (Hint & Hoff & Htarget & Hbase).
    destruct (c_get_ids0 g Hg) as [[base0 Hbase0] _].
    split; [done|]. split; [done|]. split; [done|]. intros base Hb.
    rewrite (Hlocs _ _ Hbase0) in Hb. injection Hb as <-. by apply Hbase.
Qed.

Lemma reachable_world_in_bounds (w : world) : reachable_world w → world_in_bounds w.
Proof.
  induction 1 as [n m|w w' s o Hreach IH Hvalid Hbounds Hop|w w' Hreach IH Hsync].
  - apply world_in_bounds_quiet. intros k p Hp.
    unfold start_world in Hp. rewrite list_lookup_fmap in Hp.
    destruct (seq 0 n !! k); simpl in Hp; [|done]. by injection Hp as <-.
  - pose proof (reachable_world_consistent w Hreach) as Hc.
    pose proof Hop as (ps & p' & Hs & Hrun & Hw')%at_rank_inv.
    pose proof (Hc s ps Hs) as Hcs.
    destruct o as [location size|processor value variable size offset count
                   |processor variable target size offset count
                   |processor tag content tag_size content_size];
      simpl in Hrun, Hvalid, Hbounds.
    + injection Hrun as <-.
      rewrite Hw', (transmit_local w s ps) by done.
      apply (world_in_bounds_local_update w s ps); try done.
      intros id base. simpl. apply right_find_insert_Some.
    + specialize (Hbounds ps Hs).
      destruct (decide (processor = pid_ (wp ps))) as [Hself|Hne].
      * unfold internal_put_ in Hrun. rewrite decide_True in Hrun by done.
        injection Hrun as <-.
        rewrite Hw', (transmit_local w s ps) by done.
        by apply (world_in_bounds_local_update w s ps).
      * destruct Hbounds as (Hint & Hvalue & Hbase).
        destruct (internal_put_Done _ _ _ _ _ _ _ _ Hne Hrun) as [[id Hid] Hrank].
        assert (processor = Z.of_nat (Z.to_nat processor)) as Hd by lia.
        destruct (lookup_lt_is_Some_2 w (Z.to_nat processor)) as [pd Hpd].
        { destruct Hcs. lia. }
        change (at_rank s (internal_put_ processor value variable size offset count) w
                = Done w') in Hop.
        rewrite Hd in Hop.
        rewrite (at_rank_put w s (Z.to_nat processor) ps value variable size offset count id)
          in Hop; try done.
        -- injection Hop as <-. apply (world_in_bounds_after_put _ _ _ _ pd); [done|done|].
           pose proof (size_t_nonneg (size * count)).
           pose proof (size_t_nonneg (offset * size)).
           unfold put_in_bounds. cbn [snd fst ph_data_offset ph_var_id].
           rewrite length_read_bytes, Z2Nat.id by done.
           split; [done|]. split; [done|]. intros base Hb. by apply (Hbase pd id).
        -- intros k q Hq. by destruct (Hc k q Hq).
        -- by destruct Hcs.
        -- lia.
        -- destruct Hcs. lia.
    + specialize (Hbounds ps Hs).
      destruct (decide (processor = pid_ (wp ps))) as [Hself|Hne].
      * unfold internal_get_ in Hrun. rewrite decide_True in Hrun by done.
        injection Hrun as <-.
        rewrite Hw', (transmit_local w s ps) by done.
        by apply (world_in_bounds_local_update w s ps).
      * destruct Hbounds as (Hint & Htarget & Hbase).
        destruct (internal_get_Done _ _ _ _ _ _ _ _ Hne Hrun) as [[id Hid] Hrank].
        assert (processor = Z.of_nat (Z.to_nat processor)) as Hd by lia.
        destruct (lookup_lt_is_Some_2 w (Z.to_nat processor)) as [pd Hpd].
        { destruct Hcs. lia. }
        change (at_rank s (internal_get_ processor variable target size offset count) w
                = Done w') in Hop.
        rewrite Hd in Hop.
        rewrite (at_rank_get w s (Z.to_nat processor) ps variable target size offset count id)
          in Hop; try done.
        -- injection Hop as <-. apply (world_in_bounds_after_get _ _ _ _ pd); [done|done|].
           pose proof (size_t_nonneg (offset * size)).
           unfold get_in_bounds. cbn [snd fst gh_data_offset gh_var_id gh_size gh_count gh_target].
           split; [done|]. split; [done|]. split; [done|].
           intros base Hb. by apply (Hbase pd id).
        -- intros k q Hq. by destruct (Hc k q Hq).
        -- by destruct Hcs.
        -- lia.
        -- destruct Hcs. lia.
    + injection Hrun as <-.
      rewrite Hw', (transmit_local w s ps) by done.
      unfold internal_send_. by rewrite list_insert_id.
  - pose proof (reachable_world_consistent w Hreach) as Hc.
    rewrite (sync_all_consistent w Hc) in Hsync. injection Hsync as <-.
    apply world_in_bounds_quiet. intros k p Hp. rewrite list_lookup_imap in Hp.
    destruct (w !! k); simpl in Hp; [|done]. by injection Hp as <-.
Qed.

(** X8. The engine keeps itself consistent.  Start [n] ranks with the
    constructor and let them register locations, put, get, send and
    synchronise in any order, each call returning.  Two things are asked of
    the program: that a remote put or get names a location whose id the
    target rank has registered too, and that every call stays in bounds
    (ranges in the address space, copies within a rank between ranges that
    do not overlap, frames that an [int] can count).  Then in every world
    so reached the counters of each rank agree with what is in the
    mailboxes, every frame names an id its receiver can resolve and is in
    bounds, and a [sync] returns on all ranks, with the result [synced]
    describes. *)
Theorem programs_that_name_registered_locations_can_sync (w : world) :
  reachable_world w →
  consistent w ∧ world_in_bounds w ∧ sync_all w = Done (imap (synced w) w).
Proof.
  intros Hreach. pose proof (reachable_world_consistent w Hreach) as Hw.
  split; [done|]. split; [by apply reachable_world_in_bounds|].
  by apply sync_all_consistent.
Qed.

Lemma programs_that_name_registered_locations_can_sync_witness :
  ∃ w1 w2 w3 : world,
    at_rank 0 (run_op (Op_register 100 4)) (start_world 2 ramp) = Done w1
    ∧ at_rank 1 (run_op (Op_register 100 4)) w1 = Done w2
    ∧ at_rank 0 (run_op (Op_put 1 500 100 4 0 1)) w2 = Done w3
    ∧ consistent w3
    ∧ world_in_bounds w3
    ∧ sync_all w3 = Done (imap (synced w3) w3).
Proof.
  eexists _, _, _. split; [reflexivity|]. split; [reflexivity|]. split; [reflexivity|].
  apply programs_that_name_registered_locations_can_sync.
  eapply (reach_op _ _ 0 (Op_put 1 500 100 4 0 1));
    [eapply (reach_op _ _ 1 (Op_register 100 4));
     [eapply (reach_op _ _ 0 (Op_register 100 4));
      [apply (reach_start 2 ramp)|exact I|exact I|reflexivity]
     |exact I|exact I|reflexivity]
    | | |reflexivity].
  - intros ps pd id [= <-] _ [= <-] [= <-]. by eexists.
  - intros ps [= <-]. rewrite decide_False by done.
    unfold sizeof_put_header, INT_MAX, in_address_space.
    rewrite !size_t_small by lia.
    split; [lia|]. split; [lia|]. intros pd id base [= <-] [= <-] [= <-]. lia.
Defined.

(** ** Lifetime of [var<T>] objects *)

Section var_lifetime.
Import Var.

Lemma delete_impl_live (s : state) (v q : nat) (id : Z) :
  impls s !! q = Some id →
  ∃ s', delete_impl v q s = Some s'
        ∧ vars s' = vars s ∧ impls s' = delete q (impls s)
        ∧ next_impl s' = next_impl s ∧ next_id s' = next_id s
        ∧ calls s' = calls s ++ [(v, Unregister_location id)].
Proof. intros Hq. unfold delete_impl. rewrite Hq. simpl. by eexists. Qed.

Lemma state_eq (s s' : state) :
  vars s' = vars s → impls s' = impls s → next_impl s' = next_impl s →
  next_id s' = next_id s → calls s' = calls s → s' = s.
Proof. destruct s, s'. simpl. by intros -> -> -> -> ->. Qed.

(** X10. Giving a new value to an object that holds a registration.  In
    every state a program can reach, when [v] holds the registration [id]
    and is move-assigned from another object, the one call made on the
    world is the unregistration of [id]: the barrier that the destructor
    of [v] runs before the same unregistration is not run.  [v] then holds
    what the other object held, the other object holds nothing, and the
    [var_impl] of [id] is gone.  A move-assignment of an object to itself
    changes nothing and calls nothing. *)
Theorem move_assign_unregisters_without_barrier (s : state) (v other q : nat)
    (t : option nat) :
  reachable s →
  vars s !! v = Some (Some q) →
  vars s !! other = Some t →
  v ≠ other →
  ∃ id s1 s2,
    impls s !! q = Some id
    ∧ step (Move_assign v other) s = Some s1
    ∧ calls s1 = calls s ++ [(v, Unregister_location id)]
    ∧ vars s1 !! v = Some t
    ∧ vars s1 !! other = Some None
    ∧ impls s1 = delete q (impls s)
    ∧ step (Destroy v) s = Some s2
    ∧ calls s2 = calls s ++ [(v, World_barrier); (v, Unregister_location id)]
    ∧ impls s2 = delete q (impls s)
    ∧ step (Move_assign v v) s = Some s.
Proof.
  intros Hinv%reachable_inv Hv Hother Hne.
  destruct (inv_live s Hinv v q Hv) as [id Hid].
  assert (∃ s1, step (Move_assign v other) s = Some s1
                ∧ calls s1 = calls s ++ [(v, Unregister_location id)]
                ∧ vars s1 = <[v := t]> (<[other := None]> (vars s))
                ∧ impls s1 = delete q (impls s)) as (s1 & Hs1 & Hc1 & Hv1 & Hi1).
  { simpl. unfold move_impl. rewrite Hother. simpl.
    rewrite lookup_insert_ne by done. rewrite Hv. simpl.
    destruct (delete_impl_live
                (set_vars (<[v:=t]> (<[other:=None]> (vars s)))
                   (set_vars (<[other:=None]> (vars s)) s)) v q id Hid)
      as (s1 & Hs1 & Hv1 & Hi1 & _ & _ & Hc1).
    by exists s1. }
  assert (∃ s2, step (Destroy v) s = Some s2
                ∧ calls s2 = calls s ++ [(v, World_barrier); (v, Unregister_location id)]
                ∧ impls s2 = delete q (impls s)) as (s2 & Hs2 & Hc2 & Hi2).
  { simpl. rewrite Hv. simpl.
    destruct (delete_impl_live (world_call_from v World_barrier s) v q id Hid)
      as (s2 & Hs2 & _ & Hi2 & _ & _ & Hc2).
    rewrite Hs2. simpl. eexists. split; [done|]. simpl.
    split; [|done]. rewrite Hc2. simpl. by rewrite <- app_assoc. }
  exists id, s1, s2. split; [done|]. split; [done|]. split; [done|].
  split; [by rewrite Hv1, lookup_insert_eq|].
  split; [by rewrite Hv1, lookup_insert_ne, lookup_insert_eq|].
  split; [done|]. split; [done|]. split; [done|]. split; [done|].
  destruct (step (Move_assign v v) s) as [s'|] eqn:Hself.
  - apply move_impl_self in Hself as (_ & ? & ? & ? & ? & ?). f_equal. by apply state_eq.
  - simpl in Hself. unfold move_impl in Hself. rewrite Hv in Hself. simpl in Hself.
    rewrite lookup_insert_eq in Hself. done.
Qed.

Lemma move_assign_unregisters_without_barrier_witness :
  reachable example_two_vars
  ∧ ∃ s1 s2,
      step (Move_assign 1 0) example_two_vars = Some s1
      ∧ calls s1 = calls example_two_vars ++ [(1%nat, Unregister_location 1)]
      ∧ step (Destroy 1) example_two_vars = Some s2
      ∧ calls s2 = calls example_two_vars
                   ++ [(1%nat, World_barrier); (1%nat, Unregister_location 1)].
Proof.
  assert (reachable example_two_vars) as Hr.
  { exists [Construct 0; Construct 1]. reflexivity. }
  split; [exact Hr|].
  destruct (move_assign_unregisters_without_barrier example_two_vars 1 0 1 (Some 0%nat)
              Hr eq_refl eq_refl ltac:(done))
    as (id & s1 & s2 & Hid & Hs1 & Hc1 & _ & _ & _ & Hs2 & Hc2 & _).
  injection Hid as <-. by exists s1, s2.
Defined.

(** X11. No operation finds a dangling [impl_].  In every state a program
    can reach, the destructor of a live object returns, a move-assignment
    between live objects returns, and a move-construction of a fresh object
    from a live one returns: the [var_impl] that has to be deleted on the
    way is always there, so none is deleted twice. *)
Theorem var_operations_never_dangle (s : state) :
  reachable s →
  (∀ v, is_Some (step (Destroy v) s) ↔ is_Some (vars s !! v))
  ∧ (∀ v other, is_Some (step (Move_assign v other) s)
                ↔ is_Some (vars s !! v) ∧ is_Some (vars s !! other))
  ∧ (∀ v other, is_Some (step (Move_construct v other) s)
                ↔ vars s !! v = None ∧ v ≠ other ∧ is_Some (vars s !! other)).
Proof.
  intros Hinv%reachable_inv. split; [|split].
  - intros v. simpl. destruct (vars s !! v) as [[q|]|] eqn:Hv; simpl.
    + destruct (inv_live s Hinv v q Hv) as [id Hid].
      destruct (delete_impl_live (world_call_from v World_barrier s) v q id Hid)
        as (s' & -> & _). simpl. split; by eexists.
    + split; by eexists.
    + split; by intros [? ?].
  - intros v other. simpl. unfold move_impl.
    destruct (vars s !! other) as [t|] eqn:Hother; simpl.
    2:{ split; [by intros [? ?]|by intros [_ [? ?]]]. }
    destruct (decide (v = other)) as [->|Hne].
    + rewrite lookup_insert_eq. simpl. rewrite Hother. split; [by split; eexists|by eexists].
    + rewrite lookup_insert_ne by done.
      destruct (vars s !! v) as [[q|]|] eqn:Hv; simpl.
      * destruct (inv_live s Hinv v q Hv) as [id Hid].
        unfold delete_impl. simpl. rewrite Hid. simpl. split; [by split; eexists|by eexists].
      * split; [by split; eexists|by eexists].
      * split; [by intros [? ?]|by intros [[? ?] _]].
  - intros v other. simpl.
    destruct (vars s !! v) as [o|] eqn:Hv.
    { split; [by intros [? ?]|by intros [? _]]. }
    destruct (decide (v = other)) as [->|Hne].
    { split; [by intros [? ?]|by intros (_ & ? & _)]. }
    unfold move_impl. simpl. rewrite lookup_insert_ne by done.
    rewrite (lookup_insert_ne _ v other) by done.
    destruct (vars s !! other) as [t|] eqn:Hother; simpl.
    + rewrite lookup_insert_eq. simpl. split; [done|by eexists].
    + split; [by intros [? ?]|by intros (_ & _ & [? ?])].
Qed.

Lemma var_operations_never_dangle_witness :
  reachable example_two_vars
  ∧ is_Some (step (Destroy 0) example_two_vars)
  ∧ is_Some (step (Move_assign 0 1) example_two_vars)
  ∧ is_Some (step (Move_construct 2 1) example_two_vars).
Proof.
  assert (reachable example_two_vars) as Hr.
  { exists [Construct 0; Construct 1]. reflexivity. }
  split; [exact Hr|].
  destruct (var_operations_never_dangle example_two_vars Hr) as (Hd & Ha & Hc).
  split; [apply Hd; by eexists|]. split; [apply Ha; split; by eexists|].
  apply Hc. split; [done|]. split; [done|]. by eexists.
Defined.

End var_lifetime.

(** ** The same registrations on two ranks *)

(** New locations, registered in order, get the ids [vars_], [vars_ + 1],
    ...; what was registered before stays. *)
Lemma register_all_ids (regs : list (Z * Z)) : ∀ p : process,
  ids_below_vars (wp p) →
  NoDup (regs.*1) →
  (∀ l, l ∈ regs.*1 → left_find (locations_ (wp p)) l = None) →
  ∃ p', registry_run (register_all regs) p = Done p'
        ∧ vars_ (wp p') = vars_ (wp p) + Z.of_nat (length regs)
        ∧ (∀ l i, left_find (locations_ (wp p)) l = Some i →
                  left_find (locations_ (wp p')) l = Some i)
        ∧ (∀ l i, right_find (locations_ (wp p)) i = Some l →
                  right_find (locations_ (wp p')) i = Some l)
        ∧ ∀ k r, regs !! k = Some r →
                 left_find (locations_ (wp p')) r.1 = Some (vars_ (wp p) + Z.of_nat k)
                 ∧ right_find (locations_ (wp p')) (vars_ (wp p) + Z.of_nat k) = Some r.1.
Proof.
  induction regs as [|r0 regs IH]; intros p Hids Hnd Hnew.
  { exists p. split; [done|]. split; [simpl; lia|]. by repeat split. }
  rewrite fmap_cons in Hnd. apply NoDup_cons in Hnd as [Hr0 Hnd].
  assert (left_find (locations_ (wp p)) r0.1 = None) as Hl0.
  { apply Hnew. rewrite fmap_cons. by left. }
  assert (right_find (locations_ (wp p)) (vars_ (wp p)) = None) as Hi0.
  { by apply (right_find_below _ (vars_ (wp p))). }
  destruct (bimap_insert_fresh _ _ _ Hl0 Hi0) as (Hl1 & Hi1 & Hlo & Hio).
  simpl.
  match goal with |- context [registry_run _ ?q] => set (p1 := q) end.
  destruct (IH p1) as (p' & Hrun & Hvars & Hkl & Hkr & Hk).
  - unfold ids_below_vars, p1 in *. simpl. apply bimap_insert_below; [|lia].
    eapply Forall_impl; [exact Hids|]. simpl. intros; lia.
  - done.
  - intros l Hl. unfold p1. simpl. rewrite Hlo.
    + apply Hnew. rewrite fmap_cons. by right.
    + intros ->. done.
  - exists p'. split; [exact Hrun|]. unfold p1 in Hvars, Hkl, Hkr, Hk. simpl in *.
    split; [lia|]. split; [|split].
    + intros l i Hl. apply Hkl. rewrite Hlo; [done|]. intros ->. congruence.
    + intros l i Hi. apply Hkr. rewrite Hio; [done|]. intros ->. congruence.
    + intros [|k] r Hr; simpl in Hr.
      * injection Hr as <-. rewrite Z.add_0_r. split; [by apply Hkl|by apply Hkr].
      * destruct (Hk k r Hr) as [H1 H2].
        replace (vars_ (wp p) + Z.of_nat (S k)) with (vars_ (wp p) + 1 + Z.of_nat k) by lia.
        done.
Qed.

(** X12. Two ranks whose [vars_] agree (as on all ranks after the
    constructor) and that register the same number of new, distinct
    locations, each its own addresses: the id under which the one rank
    knows its [k]-th location is the id under which the other rank finds
    its own [k]-th location.  This is what lets the id in the header of a
    put or get, looked up by the sender in its own registry, name the
    matching location of the receiver. *)
Theorem same_order_of_registration_same_ids (regs_s regs_d : list (Z * Z))
    (ps pd : process) :
  ids_below_vars (wp ps) →
  ids_below_vars (wp pd) →
  vars_ (wp ps) = vars_ (wp pd) →
  NoDup (regs_s.*1) →
  NoDup (regs_d.*1) →
  (∀ l, l ∈ regs_s.*1 → left_find (locations_ (wp ps)) l = None) →
  (∀ l, l ∈ regs_d.*1 → left_find (locations_ (wp pd)) l = None) →
  ∃ ps' pd',
    registry_run (register_all regs_s) ps = Done ps'
    ∧ registry_run (register_all regs_d) pd = Done pd'
    ∧ ∀ k rs rd,
        regs_s !! k = Some rs →
        regs_d !! k = Some rd →
        ∃ id, left_at (locations_ (wp ps')) rs.1 = Done id
              ∧ right_at (locations_ (wp pd')) id = Done rd.1
              ∧ id = vars_ (wp ps) + Z.of_nat k.
Proof.
  intros Hs Hd Hvars Hnds Hndd Hnews Hnewd.
  destruct (register_all_ids regs_s ps Hs Hnds Hnews) as (ps' & Hruns & _ & _ & _ & Hks).
  destruct (register_all_ids regs_d pd Hd Hndd Hnewd) as (pd' & Hrund & _ & _ & _ & Hkd).
  exists ps', pd'. split; [done|]. split; [done|].
  intros k rs rd Hrs Hrd. exists (vars_ (wp ps) + Z.of_nat k).
  destruct (Hks k rs Hrs) as [Hl _]. destruct (Hkd k rd Hrd) as [_ Hr].
  unfold left_at, right_at. rewrite Hl, Hvars, Hr. done.
Qed.

Lemma same_order_of_registration_same_ids_witness :
  ∃ ps' pd',
    registry_run (register_all [(100, 4); (200, 8)]) (start 0 2 ramp) = Done ps'
    ∧ registry_run (register_all [(300, 4); (100, 8)]) (start 1 2 ramp) = Done pd'
    ∧ left_at (locations_ (wp ps')) 200 = Done 1
    ∧ right_at (locations_ (wp pd')) 1 = Done 100.
Proof.
  destruct (same_order_of_registration_same_ids [(100, 4); (200, 8)] [(300, 4); (100, 8)]
              (start 0 2 ramp) (start 1 2 ramp))
    as (ps' & pd' & Hs & Hd & Hk).
  - apply Forall_nil_2.
  - apply Forall_nil_2.
  - reflexivity.
  - simpl. apply NoDup_cons. split; [|apply NoDup_singleton].
    intros Hin%list_elem_of_singleton. done.
  - simpl. apply NoDup_cons. split; [|apply NoDup_singleton].
    intros Hin%list_elem_of_singleton. done.
  - done.
  - done.
  - exists ps', pd'. split; [exact Hs|]. split; [exact Hd|].
    destruct (Hk 1%nat (200, 8) (100, 8) eq_refl eq_refl) as (id & Hl & Hr & ->).
    by split.
Defined.

(** ** A put to the rank itself, read back *)

(** X13. A rank that puts [count] elements from [buffer] into its own
    location and then gets the same elements into [target] finds in
    [target] the bytes that were in [buffer] before the put, when the three
    ranges lie in the address space and each copy is between ranges that
    do not overlap; neither call touches the engine's fields or sends a
    frame, and the location need not be registered. *)
Theorem self_put_then_get_round_trip (p : process)
    (buffer variable target size offset count : Z) :
  0 ≤ variable →
  in_address_space (variable + size_t (size * offset)) (size_t (count * size)) →
  in_address_space buffer (size_t (count * size)) →
  in_address_space target (size_t (count * size)) →
  disjoint_ranges (variable + size_t (size * offset)) buffer (size_t (count * size)) →
  disjoint_ranges target (variable + size_t (size * offset)) (size_t (count * size)) →
  ∃ p1 p2,
    internal_put_ (pid_ (wp p)) buffer variable size offset count p = Done p1
    ∧ internal_get_ (pid_ (wp p)) variable target size offset count p1 = Done p2
    ∧ wp p2 = wp p ∧ net p2 = net p ∧ log p2 = log p
    ∧ (∀ k, 0 ≤ k < size_t (count * size) → heap p1 (buffer + k) = heap p (buffer + k))
    ∧ ∀ k, 0 ≤ k < size_t (count * size) → heap p2 (target + k) = heap p (buffer + k).
Proof.
  intros _ _ _ _ Hput _.
  exists (put_to_self_ buffer variable size offset count p),
         (get_from_self_ variable target size offset count
            (put_to_self_ buffer variable size offset count p)).
  split; [unfold internal_put_; by rewrite decide_True|].
  split; [unfold internal_get_; by rewrite decide_True|].
  do 3 (split; [done|]).
  pose proof (size_t_nonneg (count * size)) as Hn. split.
  - intros k Hk. simpl. rewrite memcpy_spec by lia.
    unfold disjoint_ranges in Hput. by rewrite decide_False by lia.
  - intros k Hk. simpl.
    rewrite memcpy_spec, decide_True by lia.
    rewrite memcpy_spec, decide_True by lia.
    f_equal. lia.
Qed.

Lemma self_put_then_get_round_trip_witness :
  ∃ p1 p2,
    internal_put_ 0 500 100 4 1 2 (start 0 2 ramp) = Done p1
    ∧ internal_get_ 0 100 600 4 1 2 p1 = Done p2
    ∧ heap p2 600 = ramp 500
    ∧ heap p2 607 = ramp 507.
Proof.
  assert (size_t (4 * 1) = 4) as Hoff by (by apply size_t_small).
  assert (size_t (2 * 4) = 8) as Hlen by (by apply size_t_small).
  destruct (self_put_then_get_round_trip (start 0 2 ramp) 500 100 600 4 1 2)
    as (p1 & p2 & Hp1 & Hp2 & _ & _ & _ & _ & Hbytes).
  - lia.
  - rewrite Hoff, Hlen. unfold in_address_space. lia.
  - rewrite Hlen. unfold in_address_space. lia.
  - rewrite Hlen. unfold in_address_space. lia.
  - rewrite Hoff, Hlen. unfold disjoint_ranges. lia.
  - rewrite Hoff, Hlen. unfold disjoint_ranges. lia.
  - exists p1, p2. split; [exact Hp1|]. split; [exact Hp2|].
    rewrite Hlen in Hbytes.
    pose proof (Hbytes 0 ltac:(lia)) as H0. pose proof (Hbytes 7 ltac:(lia)) as H7.
    by split.
Defined.
